(** * evobattle: stats, growth, evolution and genetics

    A shallow embedding of [src/models/stats.py] and
    [src/models/evolution.py].

    - Python [int] is [Z] (unbounded).
    - Python [float] is IEEE 754 binary64, taken from the Standard
      Library's executable specification [SpecFloat] at precision 53
      and maximal exponent 1024.
    - Exceptions are results of type [result]; a function that can raise
      returns [Raise e] instead of a value.
    - [Stats] objects that are mutated in place or copied live in an
      object store, so that copying and aliasing are visible.
    - The module-global random generator is an explicit entropy source
      that every draw advances. *)

From Stdlib Require Import ZArith Bool List String Ascii Lia.
From Stdlib Require Import Floats.SpecFloat.
From stdpp Require Import base option list gmap strings.

Local Open Scope Z_scope.

(* ===================================================================== *)
(** * Exceptions *)
(* ===================================================================== *)

Inductive exn : Type :=
| ValueError
| OverflowError
| ZeroDivisionError
| IndexError
| AttributeError.

Inductive result (A : Type) : Type :=
| Ok (a : A)
| Raise (e : exn).

Arguments Ok {A} a.
Arguments Raise {A} e.

Definition rbind {A B : Type} (r : result A) (k : A -> result B) : result B :=
  match r with
  | Ok a => k a
  | Raise e => Raise e
  end.

#[global] Instance result_ret : MRet result := fun A a => Ok a.
#[global] Instance result_bind : MBind result := fun A B k r => rbind r k.

(* ===================================================================== *)
(** * Python floats: IEEE 754 binary64 *)
(* ===================================================================== *)

Module PyFloat.

Definition prec : Z := 53.
Definition emax : Z := 1024.

Abbreviation float := spec_float.

Definition fmul : float -> float -> float := SFmul prec emax.
Definition fadd : float -> float -> float := SFadd prec emax.
Definition fsub : float -> float -> float := SFsub prec emax.
Definition fdiv : float -> float -> float := SFdiv prec emax.
Definition fltb : float -> float -> bool := SFltb.
Definition fleb : float -> float -> bool := SFleb.

Definition is_finite (x : float) : bool :=
  match x with
  | S754_zero _ | S754_finite _ _ _ => true
  | S754_infinity _ | S754_nan => false
  end.

Definition is_nan (x : float) : bool :=
  match x with
  | S754_nan => true
  | _ => false
  end.

(** An integer as an exact, not yet rounded, significand with exponent 0. *)
Definition exact_of_Z (n : Z) : float :=
  match n with
  | Z0 => S754_zero false
  | Zpos p => S754_finite false p 0
  | Zneg p => S754_finite true p 0
  end.

(** [float(n)] for an [int] n, as done implicitly by mixed arithmetic:
    round to nearest, ties to even; [OverflowError] when the integer
    is too large for a float. *)
Definition float_of_int (n : Z) : result float :=
  let x := binary_normalize prec emax n 0 false in
  if is_finite x then Ok x else Raise OverflowError.

(** [int(x)]: truncation toward zero; [ValueError] on NaN and
    [OverflowError] on an infinity. *)
Definition int_of_float (x : float) : result Z :=
  match x with
  | S754_nan => Raise ValueError
  | S754_infinity _ => Raise OverflowError
  | S754_zero _ => Ok 0
  | S754_finite s m e =>
      let a := match e with
               | Zneg k => Z.shiftr (Zpos m) (Zpos k)
               | _ => Z.shiftl (Zpos m) e
               end in
      Ok (if s then - a else a)
  end.


(** [a / b] on two [int]s: the correctly rounded quotient. *)
Definition int_truediv (a b : Z) : result float :=
  if b =? 0 then Raise ZeroDivisionError
  else
    let q := fdiv (exact_of_Z a) (exact_of_Z b) in
    if is_finite q then Ok q else Raise OverflowError.

(** [n * x] and [x + n] with an [int] n and a [float] x. *)
Definition int_mul_float (n : Z) (x : float) : result float :=
  nf ← float_of_int n; Ok (fmul nf x).

Definition float_mul_int (x : float) (n : Z) : result float :=
  nf ← float_of_int n; Ok (fmul x nf).

Definition float_add_int (x : float) (n : Z) : result float :=
  nf ← float_of_int n; Ok (fadd x nf).

Definition int_add_float (n : Z) (x : float) : result float :=
  nf ← float_of_int n; Ok (fadd nf x).

(** The float literal written [num/den] in decimal, correctly rounded. *)
Definition literal (num den : Z) : float :=
  fdiv (exact_of_Z num) (exact_of_Z den).

Definition f0_0 : float := S754_zero false.
Definition f0_5 : float := Eval vm_compute in literal 1 2.
Definition f0_8 : float := Eval vm_compute in literal 8 10.
Definition f0_9 : float := Eval vm_compute in literal 9 10.
Definition f1_0 : float := Eval vm_compute in literal 1 1.
Definition f1_1 : float := Eval vm_compute in literal 11 10.
Definition f1_2 : float := Eval vm_compute in literal 12 10.
Definition f1_5 : float := Eval vm_compute in literal 3 2.
Definition f2_0 : float := Eval vm_compute in literal 2 1.

End PyFloat.
Import PyFloat.

(* ===================================================================== *)
(** * stats.py: [Stats] and [StatModifier] *)
(* ===================================================================== *)

Record Stats : Type := mkStats {
  hp : Z;
  max_hp : Z;
  attack : Z;
  defense : Z;
  speed : Z;
  special_attack : Z;
  special_defense : Z
}.

(** The dataclass constructor followed by [__post_init__], which caps
    [hp] at [max_hp].  Keyword arguments, here in field order. *)
Definition Stats_init (hp max_hp attack defense speed
                       special_attack special_defense : Z) : Stats :=
  let hp := if max_hp <? hp then max_hp else hp in
  mkStats hp max_hp attack defense speed special_attack special_defense.

(** Attribute assignment [s.field = v]. *)
Definition set_hp (v : Z) (s : Stats) : Stats :=
  mkStats v (max_hp s) (attack s) (defense s) (speed s)
          (special_attack s) (special_defense s).
Definition set_max_hp (v : Z) (s : Stats) : Stats :=
  mkStats (hp s) v (attack s) (defense s) (speed s)
          (special_attack s) (special_defense s).
Definition set_attack (v : Z) (s : Stats) : Stats :=
  mkStats (hp s) (max_hp s) v (defense s) (speed s)
          (special_attack s) (special_defense s).
Definition set_defense (v : Z) (s : Stats) : Stats :=
  mkStats (hp s) (max_hp s) (attack s) v (speed s)
          (special_attack s) (special_defense s).
Definition set_speed (v : Z) (s : Stats) : Stats :=
  mkStats (hp s) (max_hp s) (attack s) (defense s) v
          (special_attack s) (special_defense s).
Definition set_special_attack (v : Z) (s : Stats) : Stats :=
  mkStats (hp s) (max_hp s) (attack s) (defense s) (speed s)
          v (special_defense s).
Definition set_special_defense (v : Z) (s : Stats) : Stats :=
  mkStats (hp s) (max_hp s) (attack s) (defense s) (speed s)
          (special_attack s) v.

Record StatModifier : Type := mkStatModifier {
  modifier_name : string;
  duration : Z;
  attack_multiplier : float;
  attack_bonus : Z;
  defense_multiplier : float;
  defense_bonus : Z;
  speed_multiplier : float;
  speed_bonus : Z;
  special_attack_multiplier : float;
  special_attack_bonus : Z;
  special_defense_multiplier : float;
  special_defense_bonus : Z;
  max_hp_multiplier : float;
  max_hp_bonus : Z
}.

(** ** The object store

    A [Stats] object is a reference into a store; methods that assign
    to attributes update the store in place. *)

Module Heap.

Definition ref : Type := nat.
Abbreviation store := (gmap nat Stats).

(** A computation returns or raises, and leaves a store either way. *)
Definition M (A : Type) : Type := store -> result A * store.

#[global] Instance M_ret : MRet M := fun A a σ => (Ok a, σ).
#[global] Instance M_bind : MBind M := fun A B k m σ =>
  match m σ with
  | (Ok a, σ') => k a σ'
  | (Raise e, σ') => (Raise e, σ')
  end.

Definition lift {A : Type} (r : result A) : M A := fun σ => (r, σ).

(** Object creation: a reference that is not in use. *)
Definition alloc (s : Stats) : M ref := fun σ =>
  let r := fresh (dom σ) in (Ok r, <[r := s]> σ).

(** [r.field] *)
Definition getattr {A : Type} (r : ref) (field : Stats -> A) : M A := fun σ =>
  match σ !! r with
  | Some s => (Ok (field s), σ)
  | None => (Raise AttributeError, σ)
  end.

(** [r.field = v] *)
Definition setattr (r : ref) (set : Z -> Stats -> Stats) (v : Z) : M unit := fun σ =>
  match σ !! r with
  | Some s => (Ok tt, <[r := set v s]> σ)
  | None => (Raise AttributeError, σ)
  end.

End Heap.
Import Heap.

(** [Stats.copy]: a new object built by the constructor. *)
Definition copy (self : ref) : M ref :=
  h ← getattr self hp;
  mh ← getattr self max_hp;
  a ← getattr self attack;
  d ← getattr self defense;
  s ← getattr self speed;
  sa ← getattr self special_attack;
  sd ← getattr self special_defense;
  alloc (Stats_init h mh a d s sa sd).

(** [int(old * multiplier + bonus)] *)
Definition scaled (old : Z) (multiplier : float) (bonus : Z) : result Z :=
  p ← int_mul_float old multiplier;
  q ← float_add_int p bonus;
  int_of_float q.

(** [Stats.apply_modifier] *)
Definition apply_modifier (self : ref) (modifier : StatModifier) : M ref :=
  modified ← copy self;
  a ← getattr modified attack;
  v ← lift (scaled a (attack_multiplier modifier) (attack_bonus modifier));
  setattr modified set_attack v;;
  a ← getattr modified defense;
  v ← lift (scaled a (defense_multiplier modifier) (defense_bonus modifier));
  setattr modified set_defense v;;
  a ← getattr modified speed;
  v ← lift (scaled a (speed_multiplier modifier) (speed_bonus modifier));
  setattr modified set_speed v;;
  a ← getattr modified special_attack;
  v ← lift (scaled a (special_attack_multiplier modifier)
                     (special_attack_bonus modifier));
  setattr modified set_special_attack v;;
  a ← getattr modified special_defense;
  v ← lift (scaled a (special_defense_multiplier modifier)
                     (special_defense_bonus modifier));
  setattr modified set_special_defense v;;
  a ← getattr modified max_hp;
  v ← lift (scaled a (max_hp_multiplier modifier) (max_hp_bonus modifier));
  setattr modified set_max_hp v;;
  (* Keep current HP ratio when max_hp changes *)
  self_max_hp ← getattr self max_hp;
  hp_ratio ← (if 0 <? self_max_hp
              then self_hp ← getattr self hp;
                   self_max_hp ← getattr self max_hp;
                   lift (int_truediv self_hp self_max_hp)
              else mret f1_0);
  a ← getattr modified max_hp;
  v ← lift (p ← int_mul_float a hp_ratio; int_of_float p);
  setattr modified set_hp v;;
  mret modified.

(** [Stats.take_damage] *)
Definition take_damage (self : ref) (amount : Z) : M Z :=
  old_hp ← getattr self hp;
  h ← getattr self hp;
  setattr self set_hp (Z.max 0 (h - amount));;
  h' ← getattr self hp;
  mret (old_hp - h').

(** [Stats.is_alive] *)
Definition is_alive (self : ref) : M bool :=
  h ← getattr self hp;
  mret (0 <? h).

(** The value [apply_modifier] builds, in closed form over the fields of
    the receiver: every scalable stat and [max_hp] is [scaled], and [hp]
    is the new [max_hp] times the old ratio [hp / max_hp], truncated. *)
Definition hp_ratio_of (s : Stats) : result float :=
  if 0 <? max_hp s then int_truediv (hp s) (max_hp s) else Ok f1_0.

Definition modified_value (s : Stats) (m : StatModifier) : result Stats :=
  a ← scaled (attack s) (attack_multiplier m) (attack_bonus m);
  d ← scaled (defense s) (defense_multiplier m) (defense_bonus m);
  sp ← scaled (speed s) (speed_multiplier m) (speed_bonus m);
  sa ← scaled (special_attack s) (special_attack_multiplier m)
              (special_attack_bonus m);
  sd ← scaled (special_defense s) (special_defense_multiplier m)
              (special_defense_bonus m);
  mh ← scaled (max_hp s) (max_hp_multiplier m) (max_hp_bonus m);
  ratio ← hp_ratio_of s;
  h ← (p ← int_mul_float mh ratio; int_of_float p);
  Ok (mkStats h mh a d sp sa sd).



(* ===================================================================== *)
(** * stats.py: [StatGrowth] *)
(* ===================================================================== *)

Record StatGrowth : Type := mkStatGrowth {
  hp_growth : float;
  attack_growth : float;
  defense_growth : float;
  speed_growth : float;
  special_attack_growth : float;
  special_defense_growth : float;
  growth_curve : string
}.

(** [StatGrowth._get_growth_multiplier]: [curves.get(growth_curve, 1.0)] *)
Definition _get_growth_multiplier (self : StatGrowth) (level : Z) : float :=
  let curves : gmap string float :=
    <["slow" := f0_8]> (<["medium_slow" := f0_9]>
      (<["medium_fast" := f1_0]> (<["fast" := f1_2]> ∅))) in
  default f1_0 (curves !! growth_curve self).

(** [int(base + growth * (level - 1) * growth_multiplier)] *)
Definition grown (base : Z) (growth : float) (level : Z)
                 (growth_multiplier : float) : result Z :=
  g ← float_mul_int growth (level - 1);
  x ← int_add_float base (fmul g growth_multiplier);
  int_of_float x.

(** [StatGrowth.calculate_stats_at_level]; the keyword arguments are
    evaluated in the order they are written, [max_hp] first. *)
Definition calculate_stats_at_level (self : StatGrowth) (base_stats : Stats)
                                    (level : Z) : result Stats :=
  let growth_multiplier := _get_growth_multiplier self level in
  max_hp' ← grown (max_hp base_stats) (hp_growth self) level growth_multiplier;
  hp' ← grown (max_hp base_stats) (hp_growth self) level growth_multiplier;
  attack' ← grown (attack base_stats) (attack_growth self) level
                  growth_multiplier;
  defense' ← grown (defense base_stats) (defense_growth self) level
                   growth_multiplier;
  speed' ← grown (speed base_stats) (speed_growth self) level
                 growth_multiplier;
  special_attack' ← grown (special_attack base_stats)
                          (special_attack_growth self) level growth_multiplier;
  special_defense' ← grown (special_defense base_stats)
                           (special_defense_growth self) level
                           growth_multiplier;
  Ok (Stats_init hp' max_hp' attack' defense' speed'
                 special_attack' special_defense').

(** Growth rates that are numbers, and base stats that a float holds
    exactly. *)
Definition finite_rates (g : StatGrowth) : bool :=
  is_finite (hp_growth g) && is_finite (attack_growth g) &&
  is_finite (defense_growth g) && is_finite (speed_growth g) &&
  is_finite (special_attack_growth g) && is_finite (special_defense_growth g).

Definition exact_in_float (n : Z) : bool := Z.abs n <? 2 ^ 53.

Definition exact_stats (s : Stats) : bool :=
  exact_in_float (max_hp s) && exact_in_float (attack s) &&
  exact_in_float (defense s) && exact_in_float (speed s) &&
  exact_in_float (special_attack s) && exact_in_float (special_defense s).

(* ===================================================================== *)
(** * The random generator *)
(* ===================================================================== *)

(** Python's [random] module, used through its module-level functions.
    The generator state is an entropy source, an unbounded sequence of
    raw integers, and the position of the next one; each library call
    consumes one raw integer and maps it onto the range the library
    documents for that call. *)

Module Random.

Record source : Type := mkSource {
  entropy : nat -> Z;
  position : nat
}.

Definition Gen (A : Type) : Type := source -> result A * source.

#[global] Instance Gen_ret : MRet Gen := fun A a g => (Ok a, g).
#[global] Instance Gen_bind : MBind Gen := fun A B k m g =>
  match m g with
  | (Ok a, g') => k a g'
  | (Raise e, g') => (Raise e, g')
  end.

Definition raise {A : Type} (e : exn) : Gen A := fun g => (Raise e, g).

Definition next_raw : Gen Z := fun g =>
  (Ok (entropy g (position g)), mkSource (entropy g) (S (position g))).

(** [random.randint(a, b)]: an integer N with [a <= N <= b];
    [ValueError] on an empty range. *)
Definition randint (a b : Z) : Gen Z :=
  if b <? a then raise ValueError
  else r ← next_raw; mret (a + r mod (b - a + 1)).

(** [random.random()]: a float [k / 2^53] in [[0.0, 1.0)]. *)
Definition random : Gen float :=
  r ← next_raw; mret (binary_normalize prec emax (r mod 2 ^ 53) (-53) false).

(** [random.uniform(a, b)], which the library computes as
    [a + (b - a) * random()]. *)
Definition uniform (a b : float) : Gen float :=
  u ← random; mret (fadd a (fmul (fsub b a) u)).

(** [random.choice(seq)]; [IndexError] on an empty sequence. *)
Definition choice {A : Type} (seq : list A) : Gen A :=
  match seq with
  | [] => raise IndexError
  | x :: _ =>
      r ← next_raw;
      mret (nth (Z.to_nat (r mod Z.of_nat (length seq))) seq x)
  end.

End Random.

(* ===================================================================== *)
(** * Collaborators of evolution.py *)
(* ===================================================================== *)

(** Modelled from the spec: the class [Trait] of [models/trait.py],
    which is not among the sources.  The fields are the keyword
    arguments of the constructor call in [_mutate_trait] and the
    "name + strength/speed/defense modifier floats" of the spec;
    [trait_type] and [rarity] are only ever copied. *)
Module Trait.
Record t : Type := mk {
  name : string;
  description : string;
  trait_type : string;
  strength_modifier : float;
  speed_modifier : float;
  defense_modifier : float;
  rarity : string
}.
End Trait.

(** Modelled from the spec: the class [CreatureType] of
    [models/creature.py] ("SpeciesDefinition": name, base stats, growth
    profile, tags, evolution stage), with the keyword arguments of the
    constructor calls in [create_example_evolution_system]. *)
Module CreatureType.
Record t : Type := mk {
  name : string;
  description : string;
  base_stats : Stats;
  stat_growth : StatGrowth;
  type_tags : list string;
  evolution_stage : Z
}.
End CreatureType.

(** Modelled from the spec: the attributes of the class [Creature] of
    [models/creature.py] that evolution.py reads and assigns. *)
Module Creature.
Record t : Type := mk {
  name : string;
  creature_type : CreatureType.t;
  level : Z;
  base_stats : Stats;
  stats : Stats;
  traits : list Trait.t;
  active_modifiers : list StatModifier;
  energy : Z;
  max_energy : Z
}.

Definition set_creature_type (v : CreatureType.t) (c : t) : t :=
  mk (name c) v (level c) (base_stats c) (stats c) (traits c)
     (active_modifiers c) (energy c) (max_energy c).
Definition set_base_stats (v : Stats) (c : t) : t :=
  mk (name c) (creature_type c) (level c) v (stats c) (traits c)
     (active_modifiers c) (energy c) (max_energy c).
Definition set_stats (v : Stats) (c : t) : t :=
  mk (name c) (creature_type c) (level c) (base_stats c) v (traits c)
     (active_modifiers c) (energy c) (max_energy c).
Definition set_energy (v : Z) (c : t) : t :=
  mk (name c) (creature_type c) (level c) (base_stats c) (stats c) (traits c)
     (active_modifiers c) v (max_energy c).

(** Modelled from the spec: [has_trait], presence of a trait "by exact
    name match; no partial/fuzzy matching; case-sensitive". *)
Definition has_trait (self : t) (trait_name : string) : bool :=
  existsb (fun tr => String.eqb (Trait.name tr) trait_name) (traits self).
End Creature.

(* ===================================================================== *)
(** * evolution.py: [EvolutionPath] *)
(* ===================================================================== *)

Module EvolutionPath.
Record t : Type := mk {
  from_type : string;
  to_type : string;
  min_level : Z;
  required_traits : list string;
  conditions : list (string * string)
}.

(** [EvolutionPath.can_evolve] *)
Definition can_evolve (self : t) (creature : Creature.t) : bool :=
  (* Check type match *)
  if negb (String.eqb (CreatureType.name (Creature.creature_type creature))
                      (from_type self))
  then false
  (* Check level requirement *)
  else if Creature.level creature <? min_level self then false
  (* Check required traits *)
  else forallb (fun trait_name => Creature.has_trait creature trait_name)
               (required_traits self).
End EvolutionPath.

(* ===================================================================== *)
(** * evolution.py: [GeneticsSystem] *)
(* ===================================================================== *)

Module GeneticsSystem.
Import Random.

Record t : Type := mk { mutation_rate : float }.

(** The nested function [average_stat] of [_inherit_stats].  Python
    reads [-avg // 10] as [(-avg) // 10]. *)
Definition average_stat (stat1 stat2 : Z) : Gen Z :=
  let avg := (stat1 + stat2) / 2 in
  variation ← randint ((- avg) / 10) (avg / 10);
  mret (Z.max 1 (avg + variation)).

(** [GeneticsSystem._inherit_stats]; the keyword arguments are evaluated
    in the order they are written, each with a draw of its own. *)
Definition _inherit_stats (self : t) (parent1 parent2 : Creature.t) : Gen Stats :=
  let p1_stats := Creature.base_stats parent1 in
  let p2_stats := Creature.base_stats parent2 in
  max_hp' ← average_stat (max_hp p1_stats) (max_hp p2_stats);
  hp' ← average_stat (max_hp p1_stats) (max_hp p2_stats);
  attack' ← average_stat (attack p1_stats) (attack p2_stats);
  defense' ← average_stat (defense p1_stats) (defense p2_stats);
  speed' ← average_stat (speed p1_stats) (speed p2_stats);
  special_attack' ← average_stat (special_attack p1_stats)
                                 (special_attack p2_stats);
  special_defense' ← average_stat (special_defense p1_stats)
                                  (special_defense p2_stats);
  mret (Stats_init hp' max_hp' attack' defense' speed'
                   special_attack' special_defense').

(** [GeneticsSystem._mutate_trait] *)
Definition _mutate_trait (self : t) (trait : Trait.t) : Gen Trait.t :=
  (* Mutation: slightly adjust modifier values *)
  mutation_factor ← uniform f0_9 f1_1;
  mret (Trait.mk
          (Trait.name trait +:+ " (Mutated)")
          (Trait.description trait +:+ " - Mutated variant")
          (Trait.trait_type trait)
          (fmul (Trait.strength_modifier trait) mutation_factor)
          (fmul (Trait.speed_modifier trait) mutation_factor)
          (fmul (Trait.defense_modifier trait) mutation_factor)
          (Trait.rarity trait)).

(** The first loop of [_inherit_traits]: each trait is kept with
    probability one half, and a kept trait is mutated with probability
    [mutation_rate]. *)
Fixpoint inherit_each (self : t) (all_parent_traits : list Trait.t)
                      (inherited : list Trait.t) : Gen (list Trait.t) :=
  match all_parent_traits with
  | [] => mret inherited
  | trait :: rest =>
      keep ← random;
      if fltb keep f0_5 then
        mutate ← random;
        if fltb mutate (mutation_rate self) then
          mutated_trait ← _mutate_trait self trait;
          inherit_each self rest (inherited ++ [mutated_trait])
        else inherit_each self rest (inherited ++ [trait])
      else inherit_each self rest inherited
  end.

(** The second loop: remove duplicates by name, keeping the first. *)
Fixpoint unique_by_name (inherited : list Trait.t) (seen : gset string)
                        (unique_traits : list Trait.t) : list Trait.t :=
  match inherited with
  | [] => unique_traits
  | trait :: rest =>
      if bool_decide (Trait.name trait ∈ seen)
      then unique_by_name rest seen unique_traits
      else unique_by_name rest ({[Trait.name trait]} ∪ seen)
                          (unique_traits ++ [trait])
  end.

(** [GeneticsSystem._inherit_traits] *)
Definition _inherit_traits (self : t) (parent1 parent2 : Creature.t)
  : Gen (list Trait.t) :=
  let all_parent_traits := Creature.traits parent1 ++ Creature.traits parent2 in
  inherited ← inherit_each self all_parent_traits [];
  mret (unique_by_name inherited ∅ []).

Section Breed.
(** The constructor [Creature(name=, creature_type=, level=,
    base_stats=, traits=)] of [models/creature.py] is not among the
    sources; [breed] is stated for any constructor. *)
Variable Creature_init :
  string -> CreatureType.t -> Z -> Stats -> list Trait.t -> Creature.t.

(** [GeneticsSystem.breed] *)
Definition breed (self : t) (parent1 parent2 : Creature.t)
                 (offspring_name : string) : Gen Creature.t :=
  (* Determine offspring type (inherit from one parent randomly) *)
  offspring_type ← choice [Creature.creature_type parent1;
                           Creature.creature_type parent2];
  (* Calculate inherited stats (average of parents with some variation) *)
  inherited_stats ← _inherit_stats self parent1 parent2;
  (* Inherit and possibly mutate traits *)
  inherited_traits ← _inherit_traits self parent1 parent2;
  (* Create offspring at level 1 *)
  mret (Creature_init offspring_name offspring_type 1 inherited_stats
                      inherited_traits).
End Breed.

End GeneticsSystem.

(* ===================================================================== *)
(** * evolution.py: [EvolutionSystem] *)
(* ===================================================================== *)

Module EvolutionSystem.

Record t : Type := mk {
  evolution_paths : list EvolutionPath.t;
  creature_types : gmap string CreatureType.t
}.

(** [EvolutionSystem()] *)
Definition init : t := mk [] ∅.

(** [register_creature_type] *)
Definition register_creature_type (self : t) (creature_type : CreatureType.t) : t :=
  mk (evolution_paths self)
     (<[CreatureType.name creature_type := creature_type]> (creature_types self)).

(** [add_evolution_path] *)
Definition add_evolution_path (self : t) (evolution_path : EvolutionPath.t) : t :=
  mk (evolution_paths self ++ [evolution_path]) (creature_types self).

(** [get_available_evolutions] *)
Definition get_available_evolutions (self : t) (creature : Creature.t)
  : list EvolutionPath.t :=
  List.filter (fun path => EvolutionPath.can_evolve path creature)
              (evolution_paths self).

(** [can_evolve] *)
Definition can_evolve (self : t) (creature : Creature.t) : bool :=
  (0 <? length (get_available_evolutions self creature))%nat.

Section Evolve.
(** [Creature.get_effective_stats] of [models/creature.py] is not among
    the sources; [evolve] is stated for any such method.  It reads the
    creature and returns a [Stats] or raises. *)
Variable get_effective_stats : Creature.t -> result Stats.

(** [EvolutionSystem.evolve].  The creature is mutated in place: the
    result is the creature after the call, with what the call returned
    or raised. *)
Definition evolve (self : t) (creature : Creature.t)
                  (evolution_path : option EvolutionPath.t)
  : Creature.t * result (bool * string) :=
  (* Get available paths if none specified *)
  let chosen :=
    match evolution_path with
    | None =>
        let available := get_available_evolutions self creature in
        match available with
        | [] => inl (false, "No evolution paths available")
        | first :: _ => inr first  (* Use first available *)
        end
    | Some evolution_path => inr evolution_path
    end in
  match chosen with
  | inl returned => (creature, Ok returned)
  | inr evolution_path =>
      (* Check if path is valid for this creature *)
      if negb (EvolutionPath.can_evolve evolution_path creature)
      then (creature, Ok (false, "Evolution conditions not met"))
      else
        (* Get the target type *)
        let target_type_name := EvolutionPath.to_type evolution_path in
        match creature_types self !! target_type_name with
        | None =>
            (creature,
             Ok (false, "Target type '" +:+ target_type_name +:+ "' not found"))
        | Some target_type =>
            (* Perform evolution *)
            let old_name := CreatureType.name (Creature.creature_type creature) in
            let creature := Creature.set_creature_type target_type creature in
            (* Recalculate stats for evolved form *)
            match calculate_stats_at_level
                    (CreatureType.stat_growth target_type)
                    (CreatureType.base_stats target_type)
                    (Creature.level creature) with
            | Raise e => (creature, Raise e)
            | Ok new_base_stats =>
                let creature := Creature.set_base_stats new_base_stats creature in
                match get_effective_stats creature with
                | Raise e => (creature, Raise e)
                | Ok effective =>
                    let creature := Creature.set_stats effective creature in
                    (* Fully heal on evolution *)
                    let creature :=
                      Creature.set_stats
                        (set_hp (max_hp (Creature.stats creature))
                                (Creature.stats creature)) creature in
                    let creature :=
                      Creature.set_energy (Creature.max_energy creature)
                                          creature in
                    (creature,
                     Ok (true, "Evolved from " +:+ old_name +:+ " to "
                                 +:+ CreatureType.name target_type +:+ "!"))
                end
            end
        end
  end.
End Evolve.

End EvolutionSystem.

(** The path [evolve] works with: the one supplied, or the first
    registered path the creature qualifies for. *)
Definition uses_path (self : EvolutionSystem.t) (creature : Creature.t)
           (arg : option EvolutionPath.t) (path : EvolutionPath.t) : Prop :=
  arg = Some path \/
  (arg = None /\
   exists rest, EvolutionSystem.get_available_evolutions self creature
                = path :: rest).

(* ===================================================================== *)
(** * Example data *)
(* ===================================================================== *)

(** A creature at 80 of 100 hp with attack 1. *)
Definition wounded : Stats := Stats_init 80 100 1 10 10 10 10.

Definition wounded_store : store := {[ 0%nat := wounded ]}.


(** The default growth rates of [StatGrowth] with a chosen curve. *)
Definition default_growth (curve : string) : StatGrowth :=
  mkStatGrowth (literal 10 1) f2_0 f2_0 f1_5 f2_0 f2_0 curve.

(** A profile whose attack grows by half a point per level. *)
Definition slow_attack_growth (curve : string) : StatGrowth :=
  mkStatGrowth (literal 10 1) f0_5 f2_0 f1_5 f2_0 f2_0 curve.

(** The default [Stats()]. *)
Definition default_stats : Stats := Stats_init 100 100 10 10 10 10 10.

(** [create_example_evolution_system] of evolution.py. *)
Definition base_type : CreatureType.t :=
  CreatureType.mk "Newborn" "A newly hatched creature"
    (Stats_init 80 80 8 8 10 10 10)
    (mkStatGrowth (literal 12 1) f2_0 f2_0 f1_5 f2_0 f2_0 "medium_fast")
    ["normal"] 0.

Definition warrior_type : CreatureType.t :=
  CreatureType.mk "Warrior" "A creature that evolved focusing on strength"
    (Stats_init 100 100 15 12 8 10 10)
    (mkStatGrowth (literal 15 1) (literal 35 10) (literal 25 10) f1_0
                  f2_0 f2_0 "medium_fast")
    ["normal"; "fighter"] 1.

Definition speedster_type : CreatureType.t :=
  CreatureType.mk "Speedster" "A creature that evolved focusing on speed"
    (Stats_init 90 90 12 8 18 10 10)
    (mkStatGrowth (literal 12 1) (literal 25 10) f1_5 (literal 3 1)
                  f2_0 f2_0 "medium_fast")
    ["normal"; "swift"] 1.

Definition to_warrior : EvolutionPath.t :=
  EvolutionPath.mk "Newborn" "Warrior" 10 [] [("evolution_type", "strength")].

Definition to_speedster : EvolutionPath.t :=
  EvolutionPath.mk "Newborn" "Speedster" 10 [] [("evolution_type", "speed")].

Definition create_example_evolution_system : EvolutionSystem.t :=
  let system := EvolutionSystem.init in
  let system := EvolutionSystem.register_creature_type system base_type in
  let system := EvolutionSystem.register_creature_type system warrior_type in
  let system := EvolutionSystem.register_creature_type system speedster_type in
  let system := EvolutionSystem.add_evolution_path system to_warrior in
  let system := EvolutionSystem.add_evolution_path system to_speedster in
  system.

(** A creature of a species at a level, at its species' base stats, hurt
    and tired, with no traits and no modifiers. *)
Definition creature_of (species : CreatureType.t) (level : Z) : Creature.t :=
  Creature.mk "Test" species level
    (CreatureType.base_stats species)
    (set_hp 5 (CreatureType.base_stats species)) [] [] 30 100.

(** Effective stats of a creature without traits and modifiers: a copy
    of its base stats. *)
Definition effective_is_base (c : Creature.t) : result Stats :=
  Ok (Creature.base_stats c).

(** A path whose target species nobody registered. *)
Definition to_nowhere : EvolutionPath.t :=
  EvolutionPath.mk "Newborn" "Dragon" 10 [] [].

(** Two parents whose attack is 15, with max hp 100 and 120. *)
Definition parent_a : Creature.t :=
  Creature.mk "P1" base_type 1 (Stats_init 100 100 15 15 10 10 10)
              (Stats_init 100 100 15 15 10 10 10) [] [] 100 100.

Definition parent_b : Creature.t :=
  Creature.mk "P2" base_type 1 (Stats_init 120 120 15 20 10 10 10)
              (Stats_init 120 120 15 20 10 10 10) [] [] 100 100.

(** An entropy source whose raw integers are all 0, and one whose raw
    integer at position [i] is [r] and 0 elsewhere. *)
Definition zeros : Random.source := Random.mkSource (fun _ => 0) 0.

Definition spike (i : nat) (r : Z) : Random.source :=
  Random.mkSource (fun j => if Nat.eqb j i then r else 0) 0.

Definition swift : Trait.t :=
  Trait.mk "Swift" "Moves fast" "physical" f1_0 f1_2 f1_0 "common".

(* ===================================================================== *)
(** * Round to nearest, in closed form *)
(* ===================================================================== *)

(** The record after shifting [M] right by [k] bits: the quotient, and
    where the remainder lies relative to one half. *)
Definition shifted (M : Z) (k : nat) : shr_record :=
  let p := 2 ^ Z.of_nat k in
  {| shr_m := M / p;
     shr_r := p <=? 2 * (M mod p);
     shr_s := negb ((M mod p =? 0) || (2 * (M mod p) =? p)) |}.

(** [M / 2^k] rounded to the nearest integer, ties to even. *)
Definition rne (M : Z) (k : nat) : Z :=
  let p := 2 ^ Z.of_nat k in
  let q := M / p in
  let rem := M mod p in
  if 2 * rem <? p then q
  else if p <? 2 * rem then q + 1
  else if Z.even q then q else q + 1.

(** The exponent binary64 gives a number of [d] significant bits at
    exponent [e]. *)
Definition target_exponent (M : positive) (E : Z) : Z :=
  Z.max (Zpos (digits2_pos M) + E - 53) (-1074).

(** The float with significand [q <= 2^53] at exponent [e]. *)
Definition finish (s : bool) (q e : Z) : float :=
  if q =? 0 then S754_zero s
  else if q =? 2 ^ 53 then
    if e + 1 <=? 971 then S754_finite s (Z.to_pos (2 ^ 52)) (e + 1)
    else S754_infinity s
  else if e <=? 971 then S754_finite s (Z.to_pos q) e
  else S754_infinity s.

(** Position of a non-negative float among the non-negative floats,
    infinity last. *)
Definition raw_ord (q e : Z) : Z := (e + 1074) * 2 ^ 52 + q.

Definition top_ord : Z := raw_ord (2 ^ 52) 972.

Definition ford (x : float) : Z :=
  match x with
  | S754_zero _ => 0
  | S754_finite _ m e => raw_ord (Zpos m) e
  | S754_infinity _ => top_ord
  | S754_nan => -1
  end.

(** Non-negative results of rounding: zero, infinity, or a significand
    below 2^53 that fills all 53 bits above the least exponent. *)
Definition canonical_nonneg (x : float) : Prop :=
  match x with
  | S754_zero s => s = false
  | S754_infinity s => s = false
  | S754_nan => False
  | S754_finite s m e =>
      s = false /\ -1074 <= e <= 971 /\ Zpos m < 2 ^ 53 /\
      (-1074 < e -> 2 ^ 52 <= Zpos m)
  end.

(** What rounding may hand to [finish]. *)
Definition rounded_ok (q e : Z) : Prop :=
  0 <= q <= 2 ^ 53 /\ -1074 <= e /\ (-1074 < e -> 2 ^ 52 <= q).

(** The float nearest to [N * 2^E0]. *)
Definition round_at (s : bool) (N : positive) (E0 : Z) : float :=
  finish s (rne (Zpos N) (Z.to_nat (target_exponent N E0 - E0)))
         (target_exponent N E0).

(** A common exponent below every product of two binary64 floats, and a
    finite float as an integer multiple of [2^base]. *)
Definition base : Z := -2148.

Definition value (x : float) : Z :=
  match x with
  | S754_finite _ m e => Zpos m * 2 ^ (e - base)
  | _ => 0
  end.

(** The float nearest to [v * 2^base], for [v >= 0]. *)
Definition round_val (v : Z) : float :=
  match v with
  | Zpos N => round_at false N base
  | _ => S754_zero false
  end.

(** Non-negative and finite. *)
Definition finite_nonneg (x : float) : Prop :=
  canonical_nonneg x /\ is_finite x = true.

(** The exact product of two finite floats, as a multiple of [2^base]. *)
Definition product_value (x y : float) : Z :=
  match x, y with
  | S754_finite _ mx ex, S754_finite _ my ey =>
      Zpos mx * Zpos my * 2 ^ (ex + ey - base)
  | _, _ => 0
  end.

(** A valid binary64 number that is finite and not negative. *)
Definition is_nonneg_finite (x : float) : bool :=
  match x with
  | S754_zero s => negb s
  | S754_finite s m e => negb s && bounded prec emax m e
  | _ => false
  end.

(* ===================================================================== *)
(** * stats.py: the remaining methods *)
(* ===================================================================== *)

(** [Stats.heal] *)
Definition heal (self : ref) (amount : Z) : M Z :=
  old_hp ← getattr self hp;
  h ← getattr self hp;
  mh ← getattr self max_hp;
  setattr self set_hp (Z.min (h + amount) mh);;
  h' ← getattr self hp;
  mret (h' - old_hp).

(** Stats as the constructor leaves them and as the spec's data model
    has them: [0 <= hp <= max_hp]. *)
Definition hp_in_range (s : Stats) : Prop := 0 <= hp s <= max_hp s.

(** Assignment [modifier.duration = v]. *)
Definition set_duration (v : Z) (m : StatModifier) : StatModifier :=
  mkStatModifier (modifier_name m) v
    (attack_multiplier m) (attack_bonus m)
    (defense_multiplier m) (defense_bonus m)
    (speed_multiplier m) (speed_bonus m)
    (special_attack_multiplier m) (special_attack_bonus m)
    (special_defense_multiplier m) (special_defense_bonus m)
    (max_hp_multiplier m) (max_hp_bonus m).

(** [StatModifier.is_expired] *)
Definition is_expired (self : StatModifier) : bool := duration self =? 0.

(** [StatModifier.tick]: the modifier after the call. *)
Definition tick (self : StatModifier) : StatModifier :=
  if 0 <? duration self then set_duration (duration self - 1) self else self.

(** [StatModifier()] with its default arguments and a duration. *)
Definition default_modifier (duration : Z) : StatModifier :=
  mkStatModifier "Modifier" duration f1_0 0 f1_0 0 f1_0 0 f1_0 0 f1_0 0 f1_0 0.

(** Values that are not negative and that a float holds exactly. *)
Definition small_nonneg (n : Z) : bool := (0 <=? n) && (n <? 2 ^ 53).

Definition small_nonneg_stats (s : Stats) : bool :=
  small_nonneg (max_hp s) && small_nonneg (attack s) &&
  small_nonneg (defense s) && small_nonneg (speed s) &&
  small_nonneg (special_attack s) && small_nonneg (special_defense s).

(** Growth rates that are finite and not negative, and base stats that
    are not negative. *)
Definition nonneg_rates (g : StatGrowth) : bool :=
  is_nonneg_finite (hp_growth g) && is_nonneg_finite (attack_growth g) &&
  is_nonneg_finite (defense_growth g) && is_nonneg_finite (speed_growth g) &&
  is_nonneg_finite (special_attack_growth g) &&
  is_nonneg_finite (special_defense_growth g).

Definition nonneg_stats (s : Stats) : bool :=
  (0 <=? max_hp s) && (0 <=? attack s) && (0 <=? defense s) &&
  (0 <=? speed s) && (0 <=? special_attack s) && (0 <=? special_defense s).

(** Every stat of [t1] is at most the stat of [t2]. *)
Definition stats_le (t1 t2 : Stats) : Prop :=
  hp t1 <= hp t2 /\ max_hp t1 <= max_hp t2 /\ attack t1 <= attack t2 /\
  defense t1 <= defense t2 /\ speed t1 <= speed t2 /\
  special_attack t1 <= special_attack t2 /\
  special_defense t1 <= special_defense t2.

(* ===================================================================== *)
(** * stats.py: [Stats] as a dictionary *)
(* ===================================================================== *)

(** [Stats.to_dict]: a dict from field names to the field values. *)
Definition Stats_to_dict (self : Stats) : gmap string Z :=
  <["hp" := hp self]> (<["max_hp" := max_hp self]>
    (<["attack" := attack self]> (<["defense" := defense self]>
      (<["speed" := speed self]>
        (<["special_attack" := special_attack self]>
          (<["special_defense" := special_defense self]> ∅)))))).

(** What a call of the constructor with a dict as keyword arguments
    gives: the object, or [TypeError] for a keyword that is no field of
    the class. *)
Inductive constructed (A : Type) : Type :=
  | Built (a : A)
  | TypeError.
Arguments Built {A} a.
Arguments TypeError {A}.

Definition Stats_fields : list string :=
  ["hp"; "max_hp"; "attack"; "defense"; "speed"; "special_attack";
   "special_defense"].

(** [Stats.from_dict], the constructor called with [data] as keyword
    arguments, for a dict from strings to ints: a field without an entry
    takes its default, and [__post_init__] caps hp. *)
Definition Stats_from_dict (data : gmap string Z) : constructed Stats :=
  if forallb (fun k => bool_decide (k ∈ Stats_fields))
             (map fst (map_to_list data))
  then Built (Stats_init (default 100 (data !! "hp"))
                         (default 100 (data !! "max_hp"))
                         (default 10 (data !! "attack"))
                         (default 10 (data !! "defense"))
                         (default 10 (data !! "speed"))
                         (default 10 (data !! "special_attack"))
                         (default 10 (data !! "special_defense")))
  else TypeError.

(* ===================================================================== *)
(** * evolution.py: the registry *)
(* ===================================================================== *)

(** Every species is registered under its own name, as
    [register_creature_type] does it. *)
Definition names_agree (self : EvolutionSystem.t) : Prop :=
  forall key creature_type,
    EvolutionSystem.creature_types self !! key = Some creature_type ->
    CreatureType.name creature_type = key.

(** The registered paths before the first one the creature qualifies
    for, that path, and the paths after it. *)
Definition first_qualifying (self : EvolutionSystem.t) (creature : Creature.t)
           (path : EvolutionPath.t) : Prop :=
  exists before after,
    EvolutionSystem.evolution_paths self = before ++ path :: after /\
    Forall (fun p => EvolutionPath.can_evolve p creature = false) before /\
    EvolutionPath.can_evolve path creature = true.

(* ===================================================================== *)
(** * evolution.py: what breeding hands down *)
(* ===================================================================== *)

(** The values [average_stat] can return for an average [avg]: the
    average plus a draw from [(-avg) // 10 .. avg // 10], and at least
    1. *)
Definition in_variation (avg v : Z) : Prop :=
  exists variation,
    (- avg) / 10 <= variation <= avg / 10 /\ v = Z.max 1 (avg + variation).

(** The random source after [n] more draws. *)
Definition advanced (n : nat) (g : Random.source) : Random.source :=
  Random.mkSource (Random.entropy g) (n + Random.position g).

(** A source whose every raw integer is [r]. *)
Definition constant_source (r : Z) : Random.source :=
  Random.mkSource (fun _ => r) 0.

(** [tr] is the trait [t], or what [_mutate_trait] makes of [t]. *)
Definition inherited_from (t tr : Trait.t) : Prop :=
  tr = t \/
  (Trait.name tr = Trait.name t +:+ " (Mutated)" /\
   Trait.description tr = Trait.description t +:+ " - Mutated variant" /\
   Trait.trait_type tr = Trait.trait_type t /\
   Trait.rarity tr = Trait.rarity t).

(** Two parents with a trait each. *)
Definition mother : Creature.t :=
  Creature.mk "Mother" base_type 5 (Stats_init 100 100 15 15 10 10 10)
              (Stats_init 100 100 15 15 10 10 10) [swift] [] 100 100.

Definition father : Creature.t :=
  Creature.mk "Father" warrior_type 7 (Stats_init 120 120 15 20 10 10 10)
              (Stats_init 60 120 15 20 10 10 10) [swift] [] 100 100.

(** A mutation rate of 1.0 or more, infinity included. *)
Definition at_least_one (rate : float) : Prop :=
  canonical_nonneg rate /\ ford f1_0 <= ford rate.

(** The largest value [random()] returns, [1 - 2^-53]. *)
Definition largest_draw : float :=
  Eval vm_compute in binary_normalize prec emax (2 ^ 53 - 1) (-53) false.

(** A multiplier of 1.0 or more that is finite. *)
Definition raising (multiplier : float) : Prop :=
  finite_nonneg multiplier /\ value f1_0 <= value multiplier.

(** [StatGrowth] with another curve tag. *)
Definition with_curve (curve : string) (g : StatGrowth) : StatGrowth :=
  mkStatGrowth (hp_growth g) (attack_growth g) (defense_growth g)
               (speed_growth g) (special_attack_growth g)
               (special_defense_growth g) curve.

(** Doubles attack and adds 3. *)
Definition buff : StatModifier :=
  mkStatModifier "Rage" 3 f2_0 3 f1_0 0 f1_0 0 f1_0 0 f1_0 0 f1_0 0.

(** A species whose base max hp is too large for a float, registered in
    the example system with a path from "Newborn". *)
Definition giant_type : CreatureType.t :=
  CreatureType.mk "Giant" "Too large to compute with"
    (Stats_init (2 ^ 1024) (2 ^ 1024) 10 10 10 10 10)
    (default_growth "medium_fast") ["normal"] 1.

Definition to_giant : EvolutionPath.t :=
  EvolutionPath.mk "Newborn" "Giant" 10 [] [].

Definition system_with_giant : EvolutionSystem.t :=
  EvolutionSystem.add_evolution_path
    (EvolutionSystem.register_creature_type create_example_evolution_system
                                            giant_type) to_giant.

(** Stats without max hp, which a +50 bonus revives. *)
Definition hollow : Stats := Stats_init 0 0 10 10 10 10 10.

Definition revive : StatModifier :=
  mkStatModifier "Revive" (-1) f1_0 0 f1_0 0 f1_0 0 f1_0 0 f1_0 0 f1_0 50.

(** A system in which the first path registered for "Newborn" leads to
    a species nobody registered, and the second to "Warrior". *)
Definition detour_system : EvolutionSystem.t :=
  EvolutionSystem.add_evolution_path
    (EvolutionSystem.add_evolution_path
       (EvolutionSystem.register_creature_type
          (EvolutionSystem.register_creature_type EvolutionSystem.init
                                                  base_type)
          warrior_type)
       to_nowhere)
    to_warrior.

(** The float literals [2.5] and [3.0]. *)
Definition f2_5 : float := Eval vm_compute in literal 5 2.
Definition f3_0 : float := Eval vm_compute in literal 3 1.
(* ===================================================================== *)
(** * Running store computations *)
(* ===================================================================== *)

Section StoreSteps.
Context {A B : Type}.

Lemma run_getattr (r : ref) (f : Stats -> A) (k : A -> M B) (σ : store) s :
  σ !! r = Some s -> (getattr r f ≫= k) σ = k (f s) σ.
Proof. intros H. unfold mbind, M_bind, getattr. by rewrite H. Qed.

Lemma run_setattr (r : ref) set v (k : unit -> M B) (σ : store) s :
  σ !! r = Some s -> (setattr r set v ≫= k) σ = k tt (<[r := set v s]> σ).
Proof. intros H. unfold mbind, M_bind, setattr. by rewrite H. Qed.

Lemma run_alloc (s : Stats) (k : ref -> M B) (σ : store) :
  (alloc s ≫= k) σ = k (fresh (dom σ)) (<[fresh (dom σ) := s]> σ).
Proof. reflexivity. Qed.

Lemma run_lift_Ok (a : A) (k : A -> M B) (σ : store) :
  (lift (Ok a) ≫= k) σ = k a σ.
Proof. reflexivity. Qed.

Lemma run_lift_Raise e (k : A -> M B) (σ : store) :
  (lift (Raise e) ≫= k) σ = (Raise e, σ).
Proof. reflexivity. Qed.

Lemma run_mret (a : A) (k : A -> M B) (σ : store) :
  (mret a ≫= k) σ = k a σ.
Proof. reflexivity. Qed.
End StoreSteps.

Lemma run_assoc {A B C : Type} (m : M A) (f : A -> M B) (g : B -> M C)
      (σ : store) :
  ((m ≫= f) ≫= g) σ = (m ≫= fun x => f x ≫= g) σ.
Proof. unfold mbind, M_bind. by destruct (m σ) as [[a|e] σ']. Qed.

Lemma fresh_unused (σ : store) : σ !! fresh (dom σ) = None.
Proof. apply not_elem_of_dom, is_fresh. Qed.

Lemma fresh_differs (σ : store) r s : σ !! r = Some s -> fresh (dom σ) ≠ r.
Proof. intros H E. rewrite <- E, fresh_unused in H. discriminate. Qed.

Lemma run_copy {B : Type} (self : ref) (k : ref -> M B) (σ : store) s :
  σ !! self = Some s ->
  (copy self ≫= k) σ =
  k (fresh (dom σ))
    (<[fresh (dom σ) := Stats_init (hp s) (max_hp s) (attack s) (defense s)
                          (speed s) (special_attack s) (special_defense s)]> σ).
Proof.
  intros H. unfold copy.
  change ((?m ≫= k) σ) with (match m σ with
                              | (Ok a, σ') => k a σ'
                              | (Raise e, σ') => (Raise e, σ')
                              end).
  repeat (rewrite (run_getattr _ _ _ _ _ H); cbv beta).
  reflexivity.
Qed.

(* ===================================================================== *)
(** * Stats.take_damage *)
(* ===================================================================== *)

Lemma take_damage_run (σ : store) self s amount :
  σ !! self = Some s ->
  take_damage self amount σ =
  (Ok (hp s - Z.max 0 (hp s - amount)),
   <[self := set_hp (Z.max 0 (hp s - amount)) s]> σ).
Proof.
  intros H. unfold take_damage.
  rewrite (run_getattr _ _ _ _ _ H), (run_getattr _ _ _ _ _ H).
  rewrite (run_setattr _ _ _ _ _ _ H).
  erewrite run_getattr by apply lookup_insert_eq.
  reflexivity.
Qed.

(** C7. For an object [self] holding the stats [s] and every amount >= 0,
    [take_damage] returns [min amount hp], leaves [hp - returned] as the
    new hp and changes no other field; the returned damage plus the
    remaining hp is the original hp, and the remaining hp is not
    negative. *)
Theorem take_damage_clamps (σ : store) (self : ref) (s : Stats) (amount : Z) :
  σ !! self = Some s ->
  0 <= amount ->
  exists σ' s',
    take_damage self amount σ = (Ok (Z.min amount (hp s)), σ') /\
    σ' !! self = Some s' /\
    s' = set_hp (hp s') s /\
    Z.min amount (hp s) + hp s' = hp s /\
    0 <= hp s' /\
    (forall r, r ≠ self -> σ' !! r = σ !! r).
Proof.
  intros H Hamount.
  exists (<[self := set_hp (Z.max 0 (hp s - amount)) s]> σ),
         (set_hp (Z.max 0 (hp s - amount)) s).
  rewrite (take_damage_run _ _ _ _ H). simpl.
  split; [do 2 f_equal; lia|].
  split; [apply lookup_insert_eq|].
  split; [reflexivity|].
  split; [lia|].
  split; [lia|].
  intros r Hr. by apply lookup_insert_ne.
Qed.

Lemma take_damage_clamps_witness :
  exists σ' s',
    take_damage 0%nat 30 {[ 0%nat := Stats_init 20 100 10 10 10 10 10 ]}
      = (Ok (Z.min 30 20), σ') /\
    σ' !! 0%nat = Some s' /\
    s' = set_hp (hp s') (Stats_init 20 100 10 10 10 10 10) /\
    Z.min 30 20 + hp s' = 20 /\
    0 <= hp s' /\
    (forall r, r ≠ 0%nat ->
       σ' !! r = ({[ 0%nat := Stats_init 20 100 10 10 10 10 10 ]} : store) !! r).
Proof.
  apply (take_damage_clamps
           {[ 0%nat := Stats_init 20 100 10 10 10 10 10 ]} 0%nat
           (Stats_init 20 100 10 10 10 10 10) 30).
  - reflexivity.
  - lia.
Defined.

(* ===================================================================== *)
(** * Stats.apply_modifier *)
(* ===================================================================== *)

Lemma result_bind_Ok {A B : Type} (a : A) (k : A -> result B) :
  (Ok a ≫= k) = k a.
Proof. reflexivity. Qed.

Lemma result_bind_Raise {A B : Type} e (k : A -> result B) :
  (Raise e ≫= k) = Raise e.
Proof. reflexivity. Qed.

(** One statement [modified.f = int(modified.f * mult + bonus)]. *)
Lemma run_assign_scaled {B : Type} (r : ref) (get : Stats -> Z) set mult bonus
      (k : M B) (τ : store) t :
  τ !! r = Some t ->
  (a ← getattr r get; v ← lift (scaled a mult bonus); setattr r set v;; k) τ =
  match scaled (get t) mult bonus with
  | Ok v => k (<[r := set v t]> τ)
  | Raise e => (Raise e, τ)
  end.
Proof.
  intros H. rewrite (run_getattr _ _ _ _ _ H).
  destruct (scaled (get t) mult bonus) as [v|e].
  - rewrite run_lift_Ok. by rewrite (run_setattr _ _ _ _ _ _ H).
  - by rewrite run_lift_Raise.
Qed.

(** The run stops at a raised exception, leaving some object at the
    fresh reference. *)
Ltac raised := eexists; split; [reflexivity | intros ?; discriminate].

(** Run one scaling assignment and split on whether it raises. *)
Ltac assign_step :=
  erewrite run_assign_scaled by apply lookup_insert_eq;
  rewrite ?insert_insert_eq;
  cbn [attack defense speed special_attack special_defense max_hp
       set_attack set_defense set_speed set_special_attack
       set_special_defense set_max_hp Stats_init];
  match goal with
  | |- context [scaled ?a ?b ?c] =>
      destruct (scaled a b c) eqn:?;
      rewrite ?result_bind_Ok, ?result_bind_Raise;
      [rewrite insert_insert_eq | raised]
  end.

Lemma apply_modifier_run (σ : store) self s m :
  σ !! self = Some s ->
  exists t',
    apply_modifier self m σ =
    (match modified_value s m with
     | Ok _ => Ok (fresh (dom σ))
     | Raise e => Raise e
     end, <[fresh (dom σ) := t']> σ) /\
    (forall t, modified_value s m = Ok t -> t' = t).
Proof.
  intros H. unfold apply_modifier, modified_value.
  rewrite (run_copy _ _ _ _ H).
  pose proof (fresh_differs _ _ _ H) as Hne.
  set (r := fresh (dom σ)) in *.
  set (c := Stats_init _ _ _ _ _ _ _).
  assert (Hself : forall u, <[r := u]> σ !! self = Some s)
    by (intros u; by rewrite lookup_insert_ne).
  subst c. assign_step.
  do 5 assign_step.
  unfold hp_ratio_of.
  erewrite run_getattr by apply Hself.
  destruct (0 <? max_hp s) eqn:Hpos.
  - rewrite run_assoc. erewrite run_getattr by apply Hself.
    rewrite run_assoc. erewrite run_getattr by apply Hself.
    destruct (int_truediv (hp s) (max_hp s)) as [ratio|e] eqn:Hratio;
      rewrite ?result_bind_Ok, ?result_bind_Raise; [|rewrite run_lift_Raise; raised].
    rewrite run_lift_Ok.
    erewrite run_getattr by apply lookup_insert_eq. cbn [max_hp set_max_hp].
    destruct (int_mul_float a4 ratio) as [p|e] eqn:Hp;
      rewrite ?result_bind_Ok, ?result_bind_Raise; [|rewrite run_lift_Raise; raised].
    destruct (int_of_float p) as [h|e] eqn:Hh;
      [|rewrite run_lift_Raise; raised].
    rewrite run_lift_Ok.
    erewrite run_setattr by apply lookup_insert_eq.
    rewrite insert_insert_eq.
    eexists; split; [reflexivity|]. intros t [= <-]. reflexivity.
  - rewrite run_mret.
    erewrite run_getattr by apply lookup_insert_eq. cbn [max_hp set_max_hp].
    rewrite ?result_bind_Ok, ?result_bind_Raise.
    destruct (int_mul_float a4 f1_0) as [p|e] eqn:Hp;
      rewrite ?result_bind_Ok, ?result_bind_Raise; [|rewrite run_lift_Raise; raised].
    destruct (int_of_float p) as [h|e] eqn:Hh;
      [|rewrite run_lift_Raise; raised].
    rewrite run_lift_Ok.
    erewrite run_setattr by apply lookup_insert_eq.
    rewrite insert_insert_eq.
    eexists; split; [reflexivity|]. intros t [= <-]. reflexivity.
Qed.











(* ===================================================================== *)
(** * Facts about binary64 conversions *)
(* ===================================================================== *)

Section FloatFacts.

Lemma digits2_pos_bounds (p : positive) :
  2 ^ (Zpos (digits2_pos p) - 1) <= Zpos p < 2 ^ Zpos (digits2_pos p).
Proof.
  induction p as [p IH|p IH|]; cbn [digits2_pos].
  - rewrite Pos2Z.inj_succ.
    replace (Z.succ (Zpos (digits2_pos p)) - 1) with (Zpos (digits2_pos p)) by lia.
    rewrite Z.pow_succ_r by lia.
    assert (2 ^ Zpos (digits2_pos p) = 2 * 2 ^ (Zpos (digits2_pos p) - 1)) as E
      by (rewrite <- Z.pow_succ_r by lia; f_equal; lia).
    lia.
  - rewrite Pos2Z.inj_succ.
    replace (Z.succ (Zpos (digits2_pos p)) - 1) with (Zpos (digits2_pos p)) by lia.
    rewrite Z.pow_succ_r by lia.
    assert (2 ^ Zpos (digits2_pos p) = 2 * 2 ^ (Zpos (digits2_pos p) - 1)) as E
      by (rewrite <- Z.pow_succ_r by lia; f_equal; lia).
    lia.
  - simpl. lia.
Qed.

Lemma digits2_pos_small (p : positive) :
  Zpos p < 2 ^ 53 -> Zpos (digits2_pos p) <= 53.
Proof.
  intros Hp. pose proof (digits2_pos_bounds p) as [Hlo _].
  destruct (Z_le_gt_dec (Zpos (digits2_pos p)) 53) as [|Hgt]; [assumption|].
  assert (2 ^ 53 <= 2 ^ (Zpos (digits2_pos p) - 1))
    by (apply Z.pow_le_mono_r; lia).
  lia.
Qed.

Lemma digits2_pos_shift (p k : positive) :
  digits2_pos (Pos.iter xO p k) = (digits2_pos p + k)%positive.
Proof.
  induction k as [|k IH] using Pos.peano_ind.
  - simpl. lia.
  - rewrite Pos.iter_succ. cbn [digits2_pos]. rewrite IH. lia.
Qed.

Lemma Zpos_shift (p k : positive) :
  Zpos (Pos.iter xO p k) = Zpos p * 2 ^ Zpos k.
Proof.
  induction k as [|k IH] using Pos.peano_ind.
  - simpl. lia.
  - rewrite Pos.iter_succ, Pos2Z.inj_xO, IH, Pos2Z.inj_succ,
      Z.pow_succ_r by lia.
    lia.
Qed.

(** A 53-bit significand with an exponent in range is already rounded. *)
Lemma binary_round_aux_canonical (s : bool) (m : positive) (e : Z) :
  Zpos (digits2_pos m) = 53 ->
  -1074 <= e <= 971 ->
  binary_round_aux prec emax s (Zpos m) e loc_Exact = S754_finite s m e.
Proof.
  intros Hd He.
  assert (Hshift : fexp prec emax (Zdigits2 (Zpos m) + e) - e = 0).
  { unfold fexp, emin, prec, emax, Zdigits2. rewrite Hd. lia. }
  unfold binary_round_aux, shr_fexp.
  cbn [shr_record_of_loc]. rewrite Hshift. cbn [shr shr_m loc_of_shr_record
    round_nearest_even].
  cbn [shr_record_of_loc]. rewrite Hshift. cbn [shr shr_m].
  replace (e <=? emax - prec) with true; [reflexivity|].
  symmetry. apply Z.leb_le. unfold emax, prec. lia.
Qed.

(** Integers below 2^53 convert to a float without rounding. *)
Lemma binary_round_small (s : bool) (p : positive) :
  Zpos p < 2 ^ 53 ->
  exists m e,
    binary_round prec emax s p 0 = S754_finite s m e /\
    -52 <= e <= 0 /\ Zpos m = Zpos p * 2 ^ (- e).
Proof.
  intros Hp. pose proof (digits2_pos_small p Hp) as Hd.
  unfold binary_round.
  assert (Hf : fexp prec emax (Zpos (digits2_pos p) + 0)
               = Zpos (digits2_pos p) - 53).
  { unfold fexp, emin, prec, emax. lia. }
  rewrite Hf. unfold shl_align.
  destruct (Zpos (digits2_pos p) - 53 - 0) as [|k|k] eqn:Hk; try lia.
  - exists p, 0. split; [|split; [lia|simpl; lia]].
    apply binary_round_aux_canonical; lia.
  - exists (Pos.iter xO p k), (Zpos (digits2_pos p) - 53).
    split; [|split; [lia|]].
    + apply binary_round_aux_canonical; [|lia].
      rewrite digits2_pos_shift. lia.
    + rewrite Zpos_shift. do 2 f_equal. lia.
Qed.

Lemma int_of_float_scaled (s : bool) (m : positive) (e n : Z) :
  -52 <= e <= 0 -> Zpos m = n * 2 ^ (- e) ->
  int_of_float (S754_finite s m e) = Ok (if s then - n else n).
Proof.
  intros He Hm. unfold int_of_float.
  destruct e as [|k|k]; try lia.
  - rewrite Z.shiftl_0_r. replace n with (Zpos m) by (simpl in Hm; lia).
    reflexivity.
  - rewrite Z.shiftr_div_pow2 by lia.
    replace (- Zneg k) with (Zpos k) in Hm by lia.
    rewrite Hm, Z.div_mul by (apply Z.pow_nonzero; lia).
    reflexivity.
Qed.

(** [int(float(n) + z) = n] for a zero [z] and [|n| < 2^53]. *)
Lemma int_float_roundtrip (n : Z) (z : bool) :
  Z.abs n < 2 ^ 53 ->
  exists x, float_of_int n = Ok x /\
            int_of_float (fadd x (S754_zero z)) = Ok n.
Proof.
  intros Hn. unfold float_of_int, binary_normalize.
  destruct n as [|p|p].
  - exists (S754_zero false). split; [reflexivity|]. by destruct z.
  - destruct (binary_round_small false p) as (m & e & -> & He & Hm); [lia|].
    exists (S754_finite false m e). split; [reflexivity|].
    cbn [fadd SFadd]. by apply (int_of_float_scaled false m e (Zpos p)).
  - destruct (binary_round_small true p) as (m & e & -> & He & Hm); [lia|].
    exists (S754_finite true m e). split; [reflexivity|].
    cbn [fadd SFadd]. by apply (int_of_float_scaled true m e (Zpos p)).
Qed.

(** A finite float times zero is a zero. *)
Lemma fmul_zero_r (x : float) (z : bool) :
  is_finite x = true -> exists z', fmul x (S754_zero z) = S754_zero z'.
Proof. destruct x; intros [=]; eexists; reflexivity. Qed.

Lemma fmul_zero_l (z s : bool) (m : positive) (e : Z) :
  fmul (S754_zero z) (S754_finite s m e) = S754_zero (xorb z s).
Proof. reflexivity. Qed.

End FloatFacts.

(* ===================================================================== *)
(** * Round to nearest on binary64

    What [binary_round_aux] computes, in terms of integer division, and
    that it is monotone. *)
(* ===================================================================== *)

Section ShiftRight.

Lemma iter_pos_nat {A : Type} (f : A -> A) (p : positive) (x : A) :
  SpecFloat.iter_pos f p x = @Nat.iter (Pos.to_nat p) A f x.
Proof.
  revert x. induction p as [p IH|p IH|]; intros x; cbn [SpecFloat.iter_pos].
  - rewrite !IH, Pos2Nat.inj_xI, <- Nat.iter_add.
    replace (S (2 * Pos.to_nat p)) with (S (Pos.to_nat p + Pos.to_nat p)) by lia.
    by rewrite Nat.iter_succ_r.
  - rewrite !IH, Pos2Nat.inj_xO, <- Nat.iter_add.
    by replace (2 * Pos.to_nat p)%nat with (Pos.to_nat p + Pos.to_nat p)%nat by lia.
  - reflexivity.
Qed.

Lemma shifted_0 (M : Z) : shifted M 0 = {| shr_m := M; shr_r := false; shr_s := false |}.
Proof.
  unfold shifted. cbn [Z.of_nat]. rewrite Z.pow_0_r, Z.div_1_r, Z.mod_1_r.
  reflexivity.
Qed.

Lemma shr_1_div2 (m : Z) (r s : bool) :
  0 <= m ->
  shr_1 {| shr_m := m; shr_r := r; shr_s := s |}
  = {| shr_m := m / 2; shr_r := Z.odd m; shr_s := r || s |}.
Proof.
  intros Hm. destruct m as [|p|p]; [reflexivity| |lia].
  destruct p as [p|p|]; cbn [shr_1]; f_equal.
  - rewrite Pos2Z.inj_xI. symmetry.
    replace (2 * Z.pos p + 1) with (1 + Z.pos p * 2) by lia.
    rewrite Z.div_add by lia. reflexivity.
  - rewrite Pos2Z.inj_xO. symmetry.
    replace (2 * Z.pos p) with (Z.pos p * 2) by lia.
    apply Z.div_mul. lia.
Qed.

Lemma shifted_S (M : Z) (k : nat) :
  0 <= M -> shr_1 (shifted M k) = shifted M (S k).
Proof.
  intros HM. unfold shifted. rewrite Nat2Z.inj_succ, Z.pow_succ_r by lia.
  set (p := 2 ^ Z.of_nat k).
  assert (Hp : 0 < p) by (apply Z.pow_pos_nonneg; lia).
  rewrite shr_1_div2 by (apply Z.div_pos; lia).
  pose proof (Z.mod_pos_bound M p Hp) as Hrem.
  assert (Hq : M / (2 * p) = M / p / 2).
  { rewrite (Z.mul_comm 2 p), Z.div_div by lia. reflexivity. }
  assert (Hr : M mod (2 * p) = M mod p + p * (M / p mod 2)).
  { rewrite (Z.mul_comm 2 p). apply Z.rem_mul_r; lia. }
  rewrite Hq, Hr.
  pose proof (Z.mod_pos_bound (M / p) 2 ltac:(lia)) as Hbit.
  rewrite Zodd_mod.
  set (b := M / p mod 2) in *. set (rem := M mod p) in *.
  assert (Hb : b = 0 \/ b = 1) by lia.
  f_equal.
  - destruct Hb as [-> | ->]; cbn [Z.eqb]; symmetry.
    + apply Z.leb_gt. lia.
    + apply Z.leb_le. lia.
  - destruct Hb as [-> | ->];
      destruct (Z.leb_spec p (2 * rem)), (Z.eqb_spec rem 0),
        (Z.eqb_spec (2 * rem) p); cbn [orb negb];
      repeat match goal with
             | |- context [?x =? ?y] => destruct (Z.eqb_spec x y)
             end; cbn [orb negb]; try reflexivity; lia.
Qed.

Lemma iter_shr_1 (M : Z) (k : nat) :
  0 <= M ->
  @Nat.iter k shr_record shr_1 {| shr_m := M; shr_r := false; shr_s := false |}
  = shifted M k.
Proof.
  intros HM. induction k as [|k IH].
  - by rewrite shifted_0.
  - rewrite Nat.iter_succ, IH. by apply shifted_S.
Qed.

End ShiftRight.

Section RoundAux.

Lemma shr_shifted (M E n : Z) :
  0 <= M -> 0 <= n ->
  shr {| shr_m := M; shr_r := false; shr_s := false |} E n
  = (shifted M (Z.to_nat n), E + n).
Proof.
  intros HM Hn. destruct n as [|p|p]; [| |lia].
  - cbn [shr Z.to_nat]. by rewrite shifted_0, Z.add_0_r.
  - cbn [shr]. by rewrite iter_pos_nat, iter_shr_1.
Qed.

Lemma round_shifted (M : Z) (k : nat) :
  round_nearest_even (shr_m (shifted M k)) (loc_of_shr_record (shifted M k))
  = rne M k.
Proof.
  unfold shifted, rne. cbn [shr_m loc_of_shr_record].
  set (p := 2 ^ Z.of_nat k). set (rem := M mod p).
  destruct (Z.leb_spec p (2 * rem)), (Z.eqb_spec rem 0),
    (Z.eqb_spec (2 * rem) p), (Z.ltb_spec (2 * rem) p),
    (Z.ltb_spec p (2 * rem)); cbn [orb negb round_nearest_even];
    try reflexivity; lia.
Qed.

Lemma rne_bounds (M : Z) (k : nat) :
  M / 2 ^ Z.of_nat k <= rne M k <= M / 2 ^ Z.of_nat k + 1.
Proof.
  unfold rne.
  destruct (_ <? _); [lia|]. destruct (_ <? _); [lia|].
  destruct (Z.even _); lia.
Qed.

Lemma shr_no_shift (mrs : shr_record) (e n : Z) :
  n <= 0 -> shr mrs e n = (mrs, e).
Proof. intros Hn. destruct n; [reflexivity|lia|reflexivity]. Qed.

Lemma target_exponent_fexp (M : positive) (E : Z) :
  fexp prec emax (Zdigits2 (Zpos M) + E) = target_exponent M E.
Proof. reflexivity. Qed.

Lemma pow2_53_digits : Zdigits2 (2 ^ 53) = 54.
Proof. reflexivity. Qed.

(** [binary_round_aux] on an exact significand that has no room left
    below its target exponent. *)
Lemma binary_round_aux_rne (s : bool) (M : positive) (E : Z) :
  E <= target_exponent M E ->
  binary_round_aux prec emax s (Zpos M) E loc_Exact
  = finish s (rne (Zpos M) (Z.to_nat (target_exponent M E - E)))
           (target_exponent M E).
Proof.
  intros HE. set (e' := target_exponent M E) in *.
  set (k := Z.to_nat (e' - E)).
  assert (Hk : Z.of_nat k = e' - E) by (unfold k; lia).
  assert (He' : -1074 <= e') by (unfold e', target_exponent; lia).
  pose proof (rne_bounds (Zpos M) k) as Hq.
  assert (Hdiv : 0 <= Zpos M / 2 ^ Z.of_nat k < 2 ^ 53).
  { assert (0 < 2 ^ Z.of_nat k) by (apply Z.pow_pos_nonneg; lia).
    split; [apply Z.div_pos; lia|].
    apply Z.div_lt_upper_bound; [assumption|].
    pose proof (digits2_pos_bounds M) as [_ Hhi].
    rewrite <- Z.pow_add_r by lia.
    eapply Z.lt_le_trans; [exact Hhi|].
    apply Z.pow_le_mono_r; [lia|]. unfold e', target_exponent in Hk. lia. }
  unfold binary_round_aux, shr_fexp. cbn [shr_record_of_loc].
  rewrite target_exponent_fexp. fold e'.
  rewrite shr_shifted by lia. fold k.
  rewrite round_shifted.
  replace (E + (e' - E)) with e' by lia.
  set (q := rne (Zpos M) k) in *.
  unfold finish.
  destruct (Z.eqb_spec q 0) as [->|Hq0].
  { rewrite shr_no_shift; [reflexivity|].
    cbn [Zdigits2]. unfold fexp, emin, prec, emax. lia. }
  destruct (Z.eqb_spec q (2 ^ 53)) as [->|Hq53].
  { rewrite pow2_53_digits.
    replace (fexp prec emax (54 + e') - e') with 1
      by (unfold fexp, emin, prec, emax; lia).
    reflexivity. }
  destruct q as [|m|m]; [lia| |lia].
  rewrite shr_no_shift.
  - reflexivity.
  - assert (Zpos (digits2_pos m) <= 53) by (apply digits2_pos_small; lia).
    cbn [Zdigits2]. unfold fexp, emin, prec, emax. lia.
Qed.

End RoundAux.

Section Nearest.

Lemma finish_canonical (q e : Z) :
  rounded_ok q e -> canonical_nonneg (finish false q e).
Proof.
  intros (Hq & He & Hn). unfold finish.
  change (2 ^ 53) with 9007199254740992 in *.
  change (2 ^ 52) with 4503599627370496 in *.
  destruct (Z.eqb_spec q 0); [reflexivity|].
  destruct (Z.eqb_spec q 9007199254740992).
  - destruct (Z.leb_spec (e + 1) 971); [|reflexivity].
    cbn. repeat split; try lia.
  - destruct (Z.leb_spec e 971); [|reflexivity].
    cbn. rewrite Z2Pos.id by lia.
    change (2 ^ 53) with 9007199254740992.
    change (2 ^ 52) with 4503599627370496. repeat split; lia.
Qed.

Lemma finish_ford (q e : Z) :
  rounded_ok q e -> ford (finish false q e) = Z.min top_ord (raw_ord q e).
Proof.
  intros (Hq & He & Hn). unfold finish, top_ord, raw_ord.
  change (2 ^ 53) with 9007199254740992 in *.
  change (2 ^ 52) with 4503599627370496 in *.
  destruct (Z.eqb_spec q 0).
  { cbn [ford]. lia. }
  destruct (Z.eqb_spec q 9007199254740992).
  - destruct (Z.leb_spec (e + 1) 971); cbn [ford]; unfold top_ord, raw_ord;
      change (2 ^ 52) with 4503599627370496;
      rewrite ?Z2Pos.id by lia; lia.
  - destruct (Z.leb_spec e 971); cbn [ford]; unfold top_ord, raw_ord;
      change (2 ^ 52) with 4503599627370496;
      rewrite ?Z2Pos.id by lia; lia.
Qed.

Lemma rne_mono (M1 M2 : Z) (k : nat) :
  M1 <= M2 -> rne M1 k <= rne M2 k.
Proof.
  intros HM.
  assert (Hp : 0 < 2 ^ Z.of_nat k) by (apply Z.pow_pos_nonneg; lia).
  pose proof (rne_bounds M1 k) as B1. pose proof (rne_bounds M2 k) as B2.
  pose proof (Z.div_le_mono M1 M2 _ Hp HM) as Hq.
  destruct (Z.eq_dec (M1 / 2 ^ Z.of_nat k) (M2 / 2 ^ Z.of_nat k)) as [E|NE];
    [|lia].
  assert (Hr : M1 mod 2 ^ Z.of_nat k <= M2 mod 2 ^ Z.of_nat k).
  { pose proof (Z.div_mod M1 (2 ^ Z.of_nat k) ltac:(lia)).
    pose proof (Z.div_mod M2 (2 ^ Z.of_nat k) ltac:(lia)).
    rewrite E in *. lia. }
  unfold rne. rewrite E.
  set (p := 2 ^ Z.of_nat k) in *.
  destruct (Z.ltb_spec (2 * (M1 mod p)) p), (Z.ltb_spec p (2 * (M1 mod p))),
    (Z.ltb_spec (2 * (M2 mod p)) p), (Z.ltb_spec p (2 * (M2 mod p)));
    destruct (Z.even (M2 / p)); lia.
Qed.

Lemma rne_scale (M : Z) (k j : nat) :
  rne (M * 2 ^ Z.of_nat j) (k + j) = rne M k.
Proof.
  unfold rne. rewrite Nat2Z.inj_add, Z.pow_add_r by lia.
  set (p := 2 ^ Z.of_nat k). set (t := 2 ^ Z.of_nat j).
  assert (Hp : 0 < p) by (apply Z.pow_pos_nonneg; lia).
  assert (Ht : 0 < t) by (apply Z.pow_pos_nonneg; lia).
  rewrite Z.div_mul_cancel_r by lia.
  rewrite Z.mul_mod_distr_r by lia.
  replace (2 * (M mod p * t) <? p * t) with (2 * (M mod p) <? p).
  2:{ destruct (Z.ltb_spec (2 * (M mod p)) p),
        (Z.ltb_spec (2 * (M mod p * t)) (p * t)); try reflexivity; nia. }
  replace (p * t <? 2 * (M mod p * t)) with (p <? 2 * (M mod p)).
  2:{ destruct (Z.ltb_spec p (2 * (M mod p))),
        (Z.ltb_spec (p * t) (2 * (M mod p * t))); try reflexivity; nia. }
  reflexivity.
Qed.

Lemma rne_exact (N : Z) (k : nat) : rne (N * 2 ^ Z.of_nat k) k = N.
Proof.
  unfold rne.
  assert (Hp : 0 < 2 ^ Z.of_nat k) by (apply Z.pow_pos_nonneg; lia).
  rewrite Z.div_mul, Z.mod_mul by lia.
  destruct (Z.ltb_spec (2 * 0) (2 ^ Z.of_nat k)); [reflexivity|lia].
Qed.

End Nearest.

Section RoundAt.

Lemma digits2_pos_le (N1 N2 : positive) :
  Zpos N1 <= Zpos N2 -> Zpos (digits2_pos N1) <= Zpos (digits2_pos N2).
Proof.
  intros H. pose proof (digits2_pos_bounds N1) as [Hlo _].
  pose proof (digits2_pos_bounds N2) as [_ Hhi].
  destruct (Z_le_gt_dec (Zpos (digits2_pos N1)) (Zpos (digits2_pos N2)))
    as [|Hgt]; [assumption|].
  assert (2 ^ Zpos (digits2_pos N2) <= 2 ^ (Zpos (digits2_pos N1) - 1))
    by (apply Z.pow_le_mono_r; lia).
  lia.
Qed.

Lemma digits2_pos_scaled (M N : positive) (j : Z) :
  0 <= j -> Zpos N = Zpos M * 2 ^ j ->
  Zpos (digits2_pos N) = Zpos (digits2_pos M) + j.
Proof.
  intros Hj HN. destruct j as [|j|j]; [| |lia].
  - rewrite Z.pow_0_r, Z.mul_1_r in HN. injection HN as ->. lia.
  - rewrite <- Zpos_shift in HN. injection HN as ->.
    rewrite digits2_pos_shift. lia.
Qed.

Lemma target_exponent_scaled (M N : positive) (E j : Z) :
  0 <= j -> Zpos N = Zpos M * 2 ^ j ->
  target_exponent N (E - j) = target_exponent M E.
Proof.
  intros Hj HN. unfold target_exponent.
  rewrite (digits2_pos_scaled M N j Hj HN). f_equal. lia.
Qed.

Lemma target_exponent_le (N1 N2 : positive) (E : Z) :
  Zpos N1 <= Zpos N2 -> target_exponent N1 E <= target_exponent N2 E.
Proof.
  intros H. unfold target_exponent.
  pose proof (digits2_pos_le N1 N2 H). lia.
Qed.

Lemma rne_rounded_ok (N : positive) (E0 : Z) :
  E0 <= target_exponent N E0 ->
  rounded_ok (rne (Zpos N) (Z.to_nat (target_exponent N E0 - E0)))
             (target_exponent N E0).
Proof.
  intros HE. set (e' := target_exponent N E0) in *.
  set (k := Z.to_nat (e' - E0)).
  assert (Hk : Z.of_nat k = e' - E0) by (unfold k; lia).
  pose proof (rne_bounds (Zpos N) k) as Hq.
  assert (Hp : 0 < 2 ^ Z.of_nat k) by (apply Z.pow_pos_nonneg; lia).
  pose proof (digits2_pos_bounds N) as [Hlo Hhi].
  unfold e', target_exponent in Hk.
  split; [split|split].
  - assert (0 <= Zpos N / 2 ^ Z.of_nat k) by (apply Z.div_pos; lia). lia.
  - assert (Zpos N / 2 ^ Z.of_nat k < 2 ^ 53); [|lia].
    apply Z.div_lt_upper_bound; [assumption|].
    rewrite <- Z.pow_add_r by lia.
    eapply Z.lt_le_trans; [exact Hhi|].
    apply Z.pow_le_mono_r; lia.
  - unfold e', target_exponent. lia.
  - intros Hn. unfold e', target_exponent in Hn.
    assert (2 ^ 52 <= Zpos N / 2 ^ Z.of_nat k); [|lia].
    apply Z.div_le_lower_bound; [assumption|].
    rewrite <- Z.pow_add_r by lia.
    eapply Z.le_trans; [|exact Hlo].
    apply Z.pow_le_mono_r; lia.
Qed.

Lemma round_at_canonical (N : positive) (E0 : Z) :
  E0 <= -1074 -> canonical_nonneg (round_at false N E0).
Proof.
  intros HE. apply finish_canonical, rne_rounded_ok.
  unfold target_exponent. lia.
Qed.

(** Rounding to nearest is monotone. *)
Lemma round_at_mono (N1 N2 : positive) (E0 : Z) :
  E0 <= -1074 -> Zpos N1 <= Zpos N2 ->
  ford (round_at false N1 E0) <= ford (round_at false N2 E0).
Proof.
  intros HE HN. unfold round_at.
  assert (H1 : E0 <= target_exponent N1 E0) by (unfold target_exponent; lia).
  assert (H2 : E0 <= target_exponent N2 E0) by (unfold target_exponent; lia).
  pose proof (rne_rounded_ok N1 E0 H1) as (Hq1 & He1 & Hn1).
  pose proof (rne_rounded_ok N2 E0 H2) as (Hq2 & He2 & Hn2).
  rewrite !finish_ford by (by apply rne_rounded_ok).
  pose proof (target_exponent_le N1 N2 E0 HN) as Hle.
  apply Z.min_le_compat_l.
  destruct (Z.eq_dec (target_exponent N1 E0) (target_exponent N2 E0)) as [E|NE].
  - rewrite E. unfold raw_ord.
    pose proof (rne_mono (Zpos N1) (Zpos N2)
                  (Z.to_nat (target_exponent N2 E0 - E0)) HN). lia.
  - unfold raw_ord.
    change (2 ^ 53) with 9007199254740992 in *.
    change (2 ^ 52) with 4503599627370496 in *.
    specialize (Hn2 ltac:(lia)). lia.
Qed.

End RoundAt.

Section Bridge.

Lemma pow2_split (a b : Z) : 0 <= a -> 0 <= b -> 2 ^ (a + b) = 2 ^ a * 2 ^ b.
Proof. intros. by apply Z.pow_add_r. Qed.

Lemma binary_round_aux_at (s : bool) (M N : positive) (E E0 : Z) :
  E <= target_exponent M E -> E0 <= E ->
  Zpos N = Zpos M * 2 ^ (E - E0) ->
  binary_round_aux prec emax s (Zpos M) E loc_Exact = round_at s N E0.
Proof.
  intros HE HE0 HN. rewrite binary_round_aux_rne by assumption.
  unfold round_at.
  pose proof (target_exponent_scaled M N E (E - E0) ltac:(lia) HN) as Ht.
  replace (E - (E - E0)) with E0 in Ht by lia. rewrite Ht.
  f_equal. rewrite HN.
  replace (Z.to_nat (target_exponent M E - E0))
    with (Z.to_nat (target_exponent M E - E) + Z.to_nat (E - E0))%nat by lia.
  replace (E - E0) with (Z.of_nat (Z.to_nat (E - E0))) at 1 by lia.
  by rewrite rne_scale.
Qed.

Lemma binary_round_at (s : bool) (M N : positive) (E E0 : Z) :
  E0 <= E -> E0 <= -1074 ->
  Zpos N = Zpos M * 2 ^ (E - E0) ->
  binary_round prec emax s M E = round_at s N E0.
Proof.
  intros HE0 Hmin HN. unfold binary_round.
  change (fexp prec emax (Zpos (digits2_pos M) + E)) with (target_exponent M E).
  assert (Hlow : -1074 <= target_exponent M E) by (unfold target_exponent; lia).
  unfold shl_align.
  destruct (target_exponent M E - E) as [|d|d] eqn:Hd.
  - apply binary_round_aux_at; [lia|lia|assumption].
  - apply binary_round_aux_at; [lia|lia|assumption].
  - assert (HM' : Zpos (Pos.iter xO M d) = Zpos M * 2 ^ (E - target_exponent M E)).
    { rewrite Zpos_shift. do 2 f_equal. lia. }
    pose proof (target_exponent_scaled M (Pos.iter xO M d) E
                  (E - target_exponent M E) ltac:(lia) HM') as Ht.
    replace (E - (E - target_exponent M E)) with (target_exponent M E) in Ht by lia.
    apply binary_round_aux_at.
    + rewrite Ht. lia.
    + lia.
    + rewrite HM', HN, <- Z.mul_assoc, <- pow2_split by lia.
      do 2 f_equal. lia.
Qed.

End Bridge.

Section Values.

Lemma pow2_pos (a : Z) : 0 <= a -> 0 < 2 ^ a.
Proof. intros. apply Z.pow_pos_nonneg; lia. Qed.

Lemma canonical_digits (m : positive) (e : Z) :
  canonical_nonneg (S754_finite false m e) -> target_exponent m e = e.
Proof.
  intros (_ & He & Hm & Hn). unfold target_exponent.
  pose proof (digits2_pos_bounds m) as [Hlo Hhi].
  assert (Zpos (digits2_pos m) <= 53) by (by apply digits2_pos_small).
  destruct (Z.eq_dec e (-1074)) as [->|Hne]; [lia|].
  specialize (Hn ltac:(lia)).
  assert (52 < Zpos (digits2_pos m)); [|lia].
  apply (Z.pow_lt_mono_r_iff 2); lia.
Qed.

Lemma value_pos (m : positive) (e : Z) :
  base <= e -> 0 < value (S754_finite false m e).
Proof.
  intros He. cbn [value]. pose proof (pow2_pos (e - base) ltac:(lia)). lia.
Qed.

(** Rounding a float gives the float back. *)
Lemma round_at_id (m N : positive) (e : Z) :
  canonical_nonneg (S754_finite false m e) ->
  Zpos N = value (S754_finite false m e) ->
  round_at false N base = S754_finite false m e.
Proof.
  intros Hc HN. pose proof (canonical_digits m e Hc) as Ht.
  destruct Hc as (_ & He & Hm & Hn). cbn [value] in HN.
  unfold round_at.
  pose proof (target_exponent_scaled m N e (e - base) ltac:(unfold base; lia) HN)
    as Hs.
  replace (e - (e - base)) with base in Hs by lia.
  rewrite Hs, Ht, HN.
  replace (e - base) with (Z.of_nat (Z.to_nat (e - base))) at 1
    by (unfold base; lia).
  rewrite rne_exact. unfold finish.
  destruct (Z.eqb_spec (Zpos m) 0); [lia|].
  destruct (Z.eqb_spec (Zpos m) (2 ^ 53)); [lia|].
  destruct (Z.leb_spec e 971); [reflexivity|lia].
Qed.

Lemma round_val_value (x : float) :
  finite_nonneg x -> round_val (value x) = x.
Proof.
  intros [Hc Hf]. destruct x as [s|s| |s m e]; try discriminate Hf.
  - cbn in Hc. by subst.
  - pose proof Hc as (-> & He & _).
    pose proof (value_pos m e ltac:(unfold base; lia)) as Hv.
    destruct (value (S754_finite false m e)) as [|N|N] eqn:E; [lia| |lia].
    cbn [round_val]. by apply round_at_id.
Qed.

Lemma round_val_canonical (v : Z) : canonical_nonneg (round_val v).
Proof.
  destruct v; cbn [round_val]; try reflexivity.
  apply round_at_canonical. unfold base. lia.
Qed.

Lemma ford_nonneg (x : float) : canonical_nonneg x -> 0 <= ford x.
Proof.
  destruct x as [s|s| |s m e]; cbn [canonical_nonneg ford]; try done.
  intros (_ & He & _). unfold raw_ord.
  change (2 ^ 52) with 4503599627370496. lia.
Qed.

Lemma round_val_mono (v1 v2 : Z) :
  v1 <= v2 -> ford (round_val v1) <= ford (round_val v2).
Proof.
  intros Hv. destruct v1 as [|N1|N1], v2 as [|N2|N2]; try lia;
    cbn [round_val ford]; try lia;
    try (apply ford_nonneg, round_at_canonical; unfold base; lia).
  apply round_at_mono; [unfold base; lia|assumption].
Qed.

End Values.

Section Order.

(** On finite non-negative floats the position orders the values. *)
Lemma ford_le_value (x y : float) :
  finite_nonneg x -> finite_nonneg y ->
  ford x <= ford y -> value x <= value y.
Proof.
  intros [Hx Fx] [Hy Fy].
  destruct x as [sx|sx| |sx mx ex]; try discriminate Fx;
    destruct y as [sy|sy| |sy my ey]; try discriminate Fy;
    cbn [ford value].
  - lia.
  - destruct Hy as (_ & He & _). intros _.
    pose proof (pow2_pos (ey - base) ltac:(unfold base; lia)). lia.
  - destruct Hx as (_ & He & _). unfold raw_ord.
    change (2 ^ 52) with 4503599627370496. lia.
  - destruct Hx as (_ & Hex & Hmx & Hnx), Hy as (_ & Hey & Hmy & Hny).
    unfold raw_ord.
    change (2 ^ 53) with 9007199254740992 in *.
    change (2 ^ 52) with 4503599627370496 in *.
    intros Hord.
    destruct (Z.lt_trichotomy ex ey) as [Hlt|[->|Hgt]].
    + specialize (Hny ltac:(lia)).
      replace (ey - base) with ((ex - base) + (ey - ex)) by lia.
      rewrite pow2_split by (unfold base; lia).
      pose proof (pow2_pos (ex - base) ltac:(unfold base; lia)) as Hp.
      assert (Hq : 2 <= 2 ^ (ey - ex)).
      { change 2 with (2 ^ 1) at 1. apply Z.pow_le_mono_r; lia. }
      set (P := 2 ^ (ex - base)) in *. set (Q := 2 ^ (ey - ex)) in *.
      assert (Zpos mx * P <= 2 * Zpos my * P)
        by (apply Z.mul_le_mono_nonneg_r; lia).
      assert (Zpos my * P * 2 <= Zpos my * P * Q)
        by (apply Z.mul_le_mono_nonneg_l; lia).
      lia.
    + pose proof (pow2_pos (ey - base) ltac:(unfold base; lia)) as Hp. nia.
    + specialize (Hnx ltac:(lia)). lia.
Qed.

(** [int] of a finite non-negative float. *)
Lemma int_of_float_value (x : float) :
  finite_nonneg x -> int_of_float x = Ok (value x / 2 ^ (- base)).
Proof.
  intros [Hc Hf]. destruct x as [s|s| |s m e]; try discriminate Hf.
  - reflexivity.
  - destruct Hc as (-> & He & _). cbn [int_of_float value].
    assert (Hb : 0 < 2 ^ (- base)) by (apply pow2_pos; unfold base; lia).
    f_equal. destruct e as [|k|k].
    + rewrite Z.shiftl_0_r. replace (0 - base) with (- base) by lia.
      by rewrite Z.div_mul by lia.
    + rewrite Z.shiftl_mul_pow2 by lia.
      replace (Zpos k - base) with (Zpos k + - base) by lia.
      rewrite pow2_split by (unfold base; lia).
      rewrite Z.mul_assoc. by rewrite Z.div_mul by lia.
    + rewrite Z.shiftr_div_pow2 by lia.
      replace (- base) with ((Zneg k - base) + Zpos k) by lia.
      rewrite pow2_split by (unfold base; lia).
      rewrite (Z.mul_comm (Zpos m)).
      rewrite Z.div_mul_cancel_l; [reflexivity| |];
        apply Z.pow_nonzero; unfold base; lia.
Qed.

Lemma int_of_float_mono (x y : float) (a b : Z) :
  canonical_nonneg x -> canonical_nonneg y ->
  ford x <= ford y ->
  int_of_float x = Ok a -> int_of_float y = Ok b -> a <= b.
Proof.
  intros Hx Hy Hord Ha Hb.
  assert (Fx : finite_nonneg x)
    by (split; [assumption|]; by destruct x).
  assert (Fy : finite_nonneg y)
    by (split; [assumption|]; by destruct y).
  rewrite (int_of_float_value x Fx) in Ha.
  rewrite (int_of_float_value y Fy) in Hb.
  injection Ha as <-. injection Hb as <-.
  apply Z.div_le_mono; [apply pow2_pos; unfold base; lia|].
  by apply ford_le_value.
Qed.

End Order.

Section Operations.

Lemma dyadic_shift (m1 m2 a1 a2 t : Z) :
  0 <= a1 -> 0 <= a2 -> 0 <= a1 + t -> 0 <= a2 + t ->
  m1 * 2 ^ a1 <= m2 * 2 ^ a2 ->
  m1 * 2 ^ (a1 + t) <= m2 * 2 ^ (a2 + t).
Proof.
  intros H1 H2 H3 H4 H. destruct (Z_le_gt_dec 0 t) as [Ht|Ht].
  - rewrite !pow2_split by lia. rewrite !Z.mul_assoc.
    apply Z.mul_le_mono_nonneg_r; [|assumption].
    pose proof (pow2_pos t Ht). lia.
  - assert (E1 : 2 ^ a1 = 2 ^ (a1 + t) * 2 ^ (- t))
      by (rewrite <- pow2_split by lia; f_equal; lia).
    assert (E2 : 2 ^ a2 = 2 ^ (a2 + t) * 2 ^ (- t))
      by (rewrite <- pow2_split by lia; f_equal; lia).
    rewrite E1, E2, !Z.mul_assoc in H.
    apply Z.mul_le_mono_pos_r in H; [assumption|apply pow2_pos; lia].
Qed.

Lemma product_value_mono (x c1 c2 : float) :
  finite_nonneg x -> finite_nonneg c1 -> finite_nonneg c2 ->
  value c1 <= value c2 ->
  product_value x c1 <= product_value x c2.
Proof.
  intros [Hx Fx] [H1 F1] [H2 F2] Hv.
  destruct x as [sx|sx| |sx mx ex]; try discriminate Fx;
    [cbn [product_value]; lia|].
  destruct Hx as (_ & Hex & _).
  destruct c1 as [s1|s1| |s1 m1 e1]; try discriminate F1;
    destruct c2 as [s2|s2| |s2 m2 e2]; try discriminate F2;
    cbn [product_value value] in *.
  - lia.
  - destruct H2 as (_ & He2 & _).
    pose proof (pow2_pos (ex + e2 - base) ltac:(unfold base; lia)). lia.
  - destruct H1 as (_ & He1 & _).
    pose proof (pow2_pos (e1 - base) ltac:(unfold base; lia)). lia.
  - destruct H1 as (_ & He1 & _), H2 as (_ & He2 & _).
    pose proof (dyadic_shift (Zpos m1) (Zpos m2) (e1 - base) (e2 - base) ex
                  ltac:(unfold base; lia) ltac:(unfold base; lia)
                  ltac:(unfold base; lia) ltac:(unfold base; lia) Hv) as H.
    replace (ex + e1 - base) with (e1 - base + ex) by lia.
    replace (ex + e2 - base) with (e2 - base + ex) by lia.
    rewrite <- !Z.mul_assoc.
    apply Z.mul_le_mono_nonneg_l; [lia|assumption].
Qed.

Lemma product_value_comm (x y : float) :
  product_value x y = product_value y x.
Proof.
  destruct x, y; cbn [product_value]; try reflexivity.
  rewrite (Z.add_comm e e0). lia.
Qed.

(** The product of two canonical significands leaves no room below its
    target exponent. *)
Lemma product_no_room (mx my : positive) (ex ey : Z) :
  canonical_nonneg (S754_finite false mx ex) ->
  canonical_nonneg (S754_finite false my ey) ->
  ex + ey <= target_exponent (mx * my) (ex + ey).
Proof.
  intros (_ & Hex & Hmx & Hnx) (_ & Hey & Hmy & Hny). unfold target_exponent.
  destruct (Z_le_gt_dec (ex + ey) (-1074)) as [|Hbig]; [lia|].
  assert (Hbigm : 2 ^ 52 <= Zpos (mx * my)).
  { rewrite Pos2Z.inj_mul.
    destruct (Z.eq_dec ex (-1074)) as [->|Hne].
    - specialize (Hny ltac:(lia)). nia.
    - specialize (Hnx ltac:(lia)). nia. }
  pose proof (digits2_pos_bounds (mx * my)) as [_ Hhi].
  assert (52 < Zpos (digits2_pos (mx * my))); [|lia].
  apply (Z.pow_lt_mono_r_iff 2); lia.
Qed.

Lemma fmul_round (x y : float) :
  finite_nonneg x -> finite_nonneg y ->
  fmul x y = round_val (product_value x y).
Proof.
  intros [Hx Fx] [Hy Fy].
  destruct x as [sx|sx| |sx mx ex]; try discriminate Fx;
    destruct y as [sy|sy| |sy my ey]; try discriminate Fy.
  - cbn in Hx, Hy. by subst.
  - cbn in Hx. destruct Hy as (-> & _). by subst.
  - cbn in Hy. destruct Hx as (-> & _). by subst.
  - pose proof (product_no_room mx my ex ey) as Hroom.
    destruct Hx as (-> & Hx'), Hy as (-> & Hy').
    specialize (Hroom (conj eq_refl Hx') (conj eq_refl Hy')).
    destruct Hx' as (Hex & _), Hy' as (Hey & _).
    cbn [fmul SFmul xorb product_value].
    pose proof (pow2_pos (ex + ey - base) ltac:(unfold base; lia)) as Hp.
    destruct (Zpos mx * Zpos my * 2 ^ (ex + ey - base)) as [|N|N] eqn:EN;
      [nia| |nia].
    cbn [round_val].
    apply binary_round_aux_at; [assumption|unfold base; lia|].
    by rewrite Pos2Z.inj_mul, EN.
Qed.

Lemma shl_align_fst (m : positive) (e ez : Z) :
  ez <= e -> Zpos (fst (shl_align m e ez)) = Zpos m * 2 ^ (e - ez).
Proof.
  intros He. unfold shl_align.
  destruct (ez - e) as [|d|d] eqn:Hd; cbn [fst].
  - replace (e - ez) with 0 by lia. lia.
  - lia.
  - rewrite Zpos_shift. do 2 f_equal. lia.
Qed.

Lemma fadd_round (x y : float) :
  finite_nonneg x -> finite_nonneg y ->
  fadd x y = round_val (value x + value y).
Proof.
  intros Fx Fy. pose proof Fx as [Hx Fx']. pose proof Fy as [Hy Fy'].
  destruct x as [sx|sx| |sx mx ex]; try discriminate Fx';
    destruct y as [sy|sy| |sy my ey]; try discriminate Fy'.
  - cbn in Hx, Hy. by subst.
  - cbn [fadd SFadd]. change (value (S754_zero sx)) with 0.
    rewrite Z.add_0_l. symmetry. by apply round_val_value.
  - cbn [fadd SFadd]. change (value (S754_zero sy)) with 0.
    rewrite Z.add_0_r. symmetry. by apply round_val_value.
  - destruct Hx as (-> & Hex & _), Hy as (-> & Hey & _).
    cbn [fadd SFadd cond_Zopp value].
    set (ez := Z.min ex ey).
    rewrite <- Pos2Z.inj_add. cbn [binary_normalize].
    pose proof (pow2_pos (ex - base) ltac:(unfold base; lia)).
    pose proof (pow2_pos (ey - base) ltac:(unfold base; lia)).
    destruct (Zpos mx * 2 ^ (ex - base) + Zpos my * 2 ^ (ey - base))
      as [|N|N] eqn:EN; [lia| |lia].
    cbn [round_val].
    apply binary_round_at; [unfold ez, base; lia|unfold base; lia|].
    rewrite <- EN, Pos2Z.inj_add, !shl_align_fst by (unfold ez; lia).
    rewrite Z.mul_add_distr_r, <- !Z.mul_assoc, <- !pow2_split
      by (unfold ez, base; lia).
    f_equal; do 2 f_equal; lia.
Qed.

End Operations.

Section Monotone.

Lemma ford_le_top (x : float) : canonical_nonneg x -> ford x <= top_ord.
Proof.
  destruct x as [s|s| |s m e]; cbn [canonical_nonneg ford].
  - intros _. unfold top_ord, raw_ord.
    change (2 ^ 52) with 4503599627370496. lia.
  - intros _. lia.
  - intros [].
  - intros (_ & He & Hm & _). unfold top_ord, raw_ord.
    change (2 ^ 53) with 9007199254740992 in *.
    change (2 ^ 52) with 4503599627370496. lia.
Qed.

Lemma ford_top_infinite (x : float) :
  canonical_nonneg x -> top_ord <= ford x -> x = S754_infinity false.
Proof.
  destruct x as [s|s| |s m e]; cbn [canonical_nonneg ford].
  - intros _. unfold top_ord, raw_ord.
    change (2 ^ 52) with 4503599627370496. lia.
  - by intros ->.
  - intros [].
  - intros (_ & He & Hm & _). unfold top_ord, raw_ord.
    change (2 ^ 53) with 9007199254740992 in *.
    change (2 ^ 52) with 4503599627370496. lia.
Qed.

Lemma canonical_cases (x : float) :
  canonical_nonneg x -> finite_nonneg x \/ x = S754_infinity false.
Proof.
  intros Hx. destruct x as [s|s| |s m e]; try done.
  - left. by split.
  - right. cbn in Hx. by subst.
  - left. by split.
Qed.

(** Multiplying a non-negative float by the larger of two positive
    constants gives the larger product. *)
Lemma fmul_mono_r (x c1 c2 : float) :
  canonical_nonneg x ->
  finite_nonneg c1 -> finite_nonneg c2 ->
  0 < value c1 -> value c1 <= value c2 ->
  canonical_nonneg (fmul x c1) /\ canonical_nonneg (fmul x c2) /\
  ford (fmul x c1) <= ford (fmul x c2).
Proof.
  intros Hx F1 F2 Hpos Hv.
  destruct (canonical_cases x Hx) as [Fx| ->].
  - rewrite !fmul_round by assumption.
    split; [apply round_val_canonical|]. split; [apply round_val_canonical|].
    apply round_val_mono. by apply product_value_mono.
  - destruct F1 as [H1 F1], F2 as [H2 F2].
    destruct c1 as [s1|s1| |s1 m1 e1]; try discriminate F1;
      [cbn [value] in Hpos; lia|].
    destruct c2 as [s2|s2| |s2 m2 e2]; try discriminate F2;
      [cbn [value] in Hv, Hpos; lia|].
    destruct H1 as (-> & _), H2 as (-> & _).
    cbn [fmul SFmul xorb canonical_nonneg ford]. repeat split; lia.
Qed.

(** Multiplying the larger of two non-negative floats by a constant
    gives the larger product. *)
Lemma fmul_mono_l (c x1 x2 : float) :
  finite_nonneg c -> finite_nonneg x1 -> finite_nonneg x2 ->
  value x1 <= value x2 ->
  canonical_nonneg (fmul c x1) /\ canonical_nonneg (fmul c x2) /\
  ford (fmul c x1) <= ford (fmul c x2).
Proof.
  intros Fc F1 F2 Hv. rewrite !fmul_round by assumption.
  split; [apply round_val_canonical|]. split; [apply round_val_canonical|].
  apply round_val_mono. by apply product_value_mono.
Qed.

Lemma fadd_infinity (a : float) :
  finite_nonneg a -> fadd a (S754_infinity false) = S754_infinity false.
Proof. intros [Ha Fa]. by destruct a. Qed.

(** Adding the larger of two non-negative floats gives the larger sum. *)
Lemma fadd_mono_r (a y1 y2 : float) :
  finite_nonneg a ->
  canonical_nonneg y1 -> canonical_nonneg y2 ->
  ford y1 <= ford y2 ->
  canonical_nonneg (fadd a y1) /\ canonical_nonneg (fadd a y2) /\
  ford (fadd a y1) <= ford (fadd a y2).
Proof.
  intros Fa H1 H2 Hord.
  destruct (canonical_cases y2 H2) as [F2| ->].
  - destruct (canonical_cases y1 H1) as [F1| ->].
    + rewrite !fadd_round by assumption.
      split; [apply round_val_canonical|]. split; [apply round_val_canonical|].
      apply round_val_mono.
      pose proof (ford_le_value y1 y2 F1 F2 Hord). lia.
    + pose proof (ford_top_infinite y2 H2 Hord) as ->.
      rewrite fadd_infinity by assumption. by repeat split.
  - rewrite fadd_infinity by assumption.
    destruct (canonical_cases y1 H1) as [F1| ->].
    + rewrite fadd_round by assumption.
      split; [apply round_val_canonical|]. split; [reflexivity|].
      apply (ford_le_top (round_val _)), round_val_canonical.
    + rewrite fadd_infinity by assumption. by repeat split.
Qed.

End Monotone.

Section Compare.

(** The position orders floats the way [<=] on floats does. *)
Lemma ford_le_fleb (x y : float) :
  canonical_nonneg x -> canonical_nonneg y ->
  ford x <= ford y -> fleb x y = true.
Proof.
  intros Hx Hy Hord.
  destruct x as [sx|sx| |sx mx ex], y as [sy|sy| |sy my ey];
    cbn [canonical_nonneg] in Hx, Hy; try contradiction;
    cbn [ford] in Hord; unfold top_ord, raw_ord in Hord;
    change (2 ^ 53) with 9007199254740992 in *;
    change (2 ^ 52) with 4503599627370496 in *;
    repeat match goal with H : _ /\ _ |- _ => destruct H end; subst;
    try reflexivity; try (exfalso; lia).
  unfold fleb, SFleb. cbn [SFcompare].
  destruct (Z.compare_spec ex ey) as [->|Hlt|Hgt].
  - change (Pos.compare_cont Eq mx my) with (Pos.compare mx my).
    destruct (Pos.compare_spec mx my); try reflexivity. exfalso. lia.
  - reflexivity.
  - exfalso. lia.
Qed.

Lemma float_of_int_nonneg (n : Z) (x : float) :
  0 <= n -> float_of_int n = Ok x -> finite_nonneg x.
Proof.
  intros Hn. unfold float_of_int.
  destruct (is_finite (binary_normalize prec emax n 0 false)) eqn:Hf;
    [|discriminate].
  intros [= <-]. split; [|assumption].
  destruct n as [|p|p]; [reflexivity| |lia].
  cbn [binary_normalize].
  pose proof (pow2_pos (0 - base) ltac:(unfold base; lia)) as Hp.
  destruct (Zpos p * 2 ^ (0 - base)) as [|N|N] eqn:EN; [lia| |lia].
  rewrite (binary_round_at false p N 0 base); [|unfold base; lia..|by rewrite EN].
  apply round_at_canonical. unfold base. lia.
Qed.

Lemma canonical_f1_0 : canonical_nonneg f1_0.
Proof. cbn. repeat split; try lia; intros _; by apply Z.leb_le. Qed.

(** A float positioned at or below a finite one is finite. *)
Lemma ford_le_finite (x y : float) :
  canonical_nonneg x -> finite_nonneg y -> ford x <= ford y ->
  finite_nonneg x.
Proof.
  intros Hx [Hy Fy] Hord.
  destruct (canonical_cases x Hx) as [F| ->]; [assumption|].
  cbn [ford] in Hord. pose proof (ford_top_infinite y Hy Hord) as ->.
  discriminate Fy.
Qed.

(** A draw of [random()] is a finite float in [[0, 1]]. *)
Lemma random_unit (r : Z) :
  finite_nonneg (binary_normalize prec emax (r mod 2 ^ 53) (-53) false) /\
  value (binary_normalize prec emax (r mod 2 ^ 53) (-53) false) <= value f1_0.
Proof.
  pose proof (Z.mod_pos_bound r (2 ^ 53) ltac:(lia)) as Hk.
  assert (Hone : 0 < value f1_0) by (apply value_pos; unfold base; lia).
  destruct (r mod 2 ^ 53) as [|k|k] eqn:Ek; [| |lia].
  { split; [by split|]. cbn [binary_normalize value]. lia. }
  cbn [binary_normalize].
  pose proof (pow2_pos (-53 - base) ltac:(unfold base; lia)) as Hp.
  destruct (Zpos k * 2 ^ (-53 - base)) as [|N|N] eqn:EN; [lia| |lia].
  rewrite (binary_round_at false k N (-53) base);
    [|unfold base; lia|unfold base; lia|by rewrite EN].
  destruct (value f1_0) as [|N1|N1] eqn:E1; [lia| |lia].
  pose proof (round_at_id _ N1 _ canonical_f1_0 (eq_sym E1)) as Hid.
  assert (HN : Zpos N <= Zpos N1).
  { rewrite <- EN, <- E1. unfold f1_0. cbn [value].
    replace (-52 - base) with ((-53 - base) + 1) by lia.
    rewrite pow2_split by (unfold base; lia).
    change (2 ^ 1) with 2. change (2 ^ 53) with 9007199254740992 in Hk. nia. }
  pose proof (round_at_mono N N1 base ltac:(unfold base; lia) HN) as Hord.
  rewrite Hid in Hord.
  pose proof (round_at_canonical N base ltac:(unfold base; lia)) as Hc.
  assert (F1 : finite_nonneg f1_0) by (split; [apply canonical_f1_0|reflexivity]).
  pose proof (ford_le_finite _ _ Hc F1 Hord) as Hfin.
  split; [assumption|].
  rewrite <- E1. by apply ford_le_value.
Qed.

Lemma is_nonneg_finite_spec (x : float) :
  is_nonneg_finite x = true -> finite_nonneg x.
Proof.
  destruct x as [s|s| |s m e]; cbn [is_nonneg_finite]; try discriminate.
  - destruct s; [discriminate|]. intros _. by split.
  - destruct s; [discriminate|]. cbn [negb andb].
    unfold bounded, canonical_mantissa, fexp, emin, prec, emax.
    intros H. apply andb_true_iff in H as [Hc He].
    apply Z.eqb_eq in Hc. apply Z.leb_le in He.
    pose proof (digits2_pos_bounds m) as [Hlo Hhi].
    split; [|reflexivity]. cbn [canonical_nonneg].
    split; [reflexivity|]. split; [lia|]. split.
    + eapply Z.lt_le_trans; [exact Hhi|]. apply Z.pow_le_mono_r; lia.
    + intros Hn. eapply Z.le_trans; [|exact Hlo].
      apply Z.pow_le_mono_r; lia.
Qed.

End Compare.

(* ===================================================================== *)
(** * StatGrowth.calculate_stats_at_level *)
(* ===================================================================== *)

(** Whatever the curve tag, the multiplier is a positive finite float. *)
Lemma growth_multiplier_finite (g : StatGrowth) (level : Z) :
  exists m e, _get_growth_multiplier g level = S754_finite false m e.
Proof.
  unfold _get_growth_multiplier.
  repeat (rewrite lookup_insert; case_decide; [eexists _, _; reflexivity|]).
  rewrite lookup_empty. eexists _, _; reflexivity.
Qed.

Lemma grown_level_one (base : Z) (rate mult : float) :
  is_finite rate = true ->
  exact_in_float base = true ->
  (exists m e, mult = S754_finite false m e) ->
  grown base rate 1 mult = Ok base.
Proof.
  intros Hrate Hbase (m & e & ->). unfold grown, float_mul_int.
  change (float_of_int (1 - 1)) with (Ok (S754_zero false)).
  rewrite result_bind_Ok.
  destruct (fmul_zero_r rate false Hrate) as [z ->].
  rewrite result_bind_Ok, fmul_zero_l. unfold int_add_float.
  apply Z.ltb_lt in Hbase.
  destruct (int_float_roundtrip base (xorb z false) Hbase) as (x & -> & Hx).
  by rewrite !result_bind_Ok.
Qed.

(** C3 (as the code has it). At level 1, for finite growth rates and base
    stats below 2^53 in magnitude, every field of the result equals the
    field of [base], except [hp], which is set to [max_hp base]. *)
Theorem level_one_is_base_at_full_hp (g : StatGrowth) (base : Stats) :
  finite_rates g = true ->
  exact_stats base = true ->
  calculate_stats_at_level g base 1 = Ok (set_hp (max_hp base) base).
Proof.
  unfold finite_rates, exact_stats. rewrite !andb_true_iff.
  intros [[[[[R1 R2] R3] R4] R5] R6] [[[[[E1 E2] E3] E4] E5] E6].
  unfold calculate_stats_at_level.
  pose proof (growth_multiplier_finite g 1) as Hm.
  rewrite !grown_level_one by assumption.
  rewrite !result_bind_Ok. unfold Stats_init, set_hp.
  by rewrite Z.ltb_irrefl.
Qed.

Lemma level_one_is_base_at_full_hp_witness :
  calculate_stats_at_level (default_growth "fast") wounded 1
  = Ok (set_hp (max_hp wounded) wounded).
Proof.
  apply (level_one_is_base_at_full_hp (default_growth "fast") wounded);
    reflexivity.
Defined.

(** C3 as stated fails on a base below full hp: the level-1 result has
    hp 100 where [wounded] has hp 80. *)
Lemma level_one_hp_counterexample :
  exists t,
    calculate_stats_at_level (default_growth "medium_fast") wounded 1 = Ok t /\
    hp wounded = 80 /\ hp t = 100 /\ t <> wounded.
Proof.
  eexists. split; [vm_compute; reflexivity|].
  repeat split. discriminate.
Qed.

(* ===================================================================== *)
(** * GeneticsSystem: stat inheritance *)
(* ===================================================================== *)

(** The draw of [average_stat] ranges over [(-avg) // 10 .. avg // 10]. *)
Lemma average_stat_run (stat1 stat2 : Z) (g : Random.source) :
  let avg := (stat1 + stat2) / 2 in
  0 <= avg ->
  exists variation,
    (- avg) / 10 <= variation <= avg / 10 /\
    GeneticsSystem.average_stat stat1 stat2 g =
    (Ok (Z.max 1 (avg + variation)),
     Random.mkSource (Random.entropy g) (S (Random.position g))).
Proof.
  intros avg Havg. unfold GeneticsSystem.average_stat, Random.randint.
  fold avg.
  assert (Hrange : (- avg) / 10 <= avg / 10).
  { apply Z.div_le_mono; lia. }
  replace (avg / 10 <? - avg / 10) with false
    by (symmetry; apply Z.ltb_ge; exact Hrange).
  set (n := avg / 10 - - avg / 10 + 1).
  exists (- avg / 10 + Random.entropy g (Random.position g) mod n).
  split; [|reflexivity].
  pose proof (Z.mod_pos_bound (Random.entropy g (Random.position g)) n).
  lia.
Qed.

(** C1 (the code at a failing input). For two parents with attack 15 the
    average is 15 and [floor(avg/10)] is 1, so the claim bounds the
    offspring's attack by [14, 16]; the draw ranges over
    [(-15) // 10 .. 15 // 10], that is [-2 .. 1], and the lowest draw
    gives 13. *)
Theorem average_stat_below_symmetric_bound :
  let avg := (15 + 15) / 2 in
  (- avg) / 10 = -2 /\ - (avg / 10) = -1 /\
  fst (GeneticsSystem.average_stat 15 15 zeros) = Ok 13 /\
  13 < avg - avg / 10.
Proof. repeat split. Qed.

(** C2 (the code at a failing input). With parents of max hp 100 and 120,
    the draw for [max_hp] at its highest and the separate draw for [hp]
    at its lowest, the inherited stats have hp 99 and max hp 121, and
    [breed] hands exactly these to the constructor as [base_stats]. *)
Theorem inherit_stats_hp_below_max_hp :
  (exists s,
     fst (GeneticsSystem._inherit_stats (GeneticsSystem.mk f0_0)
            parent_a parent_b (spike 0 22)) = Ok s /\
     hp s = 99 /\ max_hp s = 121) /\
  (forall Creature_init, exists ty s traits,
     fst (GeneticsSystem.breed Creature_init (GeneticsSystem.mk f0_0)
            parent_a parent_b "Offspring" (spike 1 22))
     = Ok (Creature_init "Offspring" ty 1 s traits) /\
     hp s = 99 /\ max_hp s = 121).
Proof.
  split.
  - eexists. split; [vm_compute; reflexivity|]. split; reflexivity.
  - intros Creature_init. eexists _, _, _.
    split; [vm_compute; reflexivity|]. split; reflexivity.
Qed.

(* ===================================================================== *)
(** * GeneticsSystem: trait mutation *)
(* ===================================================================== *)

(** A concrete positive float is canonical when its significand and
    exponent are in range. *)
Ltac canonical_constant :=
  match goal with
  | |- finite_nonneg ?x =>
      let v := eval vm_compute in x in change x with v
  end;
  split;
  [cbn [canonical_nonneg];
   change (2 ^ 53) with 9007199254740992;
   change (2 ^ 52) with 4503599627370496;
   repeat split; (reflexivity || lia)
  |reflexivity].

Lemma finite_nonneg_f0_9 : finite_nonneg f0_9.
Proof. canonical_constant. Qed.

Lemma finite_nonneg_f1_1 : finite_nonneg f1_1.
Proof. canonical_constant. Qed.

Lemma finite_nonneg_width : finite_nonneg (fsub f1_1 f0_9).
Proof. canonical_constant. Qed.

(** [0.9 + (1.1 - 0.9) * u] stays between 0.9 and 1.1 for a draw [u] of
    [random()]. *)
Lemma uniform_factor_between (r : Z) :
  let u := binary_normalize prec emax (r mod 2 ^ 53) (-53) false in
  let factor := fadd f0_9 (fmul (fsub f1_1 f0_9) u) in
  fleb f0_9 factor = true /\ fleb factor f1_1 = true.
Proof.
  intros u factor.
  destruct (random_unit r) as [Fu Hu]. fold u in Fu, Hu.
  assert (F1 : finite_nonneg f1_0) by canonical_constant.
  destruct (fmul_mono_l (fsub f1_1 f0_9) u f1_0 finite_nonneg_width Fu F1 Hu)
    as (Hp & _ & Hord).
  change (fmul (fsub f1_1 f0_9) f1_0) with (fsub f1_1 f0_9) in Hord.
  destruct (fadd_mono_r f0_9 _ _ finite_nonneg_f0_9 Hp
              (proj1 finite_nonneg_width) Hord) as (Hc & _ & Hhi).
  change (fadd f0_9 (fsub f1_1 f0_9)) with f1_1 in Hhi.
  destruct (fadd_mono_r f0_9 (S754_zero false) _ finite_nonneg_f0_9
              eq_refl Hp (ford_nonneg _ Hp)) as (_ & _ & Hlo).
  change (fadd f0_9 (S754_zero false)) with f0_9 in Hlo.
  split; apply ford_le_fleb; try assumption;
    [apply finite_nonneg_f0_9|apply finite_nonneg_f1_1].
Qed.

(** C8. [_mutate_trait] advances the random source by exactly one draw;
    the factor it obtains lies between 0.9 and 1.1, and the strength,
    speed and defense modifiers of the result are those of the trait,
    each multiplied by this one factor.  The name is the original
    followed by " (Mutated)"; trait type and rarity are copied. *)
Theorem mutate_trait_one_shared_factor
        (self : GeneticsSystem.t) (trait : Trait.t) (g : Random.source) :
  exists factor mutated,
    Random.uniform f0_9 f1_1 g
      = (Ok factor, Random.mkSource (Random.entropy g) (S (Random.position g))) /\
    GeneticsSystem._mutate_trait self trait g
      = (Ok mutated, Random.mkSource (Random.entropy g) (S (Random.position g))) /\
    fleb f0_9 factor = true /\ fleb factor f1_1 = true /\
    Trait.strength_modifier mutated = fmul (Trait.strength_modifier trait) factor /\
    Trait.speed_modifier mutated = fmul (Trait.speed_modifier trait) factor /\
    Trait.defense_modifier mutated = fmul (Trait.defense_modifier trait) factor /\
    Trait.name mutated = Trait.name trait +:+ " (Mutated)" /\
    Trait.trait_type mutated = Trait.trait_type trait /\
    Trait.rarity mutated = Trait.rarity trait.
Proof.
  eexists _, _.
  split; [reflexivity|]. split; [reflexivity|].
  split; [|split; [|repeat split]].
  - apply (uniform_factor_between (Random.entropy g (Random.position g))).
  - apply (uniform_factor_between (Random.entropy g (Random.position g))).
Qed.

(* ===================================================================== *)
(** * EvolutionSystem.evolve *)
(* ===================================================================== *)

Section EvolveFacts.
Variable get_effective_stats : Creature.t -> result Stats.

Abbreviation evolve := (EvolutionSystem.evolve get_effective_stats).

Lemma uses_path_available self creature path :
  uses_path self creature None path ->
  EvolutionPath.can_evolve path creature = true /\
  In path (EvolutionSystem.evolution_paths self).
Proof.
  intros [[=]|[_ [rest Hrest]]].
  assert (Hin : In path (EvolutionSystem.get_available_evolutions self creature))
    by (rewrite Hrest; left; reflexivity).
  unfold EvolutionSystem.get_available_evolutions in Hin.
  apply filter_In in Hin. tauto.
Qed.

(** How [evolve] gets past its first step. *)
Lemma evolve_with_path self creature arg path :
  uses_path self creature arg path ->
  evolve self creature arg = evolve self creature (Some path).
Proof.
  intros [->|[-> [rest Hrest]]]; [reflexivity|].
  unfold EvolutionSystem.evolve. by rewrite Hrest.
Qed.

(** C5 (as the code has it). [evolve] works with one path: the one
    passed in, or, when none is passed in, the first registered path the
    creature qualifies for.  When that path is satisfied by the creature
    and its target species is registered, and the stat recomputation
    raises nothing, [evolve] returns success with a message naming the
    old and the new species; afterwards the creature's species is the
    target, its base stats are the target's growth profile applied to
    the target's base stats at the creature's unchanged level, its
    stats are the effective stats with hp set to their max hp, and its
    energy is its max energy. *)
Theorem evolve_success (self : EvolutionSystem.t) (creature : Creature.t)
        (arg : option EvolutionPath.t) (path : EvolutionPath.t)
        (target : CreatureType.t) (new_base effective : Stats) :
  uses_path self creature arg path ->
  EvolutionPath.can_evolve path creature = true ->
  EvolutionSystem.creature_types self !! EvolutionPath.to_type path
    = Some target ->
  calculate_stats_at_level (CreatureType.stat_growth target)
    (CreatureType.base_stats target) (Creature.level creature) = Ok new_base ->
  get_effective_stats
    (Creature.set_base_stats new_base
       (Creature.set_creature_type target creature)) = Ok effective ->
  exists creature',
    evolve self creature arg =
    (creature',
     Ok (true, "Evolved from "
                 +:+ CreatureType.name (Creature.creature_type creature)
                 +:+ " to " +:+ CreatureType.name target +:+ "!")) /\
    Creature.creature_type creature' = target /\
    Creature.base_stats creature' = new_base /\
    Creature.level creature' = Creature.level creature /\
    Creature.stats creature' = set_hp (max_hp effective) effective /\
    hp (Creature.stats creature') = max_hp (Creature.stats creature') /\
    Creature.energy creature' = Creature.max_energy creature' /\
    Creature.max_energy creature' = Creature.max_energy creature /\
    Creature.traits creature' = Creature.traits creature.
Proof.
  intros Hpath Hcan Htarget Hbase Heff.
  rewrite (evolve_with_path _ _ _ _ Hpath).
  unfold EvolutionSystem.evolve.
  rewrite Hcan. cbn [negb]. rewrite Htarget.
  cbn [Creature.level Creature.set_creature_type]. rewrite Hbase, Heff.
  eexists. split; [reflexivity|]. repeat split.
Qed.

(** C6 (as the code has it). The three failure outcomes are returned,
    not raised: no path supplied and none available; the path in use not
    satisfied; the path's target species not registered.  Every
    returned failure is one of the three.  [evolve] can still raise: it
    does so exactly on the way to success, with the path in use
    satisfied and its target registered, when
    [calculate_stats_at_level] or [get_effective_stats] raises, and it
    passes that exception on. *)
Theorem evolve_failure_outcomes (self : EvolutionSystem.t)
        (creature : Creature.t) (arg : option EvolutionPath.t) :
  (arg = None ->
   EvolutionSystem.get_available_evolutions self creature = [] ->
   evolve self creature arg
   = (creature, Ok (false, "No evolution paths available"))) /\
  (forall path,
     uses_path self creature arg path ->
     EvolutionPath.can_evolve path creature = false ->
     evolve self creature arg
     = (creature, Ok (false, "Evolution conditions not met"))) /\
  (forall path,
     uses_path self creature arg path ->
     EvolutionPath.can_evolve path creature = true ->
     EvolutionSystem.creature_types self !! EvolutionPath.to_type path = None ->
     evolve self creature arg
     = (creature,
        Ok (false, "Target type '" +:+ EvolutionPath.to_type path
                     +:+ "' not found"))) /\
  (forall creature' message,
     evolve self creature arg = (creature', Ok (false, message)) ->
     (message = "No evolution paths available" /\ arg = None /\
      EvolutionSystem.get_available_evolutions self creature = []) \/
     (message = "Evolution conditions not met" /\
      exists path, arg = Some path /\
                   EvolutionPath.can_evolve path creature = false) \/
     (exists path,
        message = "Target type '" +:+ EvolutionPath.to_type path
                    +:+ "' not found" /\
        uses_path self creature arg path /\
        EvolutionPath.can_evolve path creature = true /\
        EvolutionSystem.creature_types self !! EvolutionPath.to_type path
          = None)) /\
  (forall e,
     (exists creature', evolve self creature arg = (creature', Raise e)) <->
     exists path target,
       uses_path self creature arg path /\
       EvolutionPath.can_evolve path creature = true /\
       EvolutionSystem.creature_types self !! EvolutionPath.to_type path
         = Some target /\
       (calculate_stats_at_level (CreatureType.stat_growth target)
          (CreatureType.base_stats target) (Creature.level creature) = Raise e
        \/
        exists new_base,
          calculate_stats_at_level (CreatureType.stat_growth target)
            (CreatureType.base_stats target) (Creature.level creature)
            = Ok new_base /\
          get_effective_stats
            (Creature.set_base_stats new_base
               (Creature.set_creature_type target creature)) = Raise e)).
Proof.
  split; [|split; [|split; [|split]]].
  - intros -> Hnone. unfold EvolutionSystem.evolve. by rewrite Hnone.
  - intros path Hpath Hcan. rewrite (evolve_with_path _ _ _ _ Hpath).
    unfold EvolutionSystem.evolve. by rewrite Hcan.
  - intros path Hpath Hcan Htarget. rewrite (evolve_with_path _ _ _ _ Hpath).
    unfold EvolutionSystem.evolve. by rewrite Hcan, Htarget.
  - intros creature' message.
    destruct arg as [path|].
    + unfold EvolutionSystem.evolve.
      destruct (EvolutionPath.can_evolve path creature) eqn:Hcan; cbn [negb].
      * destruct (EvolutionSystem.creature_types self
                    !! EvolutionPath.to_type path) as [target|] eqn:Htarget.
        -- destruct (calculate_stats_at_level _ _ _); [|intros [=]].
           destruct (get_effective_stats _); intros [=].
        -- intros [= <- <-]. right; right. exists path.
           split; [done|]. split; [by left|]. by split.
      * intros [= <- <-]. right; left. split; [done|]. by exists path.
    + unfold EvolutionSystem.evolve.
      destruct (EvolutionSystem.get_available_evolutions self creature)
        as [|path rest] eqn:Havail.
      * intros [= <- <-]. by left.
      * assert (Huse : uses_path self creature None path)
          by (right; split; [done|]; by exists rest).
        destruct (uses_path_available _ _ _ Huse) as [Hcan _].
        rewrite Hcan. cbn [negb].
        destruct (EvolutionSystem.creature_types self
                    !! EvolutionPath.to_type path) as [target|] eqn:Htarget.
        -- destruct (calculate_stats_at_level _ _ _); [|intros [=]].
           destruct (get_effective_stats _); intros [=].
        -- intros [= <- <-]. right; right. exists path.
           split; [done|]. split; [done|]. by split.
  - intros e. split.
    + intros [creature' H].
      assert (Hpath : arg = None /\
                      EvolutionSystem.get_available_evolutions self creature = []
                      \/ exists path, uses_path self creature arg path).
      { destruct arg as [path|]; [right; exists path; by left|].
        destruct (EvolutionSystem.get_available_evolutions self creature)
          as [|path rest] eqn:Havail; [by left|].
        right. exists path. right. split; [done|]. by exists rest. }
      destruct Hpath as [[-> Hnone]|[path Hpath]].
      { unfold EvolutionSystem.evolve in H. rewrite Hnone in H.
        discriminate H. }
      rewrite (evolve_with_path _ _ _ _ Hpath) in H.
      unfold EvolutionSystem.evolve in H.
      destruct (EvolutionPath.can_evolve path creature) eqn:Hcan;
        cbn [negb] in H; [|discriminate H].
      destruct (EvolutionSystem.creature_types self
                  !! EvolutionPath.to_type path) as [target|] eqn:Htarget;
        [|discriminate H].
      cbn [Creature.level Creature.set_creature_type] in H.
      exists path, target. split; [assumption|]. split; [exact Hcan|].
      split; [exact Htarget|].
      destruct (calculate_stats_at_level _ _ _) as [new_base|e1] eqn:Hb.
      * right. exists new_base. split; [reflexivity|].
        destruct (get_effective_stats _) as [effective|e2] eqn:He;
          [discriminate H|].
        injection H as _ <-. reflexivity.
      * left. injection H as _ <-. reflexivity.
    + intros (path & target & Hpath & Hcan & Htarget & Hraise).
      rewrite (evolve_with_path _ _ _ _ Hpath).
      unfold EvolutionSystem.evolve. rewrite Hcan. cbn [negb].
      rewrite Htarget. cbn [Creature.level Creature.set_creature_type].
      destruct Hraise as [Hb|(new_base & Hb & He)].
      * rewrite Hb. by eexists.
      * rewrite Hb, He. by eexists.
Qed.

(** C10. When [evolve] returns failure the creature is as it was: the
    same species, base stats, stats, level, energy and traits, and so
    the same effective stats. *)
Theorem evolve_failure_leaves_creature (self : EvolutionSystem.t)
        (creature creature' : Creature.t) (arg : option EvolutionPath.t)
        (message : string) :
  evolve self creature arg = (creature', Ok (false, message)) ->
  creature' = creature /\
  Creature.creature_type creature' = Creature.creature_type creature /\
  Creature.base_stats creature' = Creature.base_stats creature /\
  Creature.stats creature' = Creature.stats creature /\
  get_effective_stats creature' = get_effective_stats creature /\
  Creature.level creature' = Creature.level creature /\
  Creature.energy creature' = Creature.energy creature.
Proof.
  intros H.
  assert (E : creature' = creature); [|by rewrite E].
  unfold EvolutionSystem.evolve in H.
  destruct arg as [path|].
  - destruct (EvolutionPath.can_evolve path creature); cbn [negb] in H;
      [|by injection H].
    destruct (EvolutionSystem.creature_types self !! _); [|by injection H].
    destruct (calculate_stats_at_level _ _ _); [|discriminate H].
    destruct (get_effective_stats _); discriminate H.
  - destruct (EvolutionSystem.get_available_evolutions self creature)
      as [|path rest]; [by injection H|].
    destruct (EvolutionPath.can_evolve path creature); cbn [negb] in H;
      [|by injection H].
    destruct (EvolutionSystem.creature_types self !! _); [|by injection H].
    destruct (calculate_stats_at_level _ _ _); [|discriminate H].
    destruct (get_effective_stats _); discriminate H.
Qed.

End EvolveFacts.

Lemma evolve_success_witness :
  exists creature',
    EvolutionSystem.evolve effective_is_base create_example_evolution_system
      (creature_of base_type 10) None =
    (creature',
     Ok (true, "Evolved from "
                 +:+ CreatureType.name
                       (Creature.creature_type (creature_of base_type 10))
                 +:+ " to " +:+ CreatureType.name warrior_type +:+ "!")) /\
    Creature.creature_type creature' = warrior_type /\
    Creature.base_stats creature' = mkStats 235 235 46 34 17 28 28 /\
    Creature.level creature' = Creature.level (creature_of base_type 10) /\
    Creature.stats creature'
      = set_hp (max_hp (mkStats 235 235 46 34 17 28 28))
               (mkStats 235 235 46 34 17 28 28) /\
    hp (Creature.stats creature') = max_hp (Creature.stats creature') /\
    Creature.energy creature' = Creature.max_energy creature' /\
    Creature.max_energy creature'
      = Creature.max_energy (creature_of base_type 10) /\
    Creature.traits creature' = Creature.traits (creature_of base_type 10).
Proof.
  apply (evolve_success effective_is_base create_example_evolution_system
           (creature_of base_type 10) None to_warrior warrior_type
           (mkStats 235 235 46 34 17 28 28) (mkStats 235 235 46 34 17 28 28)).
  - right. split; [reflexivity|]. exists [to_speedster]. reflexivity.
  - reflexivity.
  - reflexivity.
  - vm_compute. reflexivity.
  - reflexivity.
Defined.

Lemma evolve_failure_outcomes_witness :
  EvolutionSystem.evolve effective_is_base create_example_evolution_system
    (creature_of base_type 9) None
  = (creature_of base_type 9, Ok (false, "No evolution paths available")) /\
  EvolutionSystem.evolve effective_is_base create_example_evolution_system
    (creature_of base_type 9) (Some to_speedster)
  = (creature_of base_type 9, Ok (false, "Evolution conditions not met")) /\
  EvolutionSystem.evolve effective_is_base create_example_evolution_system
    (creature_of base_type 10) (Some to_nowhere)
  = (creature_of base_type 10,
     Ok (false, "Target type '" +:+ EvolutionPath.to_type to_nowhere
                  +:+ "' not found")).
Proof.
  split; [|split].
  - apply (evolve_failure_outcomes effective_is_base
             create_example_evolution_system (creature_of base_type 9) None);
      reflexivity.
  - apply (evolve_failure_outcomes effective_is_base
             create_example_evolution_system (creature_of base_type 9)
             (Some to_speedster)) with (path := to_speedster).
    + left. reflexivity.
    + reflexivity.
  - apply (evolve_failure_outcomes effective_is_base
             create_example_evolution_system (creature_of base_type 10)
             (Some to_nowhere)) with (path := to_nowhere).
    + left. reflexivity.
    + reflexivity.
    + reflexivity.
Defined.

Lemma evolve_failure_leaves_creature_witness :
  let creature := creature_of base_type 10 in
  creature = creature /\
  Creature.creature_type creature = Creature.creature_type creature /\
  Creature.base_stats creature = Creature.base_stats creature /\
  Creature.stats creature = Creature.stats creature /\
  effective_is_base creature = effective_is_base creature /\
  Creature.level creature = Creature.level creature /\
  Creature.energy creature = Creature.energy creature.
Proof.
  apply (evolve_failure_leaves_creature effective_is_base
           create_example_evolution_system (creature_of base_type 10)
           (creature_of base_type 10) (Some to_nowhere)
           "Target type 'Dragon' not found").
  reflexivity.
Defined.

(** C5 as stated fails in two ways.  In a system whose first registered
    path from "Newborn" leads to an unregistered species and whose
    second leads to "Warrior", a level-10 newborn satisfies the
    registered path to "Warrior", whose target is registered; [evolve]
    without a path takes the first path it qualifies for and returns a
    failure.  And with the path passed in, satisfied and its target
    registered, [evolve] raises when the target's stats do not fit a
    float. *)
Lemma evolve_success_counterexample :
  (In to_warrior (EvolutionSystem.evolution_paths detour_system) /\
   EvolutionPath.can_evolve to_warrior (creature_of base_type 10) = true /\
   EvolutionSystem.creature_types detour_system
     !! EvolutionPath.to_type to_warrior = Some warrior_type /\
   EvolutionSystem.evolve effective_is_base detour_system
     (creature_of base_type 10) None
   = (creature_of base_type 10,
      Ok (false, "Target type 'Dragon' not found"))) /\
  (In to_giant (EvolutionSystem.evolution_paths system_with_giant) /\
   EvolutionPath.can_evolve to_giant (creature_of base_type 10) = true /\
   EvolutionSystem.creature_types system_with_giant
     !! EvolutionPath.to_type to_giant = Some giant_type /\
   snd (EvolutionSystem.evolve effective_is_base system_with_giant
          (creature_of base_type 10) (Some to_giant))
   = Raise OverflowError).
Proof.
  split.
  - split; [right; left; reflexivity|]. split; [reflexivity|].
    split; reflexivity.
  - split; [right; right; left; reflexivity|]. split; [reflexivity|].
    split; [reflexivity|]. vm_compute. reflexivity.
Qed.

(** C6 as stated fails: [evolve] can abort.  For a level-12 newborn and
    the path to a registered species whose base max hp does not fit a
    float, the stat recomputation raises [OverflowError] and [evolve]
    passes it on instead of returning a pair. *)
Lemma evolve_aborts_counterexample :
  EvolutionPath.can_evolve to_giant (creature_of base_type 12) = true /\
  EvolutionSystem.creature_types system_with_giant
    !! EvolutionPath.to_type to_giant = Some giant_type /\
  snd (EvolutionSystem.evolve effective_is_base system_with_giant
         (creature_of base_type 12) (Some to_giant))
  = Raise OverflowError /\
  forall success message,
    snd (EvolutionSystem.evolve effective_is_base system_with_giant
           (creature_of base_type 12) (Some to_giant))
    <> Ok (success, message).
Proof.
  split; [reflexivity|]. split; [reflexivity|].
  assert (E : snd (EvolutionSystem.evolve effective_is_base system_with_giant
                     (creature_of base_type 12) (Some to_giant))
              = Raise OverflowError) by (vm_compute; reflexivity).
  split; [exact E|]. intros success message. rewrite E. discriminate.
Qed.

(* ===================================================================== *)
(** * Fast curve against slow curve *)
(* ===================================================================== *)

(** The attack field of the result is [grown] from the base attack. *)
Lemma calculate_stats_attack (g : StatGrowth) (base t : Stats) (level : Z) :
  calculate_stats_at_level g base level = Ok t ->
  grown (attack base) (attack_growth g) level (_get_growth_multiplier g level)
  = Ok (attack t).
Proof.
  unfold calculate_stats_at_level.
  destruct (grown (max_hp base) _ _ _); [|discriminate].
  rewrite !result_bind_Ok.
  destruct (grown (attack base) _ _ _); [|discriminate].
  destruct (grown (defense base) _ _ _); [|discriminate].
  destruct (grown (speed base) _ _ _); [|discriminate].
  destruct (grown (special_attack base) _ _ _); [|discriminate].
  destruct (grown (special_defense base) _ _ _); [|discriminate].
  rewrite !result_bind_Ok. intros [= <-]. reflexivity.
Qed.

Lemma growth_multiplier_fast (g : StatGrowth) (level : Z) :
  growth_curve g = "fast" -> _get_growth_multiplier g level = f1_2.
Proof. unfold _get_growth_multiplier. intros ->. reflexivity. Qed.

Lemma growth_multiplier_slow (g : StatGrowth) (level : Z) :
  growth_curve g = "slow" -> _get_growth_multiplier g level = f0_8.
Proof. unfold _get_growth_multiplier. intros ->. reflexivity. Qed.

Lemma value_f0_8_f1_2 : 0 < value f0_8 /\ value f0_8 <= value f1_2.
Proof.
  unfold f0_8, f1_2. cbn [value].
  pose proof (pow2_pos (-53 - base) ltac:(unfold base; lia)) as Hp.
  replace (-52 - base) with ((-53 - base) + 1) by lia.
  rewrite pow2_split by (unfold base; lia). change (2 ^ 1) with 2.
  lia.
Qed.

(** With a larger multiplier the stat grown from a non-negative base at a
    non-negative rate is not smaller. *)
Lemma grown_mono_multiplier (a level t1 t2 : Z) (r c1 c2 : float) :
  0 <= a -> 1 <= level ->
  finite_nonneg r -> finite_nonneg c1 -> finite_nonneg c2 ->
  0 < value c1 -> value c1 <= value c2 ->
  grown a r level c1 = Ok t1 -> grown a r level c2 = Ok t2 ->
  t1 <= t2.
Proof.
  intros Ha Hlevel Fr F1 F2 Hpos Hv.
  unfold grown, float_mul_int, int_add_float.
  destruct (float_of_int (level - 1)) as [K|] eqn:EK; [|discriminate].
  destruct (float_of_int a) as [A|] eqn:EA; [|discriminate].
  cbn [mbind result_bind rbind]. intros H1 H2.
  pose proof (float_of_int_nonneg (level - 1) K ltac:(lia) EK) as FK.
  pose proof (float_of_int_nonneg _ _ Ha EA) as FA.
  assert (HX : canonical_nonneg (fmul r K))
    by (rewrite fmul_round by assumption; apply round_val_canonical).
  destruct (fmul_mono_r (fmul r K) c1 c2 HX F1 F2 Hpos Hv) as (Y1 & Y2 & HY).
  destruct (fadd_mono_r A _ _ FA Y1 Y2 HY) as (Z1 & Z2 & HZ).
  exact (int_of_float_mono _ _ _ _ Z1 Z2 HZ H1 H2).
Qed.

(** ** When the fast curve is strictly ahead

    The integer parts of two sums [a + ys] and [a + yf] differ as soon
    as an integer lies between [ys] and [yf], a little above [ys].  The
    rounding of binary64 moves a value by at most [2^-53] of itself,
    which below 2^50 is less than 1/8. *)

Section RoundingError.

(** What [finish] is worth. *)
Lemma value_finish (q e : Z) :
  rounded_ok q e -> is_finite (finish false q e) = true ->
  value (finish false q e) = q * 2 ^ (e - base).
Proof.
  intros (Hq & He & _) Hf. unfold finish in *.
  destruct (Z.eqb_spec q 0) as [->|Hq0]; [cbn [value]; lia|].
  destruct (Z.eqb_spec q (2 ^ 53)) as [->|Hq53].
  - destruct (e + 1 <=? 971); [|discriminate Hf].
    cbn [value]. replace (e + 1 - base) with ((e - base) + 1) by lia.
    rewrite pow2_split by (unfold base; lia).
    change (Zpos (Z.to_pos (2 ^ 52))) with (2 ^ 52).
    change (2 ^ 53) with (2 ^ 52 * 2). change (2 ^ 1) with 2. ring.
  - destruct (e <=? 971); [|discriminate Hf].
    cbn [value]. rewrite Z2Pos.id by lia. reflexivity.
Qed.

(** Rounding to nearest moves a number by at most half a unit. *)
Lemma rne_error (M : Z) (k : nat) :
  0 <= M ->
  2 * (rne M k * 2 ^ Z.of_nat k) <= 2 * M + 2 ^ Z.of_nat k /\
  2 * M <= 2 * (rne M k * 2 ^ Z.of_nat k) + 2 ^ Z.of_nat k.
Proof.
  intros HM. unfold rne.
  pose proof (pow2_pos (Z.of_nat k) ltac:(lia)) as Hp.
  set (p := 2 ^ Z.of_nat k) in *.
  pose proof (Z.div_mod M p ltac:(lia)) as Hdm.
  pose proof (Z.mod_pos_bound M p Hp) as Hr.
  set (q := M / p) in *. set (r := M mod p) in *.
  destruct (Z.ltb_spec (2 * r) p); [nia|].
  destruct (Z.ltb_spec p (2 * r)); [nia|].
  destruct (Z.even q); nia.
Qed.

(** The relative error of rounding is at most [2^-53], apart from an
    absolute error of half the least unit in the subnormal range. *)
Lemma round_val_error (v : Z) :
  0 <= v -> is_finite (round_val v) = true ->
  2 ^ 53 * value (round_val v) <= (2 ^ 53 + 1) * v + 2 ^ 1126 /\
  (2 ^ 53 - 1) * v <= 2 ^ 53 * value (round_val v) + 2 ^ 1126.
Proof.
  intros Hv Hf. destruct v as [|N|N]; [cbn [round_val value]; lia| |lia].
  cbn [round_val] in *. unfold round_at in *.
  assert (Hle : base <= target_exponent N base)
    by (unfold target_exponent, base; lia).
  pose proof (rne_rounded_ok N base Hle) as Hok.
  rewrite (value_finish _ _ Hok Hf).
  set (te := target_exponent N base) in *.
  destruct (rne_error (Zpos N) (Z.to_nat (te - base)) ltac:(lia)) as [Hup Hlo].
  rewrite Z2Nat.id in Hup, Hlo by lia.
  set (R := rne (Zpos N) (Z.to_nat (te - base)) * 2 ^ (te - base)) in *.
  assert (Hunit : 2 ^ 52 * 2 ^ (te - base) <= Zpos N + 2 ^ 1126).
  { pose proof (digits2_pos_bounds N) as [Hd _].
    unfold te, target_exponent in *.
    destruct (Z.max_spec (Zpos (digits2_pos N) + base - 53) (-1074))
      as [[Hcmp ->]|[Hcmp ->]].
    - change (-1074 - base) with 1074.
      rewrite <- pow2_split by lia. change (52 + 1074) with 1126. lia.
    - replace (Zpos (digits2_pos N) + base - 53 - base)
        with (Zpos (digits2_pos N) - 53) by lia.
      assert (0 <= Zpos (digits2_pos N) - 53) by (unfold base in *; lia).
      rewrite <- pow2_split by lia.
      replace (52 + (Zpos (digits2_pos N) - 53))
        with (Zpos (digits2_pos N) - 1) by lia.
      pose proof (pow2_pos 1126 ltac:(lia)). lia. }
  change (2 ^ 53) with (2 * 2 ^ 52).
  set (P52 := 2 ^ 52) in *. set (unit := 2 ^ (te - base)) in *.
  assert (0 < P52) by (apply pow2_pos; lia).
  nia.
Qed.

End RoundingError.

Section Separation.

(** An integer below 2^53 is a float, exactly. *)
Lemma float_of_exact (n : Z) :
  0 <= n < 2 ^ 53 ->
  exists x, float_of_int n = Ok x /\ finite_nonneg x /\
            value x = n * 2 ^ (- base).
Proof.
  intros Hn.
  destruct (int_float_roundtrip n false ltac:(lia)) as (x & Hx & _).
  exists x. split; [assumption|].
  split; [apply (float_of_int_nonneg n x); [lia|assumption]|].
  destruct n as [|p|p]; [| |lia].
  { injection Hx as <-. reflexivity. }
  unfold float_of_int in Hx. cbn [binary_normalize] in Hx.
  destruct (binary_round_small false p) as (m & e & E & He & Hm); [lia|].
  rewrite E in Hx. cbn [is_finite] in Hx. injection Hx as <-.
  cbn [value]. rewrite Hm.
  replace (- base) with ((- e) + (e - base)) by lia.
  rewrite pow2_split by (unfold base; lia). ring.
Qed.

(** The order of two finite floats, read off their comparison. *)
Lemma fleb_value (x y : float) :
  finite_nonneg x -> finite_nonneg y -> fleb x y = true ->
  value x <= value y.
Proof.
  intros Fx Fy Hle. apply ford_le_value; [assumption..|].
  destruct Fx as [Hx Fx], Fy as [Hy Fy].
  destruct x as [sx|sx| |sx mx ex], y as [sy|sy| |sy my ey];
    try discriminate Fx; try discriminate Fy;
    cbn [canonical_nonneg] in Hx, Hy; cbn [ford]; unfold raw_ord;
    change (2 ^ 53) with 9007199254740992 in *;
    change (2 ^ 52) with 4503599627370496 in *.
  - lia.
  - lia.
  - destruct Hx as (-> & _). discriminate Hle.
  - destruct Hx as (-> & Hex & Hmx & Hnx), Hy as (-> & Hey & Hmy & Hny).
    unfold fleb, SFleb in Hle. cbn [SFcompare] in Hle.
    destruct (Z.compare_spec ex ey) as [->|Hlt|Hgt].
    + change (Pos.compare_cont Eq mx my) with (Pos.compare mx my) in Hle.
      destruct (Pos.compare_spec mx my); try discriminate Hle; lia.
    + specialize (Hny ltac:(lia)). nia.
    + discriminate Hle.
Qed.

(** The integer part of a sum with an exact integer: if the float
    [ys] is at most [j + 7/8] and the float [yf] at least [j + 1], then
    below 2^50 the integer parts of [a + ys] and [a + yf] lie on the two
    sides of [a + j + 1]. *)
Lemma integer_between (a j slow fast : Z) (A ys yf : float) :
  0 <= a -> 0 <= j ->
  finite_nonneg A -> value A = a * 2 ^ (- base) ->
  finite_nonneg ys -> finite_nonneg yf ->
  8 * value ys <= (8 * j + 7) * 2 ^ (- base) ->
  (j + 1) * 2 ^ (- base) <= value yf ->
  int_of_float (fadd A ys) = Ok slow ->
  int_of_float (fadd A yf) = Ok fast ->
  fast < 2 ^ 50 ->
  slow <= a + j /\ a + j + 1 <= fast.
Proof.
  intros Ha Hj FA HA Fs Ff Hs Hf Es Ef Hfast.
  pose proof (pow2_pos (- base) ltac:(unfold base; lia)) as HU.
  assert (HE : 2 ^ 1126 * 16 <= 2 ^ (- base)).
  { change (- base) with (1126 + 1022).
    rewrite pow2_split by lia.
    pose proof (pow2_pos 1126 ltac:(lia)).
    assert (16 <= 2 ^ 1022) by (change 16 with (2 ^ 4); apply Z.pow_le_mono_r; lia).
    nia. }
  set (U := 2 ^ (- base)) in *. set (E1 := 2 ^ 1126) in *.
  rewrite fadd_round in Es, Ef by assumption.
  assert (Ffin : forall v r, int_of_float (round_val v) = Ok r ->
                             finite_nonneg (round_val v)).
  { intros v r Hr. split; [apply round_val_canonical|].
    destruct (round_val v); try reflexivity; discriminate Hr. }
  pose proof (Ffin _ _ Es) as FXs. pose proof (Ffin _ _ Ef) as FXf.
  rewrite (int_of_float_value _ FXs) in Es.
  rewrite (int_of_float_value _ FXf) in Ef.
  injection Es as <-. injection Ef as <-. fold U in Hfast |- *.
  assert (Hnonneg_s : 0 <= value ys)
    by (destruct ys; cbn [value]; lia).
  assert (Hnonneg_f : 0 <= value yf)
    by (destruct yf; cbn [value]; lia).
  (* the fast side: a + j + 1 is below 2^50, and exact *)
  assert (Hn : a + j + 1 < 2 ^ 50).
  { destruct (Z_lt_ge_dec (a + j + 1) (2 ^ 50)) as [|Hbig]; [assumption|].
    exfalso.
    destruct (float_of_exact (2 ^ 50) ltac:(lia)) as (I & _ & FI & HI).
    fold U in HI.
    assert (Hord : ford (round_val (value I))
                   <= ford (round_val (value A + value yf))).
    { apply round_val_mono. rewrite HI, HA. nia. }
    rewrite (round_val_value I FI) in Hord.
    pose proof (ford_le_value _ _ FI FXf Hord) as Hval. rewrite HI in Hval.
    assert (2 ^ 50 <= value (round_val (value A + value yf)) / U)
      by (apply Z.div_le_lower_bound; lia).
    lia. }
  split.
  - destruct (round_val_error (value A + value ys) ltac:(lia) (proj2 FXs))
      as [Hup _].
    fold E1 in Hup. rewrite HA in *.
    set (X := value (round_val (a * U + value ys))) in *.
    assert (HaU : 8 * (a * U) + 8 * (j * U) + 8 * U <= (2 ^ 53 - 8) * U).
    { change (2 ^ 53 - 8) with (8 * (2 ^ 50 - 1)).
      change (2 ^ 50) with 1125899906842624 in *. nia. }
    assert (X < (a + j + 1) * U).
    { change (2 ^ 53) with 9007199254740992 in *.
      set (aU := a * U) in *. set (jU := j * U) in *.
      replace ((a + j + 1) * U) with (aU + jU + U) by (unfold aU, jU; ring).
      replace ((8 * j + 7) * U) with (8 * jU + 7 * U) in Hs
        by (unfold jU; ring).
      lia. }
    assert (X / U < a + j + 1) by (apply Z.div_lt_upper_bound; lia).
    lia.
  - destruct (float_of_exact (a + j + 1)
                ltac:(change (2 ^ 50) with 1125899906842624 in Hn;
                      change (2 ^ 53) with 9007199254740992; lia))
      as (I & _ & FI & HI).
    fold U in HI.
    assert (Hord : ford (round_val (value I))
                   <= ford (round_val (value A + value yf))).
    { apply round_val_mono. rewrite HI, HA. nia. }
    rewrite (round_val_value I FI) in Hord.
    pose proof (ford_le_value _ _ FI FXf Hord) as Hval. rewrite HI in Hval.
    apply Z.div_le_lower_bound; lia.
Qed.

End Separation.

Section GrowthTerms.

Lemma finite_nonneg_f1_2 : finite_nonneg f1_2.
Proof. canonical_constant. Qed.

Lemma finite_nonneg_f0_8 : finite_nonneg f0_8.
Proof. canonical_constant. Qed.

Lemma finite_nonneg_f2_5 : finite_nonneg f2_5.
Proof. canonical_constant. Qed.

Lemma finite_nonneg_f3_0 : finite_nonneg f3_0.
Proof. canonical_constant. Qed.

Lemma value_nonneg (x : float) : 0 <= value x.
Proof. destruct x; cbn [value]; lia. Qed.

(** The value of a concrete float, in units of [2^(-53 - base)]. *)
Lemma value_units (m : positive) (e : Z) :
  -53 <= e ->
  value (S754_finite false m e) = Zpos m * 2 ^ (e + 53) * 2 ^ (-53 - base).
Proof.
  intros He. cbn [value].
  replace (e - base) with ((e + 53) + (-53 - base)) by lia.
  rewrite pow2_split by (unfold base; lia). ring.
Qed.

Lemma one_units : 2 ^ (- base) = 2 ^ 53 * 2 ^ (-53 - base).
Proof.
  replace (- base) with (53 + (-53 - base)) by lia.
  apply pow2_split; unfold base; lia.
Qed.

(** The product of a growth term with a curve multiplier, before
    rounding. *)
Lemma product_with_f1_2 (g : float) :
  finite_nonneg g -> 2 ^ 52 * product_value g f1_2 = 5404319552844595 * value g.
Proof.
  intros [Hc Hf]. destruct g as [s|s| |s m e]; try discriminate Hf;
    [reflexivity|].
  destruct Hc as (_ & He & _). unfold f1_2. cbn [product_value value].
  replace (e - base) with (52 + (e + -52 - base)) by lia.
  rewrite pow2_split by (unfold base; lia). ring.
Qed.

Lemma product_with_f0_8 (g : float) :
  finite_nonneg g -> 2 ^ 53 * product_value g f0_8 = 7205759403792794 * value g.
Proof.
  intros [Hc Hf]. destruct g as [s|s| |s m e]; try discriminate Hf;
    [reflexivity|].
  destruct Hc as (_ & He & _). unfold f0_8. cbn [product_value value].
  replace (e - base) with (53 + (e + -53 - base)) by lia.
  rewrite pow2_split by (unfold base; lia). ring.
Qed.

(** From a growth term of 3.0 on, the fast and the slow product are more
    than 1.125 apart. *)
Lemma products_apart (g : float) :
  finite_nonneg g -> 3 * 2 ^ (- base) <= value g ->
  is_finite (fmul g f1_2) = true -> is_finite (fmul g f0_8) = true ->
  8 * value (fmul g f0_8) + 9 * 2 ^ (- base) <= 8 * value (fmul g f1_2).
Proof.
  intros Fg Hg Ff Fs.
  rewrite (fmul_round g f1_2 Fg finite_nonneg_f1_2) in *.
  rewrite (fmul_round g f0_8 Fg finite_nonneg_f0_8) in *.
  pose proof (product_with_f1_2 g Fg) as Ef.
  pose proof (product_with_f0_8 g Fg) as Es.
  assert (Hpf : 0 <= product_value g f1_2)
    by (change (2 ^ 52) with 4503599627370496 in Ef;
        pose proof (value_nonneg g); lia).
  assert (Hps : 0 <= product_value g f0_8)
    by (change (2 ^ 53) with 9007199254740992 in Es;
        pose proof (value_nonneg g); lia).
  destruct (round_val_error _ Hpf Ff) as [_ Hlo].
  destruct (round_val_error _ Hps Fs) as [Hup _].
  assert (HE : 2 ^ 1126 * 2 ^ 64 <= 2 ^ (- base)).
  { change (- base) with (1126 + 1022). rewrite pow2_split by lia.
    pose proof (pow2_pos 1126 ltac:(lia)).
    assert (2 ^ 64 <= 2 ^ 1022) by (apply Z.pow_le_mono_r; lia).
    nia. }
  set (U := 2 ^ (- base)) in *. set (E1 := 2 ^ 1126) in *.
  set (Pf := product_value g f1_2) in *.
  set (Ps := product_value g f0_8) in *.
  set (Yf := value (round_val Pf)) in *. set (Ys := value (round_val Ps)) in *.
  assert (0 < E1) by (apply pow2_pos; lia).
  change (2 ^ 53) with 9007199254740992 in *.
  change (2 ^ 52) with 4503599627370496 in *.
  change (2 ^ 64) with 18446744073709551616 in *.
  lia.
Qed.

End GrowthTerms.

Section StrictGrowth.

Lemma float_of_int_round (n : Z) :
  0 <= n ->
  binary_normalize prec emax n 0 false = round_val (n * 2 ^ (0 - base)).
Proof.
  intros Hn. destruct n as [|p|p]; [reflexivity| |lia].
  cbn [binary_normalize].
  pose proof (pow2_pos (0 - base) ltac:(unfold base; lia)) as Hp.
  destruct (Zpos p * 2 ^ (0 - base)) as [|N|N] eqn:EN; [lia| |lia].
  cbn [round_val].
  apply (binary_round_at false p N 0 base); [unfold base; lia..|by rewrite EN].
Qed.

Lemma value_le_ford (x y : float) :
  finite_nonneg x -> finite_nonneg y -> value x <= value y ->
  ford x <= ford y.
Proof.
  intros Fx Fy H. rewrite <- (round_val_value x Fx), <- (round_val_value y Fy).
  by apply round_val_mono.
Qed.

(** A rounded value below an exact integer is finite and below it. *)
Lemma round_val_below (v n : Z) :
  0 <= n < 2 ^ 53 -> v <= n * 2 ^ (- base) ->
  finite_nonneg (round_val v) /\ value (round_val v) <= n * 2 ^ (- base).
Proof.
  intros Hn Hv. destruct (float_of_exact n Hn) as (I & _ & FI & HI).
  assert (Hord : ford (round_val v) <= ford (round_val (value I)))
    by (apply round_val_mono; lia).
  rewrite (round_val_value I FI) in Hord.
  pose proof (ford_le_finite _ _ (round_val_canonical v) FI Hord) as F.
  split; [assumption|]. rewrite <- HI. by apply ford_le_value.
Qed.

Lemma value_f3_0 : value f3_0 = 3 * 2 ^ (- base).
Proof.
  unfold f3_0. rewrite value_units by lia. rewrite one_units.
  change (2 ^ (-51 + 53)) with 4. change (2 ^ 53) with 9007199254740992. lia.
Qed.

(** From a growth term of 2.5 on, an integer lies between the slow and
    the fast product, at least 1/8 above the slow one. *)
Lemma growth_terms_separated (g : float) :
  finite_nonneg g -> value f2_5 <= value g ->
  is_finite (fmul g f1_2) = true -> is_finite (fmul g f0_8) = true ->
  exists j, 0 <= j /\
    8 * value (fmul g f0_8) <= (8 * j + 7) * 2 ^ (- base) /\
    (j + 1) * 2 ^ (- base) <= value (fmul g f1_2).
Proof.
  intros Fg Hg Ff Fs.
  pose proof (pow2_pos (- base) ltac:(unfold base; lia)) as HU.
  destruct (Z_le_gt_dec (3 * 2 ^ (- base)) (value g)) as [Hwide|Hnarrow].
  - pose proof (products_apart g Fg Hwide Ff Fs) as Hapart.
    pose proof (value_nonneg (fmul g f0_8)) as Hs.
    set (U := 2 ^ (- base)) in *.
    set (Yf := value (fmul g f1_2)) in *. set (Ys := value (fmul g f0_8)) in *.
    pose proof (Z.div_mod Yf U ltac:(lia)) as Hdm.
    pose proof (Z.mod_pos_bound Yf U HU) as Hr.
    assert (1 <= Yf / U) by (apply Z.div_le_lower_bound; lia).
    exists (Yf / U - 1). split; [lia|]. split; nia.
  - exists 2.
    assert (Ffin : finite_nonneg (fmul g f1_2) /\ finite_nonneg (fmul g f0_8)).
    { rewrite (fmul_round g f1_2 Fg finite_nonneg_f1_2) in *.
      rewrite (fmul_round g f0_8 Fg finite_nonneg_f0_8) in *.
      split; (split; [apply round_val_canonical|assumption]). }
    destruct Ffin as [FYf FYs].
    assert (Hs : ford (fmul g f0_8) <= ford (fmul f3_0 f0_8)).
    { rewrite (fmul_round g f0_8 Fg finite_nonneg_f0_8),
        (fmul_round f3_0 f0_8 finite_nonneg_f3_0 finite_nonneg_f0_8).
      apply round_val_mono.
      rewrite (product_value_comm g), (product_value_comm f3_0).
      apply product_value_mono;
        [apply finite_nonneg_f0_8|assumption|apply finite_nonneg_f3_0|].
      rewrite value_f3_0. lia. }
    assert (Hf : ford (fmul f2_5 f1_2) <= ford (fmul g f1_2)).
    { rewrite (fmul_round g f1_2 Fg finite_nonneg_f1_2),
        (fmul_round f2_5 f1_2 finite_nonneg_f2_5 finite_nonneg_f1_2).
      apply round_val_mono.
      rewrite (product_value_comm g), (product_value_comm f2_5).
      apply product_value_mono;
        [apply finite_nonneg_f1_2|apply finite_nonneg_f2_5|assumption..]. }
    assert (F1 : finite_nonneg (fmul f3_0 f0_8)) by canonical_constant.
    assert (F2 : finite_nonneg (fmul f2_5 f1_2)) by canonical_constant.
    apply (ford_le_value _ _ FYs F1) in Hs.
    apply (ford_le_value _ _ F2 FYf) in Hf.
    change (fmul f3_0 f0_8) with (S754_finite false 5404319552844596 (-51)) in Hs.
    change (fmul f2_5 f1_2) with (S754_finite false 6755399441055744 (-51)) in Hf.
    rewrite value_units in Hs, Hf by lia. rewrite one_units.
    change (2 ^ (-51 + 53)) with 4 in *.
    change (2 ^ 53) with 9007199254740992.
    pose proof (pow2_pos (-53 - base) ltac:(unfold base; lia)).
    set (Q := 2 ^ (-53 - base)) in *.
    split; [lia|]. split; nia.
Qed.

(** The growth terms at which the fast curve is proved to pass the slow
    one: 1.0, 2.0, and everything from 2.5 on. *)
Lemma separated_at (g : float) :
  canonical_nonneg g ->
  g = f1_0 \/ g = f2_0 \/ fleb f2_5 g = true ->
  finite_nonneg (fmul g f1_2) -> finite_nonneg (fmul g f0_8) ->
  exists j, 0 <= j /\
    8 * value (fmul g f0_8) <= (8 * j + 7) * 2 ^ (- base) /\
    (j + 1) * 2 ^ (- base) <= value (fmul g f1_2).
Proof.
  intros Hg Hcase [_ Ff] [_ Fs].
  pose proof (pow2_pos (-53 - base) ltac:(unfold base; lia)) as HQ.
  destruct Hcase as [->|[->|Hle]].
  - exists 0.
    change (fmul f1_0 f0_8) with (S754_finite false 7205759403792794 (-53)).
    change (fmul f1_0 f1_2) with (S754_finite false 5404319552844595 (-52)).
    rewrite !value_units by lia. rewrite one_units.
    change (2 ^ (-53 + 53)) with 1. change (2 ^ (-52 + 53)) with 2.
    change (2 ^ 53) with 9007199254740992.
    set (Q := 2 ^ (-53 - base)) in *. split; [lia|]. split; nia.
  - exists 1.
    change (fmul f2_0 f0_8) with (S754_finite false 7205759403792794 (-52)).
    change (fmul f2_0 f1_2) with (S754_finite false 5404319552844595 (-51)).
    rewrite !value_units by lia. rewrite one_units.
    change (2 ^ (-52 + 53)) with 2. change (2 ^ (-51 + 53)) with 4.
    change (2 ^ 53) with 9007199254740992.
    set (Q := 2 ^ (-53 - base)) in *. split; [lia|]. split; nia.
  - destruct (canonical_cases g Hg) as [Fg| ->]; [|discriminate Ff].
    apply growth_terms_separated; try assumption.
    apply fleb_value; [apply finite_nonneg_f2_5|assumption..].
Qed.

(** [grown] once the growth term is known. *)
Lemma grown_with_term (a level : Z) (r c g : float) :
  float_mul_int r (level - 1) = Ok g ->
  grown a r level c
  = (A ← float_of_int a; int_of_float (fadd A (fmul g c))).
Proof.
  intros Hg. unfold grown, int_add_float. rewrite Hg, result_bind_Ok.
  by destruct (float_of_int a).
Qed.

(** Whenever an integer separates the growth terms as above, the stat
    grown on the fast curve is strictly above the one grown on the slow
    curve, below 2^50. *)
Lemma grown_strict (a level fast slow : Z) (r g : float) :
  0 <= a ->
  float_mul_int r (level - 1) = Ok g -> canonical_nonneg g ->
  g = f1_0 \/ g = f2_0 \/ fleb f2_5 g = true ->
  grown a r level f1_2 = Ok fast -> grown a r level f0_8 = Ok slow ->
  fast < 2 ^ 50 ->
  slow < fast.
Proof.
  intros Ha Hg Cg Hcase Ef Es Hfast.
  rewrite (grown_with_term a level r f1_2 g Hg) in Ef.
  rewrite (grown_with_term a level r f0_8 g Hg) in Es.
  destruct (float_of_int a) as [A|] eqn:EA; [|discriminate Ef].
  rewrite result_bind_Ok in Ef. rewrite result_bind_Ok in Es.
  pose proof (float_of_int_nonneg a A Ha EA) as FA.
  pose proof (pow2_pos (- base) ltac:(unfold base; lia)) as HU.
  (* the growth term and both products are finite *)
  assert (Fg : finite_nonneg g).
  { destruct (canonical_cases g Cg) as [F| ->]; [assumption|].
    change (fmul (S754_infinity false) f1_2) with (S754_infinity false) in Ef.
    rewrite (fadd_infinity A FA) in Ef. discriminate Ef. }
  assert (FYf : finite_nonneg (fmul g f1_2)).
  { assert (C : canonical_nonneg (fmul g f1_2))
      by (rewrite (fmul_round g f1_2 Fg finite_nonneg_f1_2);
          apply round_val_canonical).
    destruct (canonical_cases _ C) as [F|E]; [assumption|].
    rewrite E, (fadd_infinity A FA) in Ef. discriminate Ef. }
  assert (FYs : finite_nonneg (fmul g f0_8)).
  { assert (C : canonical_nonneg (fmul g f0_8))
      by (rewrite (fmul_round g f0_8 Fg finite_nonneg_f0_8);
          apply round_val_canonical).
    destruct (canonical_cases _ C) as [F|E]; [assumption|].
    rewrite E, (fadd_infinity A FA) in Es. discriminate Es. }
  (* the base is below 2^50, so its float is exact *)
  assert (Hsmall : a < 2 ^ 50).
  { destruct (Z_lt_ge_dec a (2 ^ 50)) as [|Hbig]; [assumption|]. exfalso.
    destruct (float_of_exact (2 ^ 50) ltac:(lia)) as (I & _ & FI & HI).
    assert (HA : value I <= value A).
    { apply ford_le_value; [assumption..|].
      unfold float_of_int in EA.
      destruct (is_finite _); [|discriminate EA]. injection EA as <-.
      rewrite (float_of_int_round a Ha), <- (round_val_value I FI).
      apply round_val_mono. rewrite HI. change (0 - base) with (- base). nia. }
    assert (FX : finite_nonneg (fadd A (fmul g f1_2))).
    { rewrite fadd_round in * by assumption.
      split; [apply round_val_canonical|].
      destruct (round_val _); try reflexivity; discriminate Ef. }
    rewrite (int_of_float_value _ FX) in Ef. injection Ef as <-.
    assert (Hord : ford I <= ford (fadd A (fmul g f1_2))).
    { rewrite fadd_round by assumption. rewrite <- (round_val_value I FI).
      apply round_val_mono. pose proof (value_nonneg (fmul g f1_2)). lia. }
    pose proof (ford_le_value _ _ FI FX Hord) as Hval. rewrite HI in Hval.
    assert (2 ^ 50 <= value (fadd A (fmul g f1_2)) / 2 ^ (- base))
      by (apply Z.div_le_lower_bound; lia).
    lia. }
  destruct (float_of_exact a ltac:(change (2 ^ 50) with 1125899906842624 in Hsmall;
                                   change (2 ^ 53) with 9007199254740992; lia))
    as (A' & EA' & _ & HA).
  rewrite EA in EA'. injection EA' as <-.
  destruct (separated_at g Cg Hcase FYf FYs) as (j & Hj & Hs & Hf).
  destruct (integer_between a j slow fast A _ _ Ha Hj FA HA FYs FYf Hs Hf Es Ef
              Hfast).
  lia.
Qed.

End StrictGrowth.

Section DefaultRate.

Lemma finite_nonneg_f2_0 : finite_nonneg f2_0.
Proof. canonical_constant. Qed.

Lemma value_f2_0 : value f2_0 = 2 * 2 ^ (- base).
Proof.
  unfold f2_0. rewrite value_units by lia. rewrite one_units.
  change (2 ^ (-51 + 53)) with 4. change (2 ^ 53) with 9007199254740992. lia.
Qed.

Lemma value_f2_5 : 2 * value f2_5 = 5 * 2 ^ (- base).
Proof.
  unfold f2_5. rewrite value_units by lia. rewrite one_units.
  change (2 ^ (-51 + 53)) with 4. change (2 ^ 53) with 9007199254740992. lia.
Qed.

Lemma product_with_f2_0 (x : float) :
  finite_nonneg x -> product_value f2_0 x = 2 * value x.
Proof.
  intros [Hc Hf]. destruct x as [s|s| |s m e]; try discriminate Hf;
    [reflexivity|].
  destruct Hc as (_ & He & _). unfold f2_0. cbn [product_value value].
  replace (e - base) with (51 + (-51 + e - base)) by lia.
  rewrite pow2_split by (unfold base; lia).
  change (2 ^ 51) with 2251799813685248. lia.
Qed.

(** Floats are determined by their value. *)
Lemma value_inj (x y : float) :
  finite_nonneg x -> finite_nonneg y -> value x = value y -> x = y.
Proof.
  intros Fx Fy E.
  by rewrite <- (round_val_value x Fx), <- (round_val_value y Fy), E.
Qed.

(** The growth term at the default rate 2.0: exactly [2 * (level - 1)]. *)
Lemma default_growth_term (level : Z) :
  2 <= level <= 2 ^ 40 ->
  exists g,
    float_mul_int f2_0 (level - 1) = Ok g /\ finite_nonneg g /\
    value g = 2 * (level - 1) * 2 ^ (- base) /\
    (g = f1_0 \/ g = f2_0 \/ fleb f2_5 g = true).
Proof.
  intros Hl. change (2 ^ 40) with 1099511627776 in Hl.
  destruct (float_of_exact (level - 1)
              ltac:(change (2 ^ 53) with 9007199254740992; lia))
    as (K & EK & FK & HK).
  destruct (float_of_exact (2 * (level - 1))
              ltac:(change (2 ^ 53) with 9007199254740992; lia))
    as (G & _ & FG & HG).
  assert (E : fmul f2_0 K = G).
  { rewrite (fmul_round f2_0 K finite_nonneg_f2_0 FK), product_with_f2_0
      by assumption.
    rewrite <- (round_val_value G FG). f_equal. rewrite HK, HG. ring. }
  exists G. unfold float_mul_int. rewrite EK, result_bind_Ok, E.
  split; [reflexivity|]. split; [assumption|]. split; [assumption|].
  pose proof (pow2_pos (- base) ltac:(unfold base; lia)) as HU.
  destruct (Z.eq_dec level 2) as [->|Hne].
  - right; left. apply value_inj; [assumption|apply finite_nonneg_f2_0|].
    rewrite HG, value_f2_0. ring.
  - right; right. apply ford_le_fleb;
      [apply finite_nonneg_f2_5|apply FG|].
    apply value_le_ford; [apply finite_nonneg_f2_5|assumption|].
    pose proof value_f2_5. rewrite HG. nia.
Qed.

(** At the default rate a stat below 2^49 is computed at every level up
    to 2^40, and stays below 2^50. *)
Lemma default_rate_grown (a level : Z) (c : float) :
  0 <= a < 2 ^ 49 -> 2 <= level <= 2 ^ 40 ->
  finite_nonneg c -> value c <= value f2_0 ->
  exists v, grown a f2_0 level c = Ok v /\ v < 2 ^ 50.
Proof.
  intros Ha Hl Fc Hc.
  destruct (default_growth_term level Hl) as (g & Eg & Fg & Hg & _).
  change (2 ^ 40) with 1099511627776 in Hl.
  change (2 ^ 49) with 562949953421312 in Ha.
  pose proof (pow2_pos (- base) ltac:(unfold base; lia)) as HU.
  destruct (float_of_exact a ltac:(change (2 ^ 53) with 9007199254740992; lia))
    as (A & EA & FA & HA).
  rewrite (grown_with_term a level f2_0 c g Eg), EA, result_bind_Ok.
  assert (HP : product_value g c <= 4 * (level - 1) * 2 ^ (- base)).
  { etrans; [apply (product_value_mono g c f2_0 Fg Fc finite_nonneg_f2_0 Hc)|].
    rewrite product_value_comm, product_with_f2_0 by assumption. lia. }
  destruct (round_val_below _ (4 * (level - 1))
              ltac:(change (2 ^ 53) with 9007199254740992; lia) HP)
    as [FY HY].
  rewrite <- (fmul_round g c Fg Fc) in FY, HY.
  assert (HS : value A + value (fmul g c)
               <= (a + 4 * (level - 1)) * 2 ^ (- base)) by lia.
  destruct (round_val_below _ (a + 4 * (level - 1))
              ltac:(change (2 ^ 53) with 9007199254740992; lia) HS)
    as [FX HX].
  rewrite <- (fadd_round A _ FA FY) in FX, HX.
  rewrite (int_of_float_value _ FX). eexists. split; [reflexivity|].
  assert (value (fadd A (fmul g c)) / 2 ^ (- base) <= a + 4 * (level - 1)).
  { apply Z.div_le_upper_bound; lia. }
  change (2 ^ 50) with 1125899906842624. lia.
Qed.

Lemma curve_below_two : value f1_2 <= value f2_0 /\ value f0_8 <= value f2_0.
Proof.
  unfold f1_2, f0_8, f2_0. rewrite !value_units by lia.
  change (2 ^ (-52 + 53)) with 2. change (2 ^ (-53 + 53)) with 1.
  change (2 ^ (-51 + 53)) with 4.
  pose proof (pow2_pos (-53 - base) ltac:(unfold base; lia)).
  split; nia.
Qed.

End DefaultRate.

Section RateAndLevel.

Lemma product_value_one (x : float) :
  finite_nonneg x -> product_value x f1_0 = value x.
Proof.
  intros [Hc Hf]. destruct x as [s|s| |s m e]; try discriminate Hf;
    [reflexivity|].
  destruct Hc as (_ & He & _).
  unfold f1_0. cbn [product_value value].
  replace (e - base) with (52 + (e + -52 - base)) by lia.
  rewrite pow2_split by (unfold base; lia).
  change (2 ^ 52) with 4503599627370496. lia.
Qed.

(** Multiplying by 1.0 and adding 0.0 change nothing. *)
Lemma fmul_one (x : float) : finite_nonneg x -> fmul x f1_0 = x.
Proof.
  intros F. assert (F1 : finite_nonneg f1_0)
    by (split; [apply canonical_f1_0|reflexivity]).
  rewrite fmul_round, product_value_one by assumption.
  by apply round_val_value.
Qed.

(** A smaller integer converts when a larger one does, to a float that
    is not larger. *)
Lemma float_of_int_mono (n1 n2 : Z) (K2 : float) :
  0 <= n1 <= n2 -> float_of_int n2 = Ok K2 ->
  exists K1, float_of_int n1 = Ok K1 /\ finite_nonneg K1 /\
             finite_nonneg K2 /\ value K1 <= value K2.
Proof.
  intros Hn H2.
  pose proof (float_of_int_nonneg n2 K2 ltac:(lia) H2) as F2.
  unfold float_of_int in *.
  rewrite float_of_int_round in * by lia.
  destruct (is_finite (round_val (n2 * 2 ^ (0 - base)))); [|discriminate].
  injection H2 as <-.
  pose proof (pow2_pos (0 - base) ltac:(unfold base; lia)) as Hp.
  assert (Hord : ford (round_val (n1 * 2 ^ (0 - base)))
                 <= ford (round_val (n2 * 2 ^ (0 - base))))
    by (apply round_val_mono; nia).
  pose proof (ford_le_finite _ _ (round_val_canonical _) F2 Hord) as F1.
  rewrite (proj2 F1). eexists. split; [reflexivity|].
  split; [assumption|]. split; [assumption|]. by apply ford_le_value.
Qed.

(** The float of [level - 1] is at least the float of [n]. *)
Lemma level_float_at_least (n level : Z) (N K : float) :
  0 <= n <= level - 1 -> float_of_int n = Ok N ->
  float_of_int (level - 1) = Ok K ->
  finite_nonneg K /\ value N <= value K.
Proof.
  intros Hn EN EK.
  destruct (float_of_int_mono n (level - 1) K Hn EK) as (N' & EN' & _ & FK & H).
  rewrite EN in EN'. injection EN' as <-. by split.
Qed.

Lemma at_least_f2_5 (x y : float) :
  canonical_nonneg x -> canonical_nonneg y ->
  ford f2_5 <= ford x -> ford x <= ford y -> fleb f2_5 y = true.
Proof.
  intros Hx Hy H1 H2. apply ford_le_fleb;
    [apply finite_nonneg_f2_5|assumption|lia].
Qed.

(** At a rate of 1.0, of 2.0 or of at least 2.5, the growth term at any
    level above 1 is 1.0, 2.0 or at least 2.5. *)
Lemma growth_term_large (r term : float) (level : Z) :
  finite_nonneg r -> 2 <= level ->
  r = f1_0 \/ r = f2_0 \/ fleb f2_5 r = true ->
  float_mul_int r (level - 1) = Ok term ->
  canonical_nonneg term /\
  (term = f1_0 \/ term = f2_0 \/ fleb f2_5 term = true).
Proof.
  intros Fr Hl Hr. unfold float_mul_int.
  destruct (float_of_int (level - 1)) as [K|] eqn:EK; [|discriminate].
  rewrite result_bind_Ok. intros [= <-].
  assert (F1 : finite_nonneg f1_0) by (split; [apply canonical_f1_0|reflexivity]).
  destruct (level_float_at_least 1 level f1_0 K ltac:(lia) eq_refl EK)
    as [FK H1].
  assert (Cterm : canonical_nonneg (fmul r K))
    by (rewrite (fmul_round r K Fr FK); apply round_val_canonical).
  split; [assumption|].
  destruct Hr as [->|[->|Hle]].
  - (* rate 1.0: the term is the float of level - 1 *)
    assert (E : fmul f1_0 K = K).
    { rewrite (fmul_round f1_0 K F1 FK), product_value_comm,
        product_value_one by assumption.
      by apply round_val_value. }
    rewrite E in *.
    destruct (Z.eq_dec level 2) as [->|H2].
    { left. change (float_of_int (2 - 1)) with (Ok f1_0) in EK. congruence. }
    destruct (Z.eq_dec level 3) as [->|H3].
    { right; left. change (float_of_int (3 - 1)) with (Ok f2_0) in EK.
      congruence. }
    right; right.
    destruct (level_float_at_least 3 level f3_0 K ltac:(lia) eq_refl EK)
      as [_ H3'].
    apply (at_least_f2_5 f3_0 K);
      [apply finite_nonneg_f3_0|apply FK| |].
    + apply Z.leb_le. vm_compute. reflexivity.
    + apply value_le_ford; [apply finite_nonneg_f3_0|assumption..].
  - (* rate 2.0 *)
    destruct (Z.eq_dec level 2) as [->|H2].
    { right; left. change (float_of_int (2 - 1)) with (Ok f1_0) in EK.
      injection EK as <-. reflexivity. }
    right; right.
    destruct (level_float_at_least 2 level f2_0 K ltac:(lia) eq_refl EK)
      as [_ H2'].
    destruct (fmul_mono_l f2_0 f2_0 K finite_nonneg_f2_0 finite_nonneg_f2_0
                FK H2') as (C1 & C2 & Hord).
    apply (at_least_f2_5 (fmul f2_0 f2_0) (fmul f2_0 K)); try assumption.
    apply Z.leb_le. vm_compute. reflexivity.
  - (* a rate of at least 2.5 *)
    right; right.
    destruct (fmul_mono_l r f1_0 K Fr F1 FK H1) as (C1 & C2 & Hord).
    rewrite (fmul_one r Fr) in C1, Hord.
    apply (at_least_f2_5 r (fmul r K)); try assumption.
    apply value_le_ford; [apply finite_nonneg_f2_5|assumption|].
    apply fleb_value; [apply finite_nonneg_f2_5|assumption..].
Qed.

End RateAndLevel.

(** C9 (as the code has it). For two profiles with the fast and the slow
    curve and the same attack growth rate, a finite rate that is not
    negative, a base attack that is not negative and a level of at least
    1: whenever both computations return, the attack of the fast profile
    is not below the attack of the slow profile.  It is strictly above
    whenever the growth term [attack_growth * (level - 1)], as the code
    computes it, is 1.0, 2.0 or at least 2.5 and the attack is below
    2^50; this is so at every level above 1 when the rate is 1.0, 2.0 or
    at least 2.5.  At the default rate 2.0, for every base attack below
    2^49 and every level from 2 to 2^40, both attacks are computed and
    the fast one is strictly above the slow one. *)
Theorem fast_attack_not_below_slow
        (g_fast g_slow : StatGrowth) (base : Stats) (level : Z) :
  growth_curve g_fast = "fast" ->
  growth_curve g_slow = "slow" ->
  attack_growth g_slow = attack_growth g_fast ->
  is_nonneg_finite (attack_growth g_fast) = true ->
  0 <= attack base ->
  1 <= level ->
  (forall fast slow,
     calculate_stats_at_level g_fast base level = Ok fast ->
     calculate_stats_at_level g_slow base level = Ok slow ->
     attack slow <= attack fast) /\
  (forall fast slow term,
     calculate_stats_at_level g_fast base level = Ok fast ->
     calculate_stats_at_level g_slow base level = Ok slow ->
     float_mul_int (attack_growth g_fast) (level - 1) = Ok term ->
     term = f1_0 \/ term = f2_0 \/ fleb f2_5 term = true ->
     attack fast < 2 ^ 50 ->
     attack slow < attack fast) /\
  (forall fast slow,
     calculate_stats_at_level g_fast base level = Ok fast ->
     calculate_stats_at_level g_slow base level = Ok slow ->
     attack_growth g_fast = f1_0 \/ attack_growth g_fast = f2_0 \/
     fleb f2_5 (attack_growth g_fast) = true ->
     2 <= level ->
     attack fast < 2 ^ 50 ->
     attack slow < attack fast) /\
  (attack_growth g_fast = f2_0 -> attack base < 2 ^ 49 ->
   2 <= level <= 2 ^ 40 ->
   exists fast slow,
     grown (attack base) (attack_growth g_fast) level
           (_get_growth_multiplier g_fast level) = Ok fast /\
     grown (attack base) (attack_growth g_slow) level
           (_get_growth_multiplier g_slow level) = Ok slow /\
     slow < fast /\
     (forall t, calculate_stats_at_level g_fast base level = Ok t ->
                attack t = fast) /\
     (forall t, calculate_stats_at_level g_slow base level = Ok t ->
                attack t = slow)).
Proof.
  intros Hfast Hslow Hsame Hrate Hbase Hlevel.
  pose proof (is_nonneg_finite_spec _ Hrate) as Frate.
  split; [|split; [|split]].
  - intros fast slow Ef Es.
    apply calculate_stats_attack in Ef, Es.
    rewrite (growth_multiplier_fast _ _ Hfast) in Ef.
    rewrite (growth_multiplier_slow _ _ Hslow), Hsame in Es.
    destruct value_f0_8_f1_2 as [Hpos Hv].
    apply (grown_mono_multiplier (attack base) level _ _
             (attack_growth g_fast) f0_8 f1_2); try assumption.
    + apply finite_nonneg_f0_8.
    + apply finite_nonneg_f1_2.
  - intros fast slow term Ef Es Hterm Hcase Hsmall.
    apply calculate_stats_attack in Ef, Es.
    rewrite (growth_multiplier_fast _ _ Hfast) in Ef.
    rewrite (growth_multiplier_slow _ _ Hslow), Hsame in Es.
    apply (grown_strict (attack base) level _ _ (attack_growth g_fast) term);
      try assumption.
    unfold float_mul_int in Hterm.
    destruct (float_of_int (level - 1)) as [K|] eqn:EK; [|discriminate Hterm].
    rewrite result_bind_Ok in Hterm. injection Hterm as <-.
    pose proof (float_of_int_nonneg (level - 1) K ltac:(lia) EK) as FK.
    rewrite (fmul_round _ _ Frate FK). apply round_val_canonical.
  - intros fast slow Ef Es Hcase Hlevel2 Hsmall.
    apply calculate_stats_attack in Ef, Es.
    rewrite (growth_multiplier_fast _ _ Hfast) in Ef.
    rewrite (growth_multiplier_slow _ _ Hslow), Hsame in Es.
    destruct (float_mul_int (attack_growth g_fast) (level - 1)) as [term|e]
      eqn:Hterm.
    + destruct (growth_term_large _ term level Frate Hlevel2 Hcase Hterm)
        as [Cterm Hterm_case].
      by apply (grown_strict (attack base) level _ _
                  (attack_growth g_fast) term).
    + unfold grown in Ef. rewrite Hterm in Ef. discriminate Ef.
  - intros Rfast Hsmall Hlevels.
    assert (Rslow : attack_growth g_slow = f2_0) by congruence.
    rewrite (growth_multiplier_fast _ _ Hfast),
      (growth_multiplier_slow _ _ Hslow), Rfast, Rslow.
    destruct curve_below_two as [H12 H08].
    destruct (default_rate_grown (attack base) level f1_2 ltac:(lia) Hlevels
                finite_nonneg_f1_2 H12) as (fast & Ef & Hf).
    destruct (default_rate_grown (attack base) level f0_8 ltac:(lia) Hlevels
                finite_nonneg_f0_8 H08) as (slow & Es & _).
    destruct (default_growth_term level Hlevels) as (g & Eg & Fg & _ & Hcase).
    exists fast, slow.
    split; [assumption|]. split; [assumption|].
    split.
    { apply (grown_strict (attack base) level fast slow f2_0 g);
        try assumption. apply Fg. }
    split; intros t Ht; apply calculate_stats_attack in Ht.
    + rewrite (growth_multiplier_fast _ _ Hfast), Rfast, Ef in Ht. congruence.
    + rewrite (growth_multiplier_slow _ _ Hslow), Rslow, Es in Ht. congruence.
Qed.

Lemma fast_attack_not_below_slow_witness :
  (forall fast slow,
     calculate_stats_at_level (default_growth "fast") default_stats 10 = Ok fast ->
     calculate_stats_at_level (default_growth "slow") default_stats 10 = Ok slow ->
     attack slow <= attack fast) /\
  (forall fast slow term,
     calculate_stats_at_level (default_growth "fast") default_stats 10 = Ok fast ->
     calculate_stats_at_level (default_growth "slow") default_stats 10 = Ok slow ->
     float_mul_int (attack_growth (default_growth "fast")) (10 - 1) = Ok term ->
     term = f1_0 \/ term = f2_0 \/ fleb f2_5 term = true ->
     attack fast < 2 ^ 50 ->
     attack slow < attack fast) /\
  (forall fast slow,
     calculate_stats_at_level (default_growth "fast") default_stats 10 = Ok fast ->
     calculate_stats_at_level (default_growth "slow") default_stats 10 = Ok slow ->
     attack_growth (default_growth "fast") = f1_0 \/
     attack_growth (default_growth "fast") = f2_0 \/
     fleb f2_5 (attack_growth (default_growth "fast")) = true ->
     2 <= 10 ->
     attack fast < 2 ^ 50 ->
     attack slow < attack fast) /\
  (attack_growth (default_growth "fast") = f2_0 ->
   attack default_stats < 2 ^ 49 -> 2 <= 10 <= 2 ^ 40 ->
   exists fast slow,
     grown (attack default_stats) (attack_growth (default_growth "fast")) 10
           (_get_growth_multiplier (default_growth "fast") 10) = Ok fast /\
     grown (attack default_stats) (attack_growth (default_growth "slow")) 10
           (_get_growth_multiplier (default_growth "slow") 10) = Ok slow /\
     slow < fast /\
     (forall t, calculate_stats_at_level (default_growth "fast") default_stats 10
                = Ok t -> attack t = fast) /\
     (forall t, calculate_stats_at_level (default_growth "slow") default_stats 10
                = Ok t -> attack t = slow)).
Proof.
  apply (fast_attack_not_below_slow
           (default_growth "fast") (default_growth "slow") default_stats 10);
    try reflexivity; simpl; lia.
Defined.

(** C9 as stated fails: at an attack growth rate of 0.5 and level 2 the
    fast curve gives [int(10 + 0.6)] and the slow curve [int(10 + 0.4)],
    both 10. *)
Lemma fast_equals_slow_counterexample :
  exists fast slow,
    calculate_stats_at_level (slow_attack_growth "fast") default_stats 2
      = Ok fast /\
    calculate_stats_at_level (slow_attack_growth "slow") default_stats 2
      = Ok slow /\
    1 < 2 /\
    attack fast = 10 /\ attack slow = 10 /\
    ~ attack slow < attack fast.
Proof.
  eexists _, _.
  split; [vm_compute; reflexivity|]. split; [vm_compute; reflexivity|].
  repeat split. simpl. lia.
Qed.

(* ===================================================================== *)
(** * Further properties of stats.py *)
(* ===================================================================== *)

Lemma heal_run (σ : store) self s amount :
  σ !! self = Some s ->
  heal self amount σ =
  (Ok (Z.min (hp s + amount) (max_hp s) - hp s),
   <[self := set_hp (Z.min (hp s + amount) (max_hp s)) s]> σ).
Proof.
  intros H. unfold heal.
  rewrite !(run_getattr _ _ _ _ _ H).
  rewrite (run_setattr _ _ _ _ _ _ H).
  erewrite run_getattr by apply lookup_insert_eq.
  reflexivity.
Qed.

(** X1. On stats with [hp <= max_hp] and for an amount that is not
    negative, [heal] returns [min amount (max_hp - hp)], raises hp by
    exactly that much and never above max hp; a creature at full hp and
    an amount of 0 are both healed by 0. *)
Theorem heal_caps_at_max_hp (σ : store) (self : ref) (s : Stats) (amount : Z) :
  σ !! self = Some s ->
  hp s <= max_hp s ->
  0 <= amount ->
  exists σ' s',
    heal self amount σ = (Ok (Z.min amount (max_hp s - hp s)), σ') /\
    σ' !! self = Some s' /\
    s' = set_hp (hp s + Z.min amount (max_hp s - hp s)) s /\
    hp s' <= max_hp s' /\
    (amount = 0 \/ hp s = max_hp s -> s' = s) /\
    (forall r, r ≠ self -> σ' !! r = σ !! r).
Proof.
  intros H Hle Hamount. rewrite (heal_run _ _ _ _ H).
  eexists _, _. split; [do 2 f_equal; lia|].
  split; [apply lookup_insert_eq|].
  split; [f_equal; lia|].
  split; [cbn; lia|].
  split.
  - intros Hz. destruct s; unfold set_hp; cbn in *; f_equal; lia.
  - intros r Hr. by apply lookup_insert_ne.
Qed.

Lemma heal_caps_at_max_hp_witness :
  exists σ' s',
    heal 0%nat 50 wounded_store = (Ok (Z.min 50 (max_hp wounded - hp wounded)), σ') /\
    σ' !! 0%nat = Some s' /\
    s' = set_hp (hp wounded + Z.min 50 (max_hp wounded - hp wounded)) wounded /\
    hp s' <= max_hp s' /\
    (50 = 0 \/ hp wounded = max_hp wounded -> s' = wounded) /\
    (forall r, r ≠ 0%nat -> σ' !! r = wounded_store !! r).
Proof.
  apply (heal_caps_at_max_hp wounded_store 0%nat wounded 50).
  - reflexivity.
  - simpl. lia.
  - lia.
Defined.

(** X2. Healing by an amount that fits below max hp and then taking the
    same amount of damage leaves the store as it was, and both calls
    report the full amount. *)
Theorem heal_then_take_damage (σ : store) (self : ref) (s : Stats) (amount : Z) :
  σ !! self = Some s ->
  0 <= hp s ->
  0 <= amount ->
  hp s + amount <= max_hp s ->
  (healed ← heal self amount; dealt ← take_damage self amount;
   mret (healed, dealt)) σ
  = (Ok (amount, amount), σ).
Proof.
  intros H Hhp Hamount Hfit.
  unfold mbind at 1, M_bind at 1. rewrite (heal_run _ _ _ _ H).
  unfold mbind at 1, M_bind at 1.
  erewrite take_damage_run by apply lookup_insert_eq.
  cbn [hp set_hp]. rewrite insert_insert_eq.
  replace (Z.min (hp s + amount) (max_hp s)) with (hp s + amount) by lia.
  replace (Z.max 0 (hp s + amount - amount)) with (hp s) by lia.
  unfold mret, M_ret. do 2 f_equal.
  - f_equal; lia.
  - rewrite insert_id; [reflexivity|]. rewrite H. by destruct s.
Qed.

Lemma heal_then_take_damage_witness :
  (healed ← heal 0%nat 20; dealt ← take_damage 0%nat 20;
   mret (healed, dealt)) wounded_store
  = (Ok (20, 20), wounded_store).
Proof.
  apply (heal_then_take_damage wounded_store 0%nat wounded 20).
  - reflexivity.
  - simpl. lia.
  - lia.
  - simpl. lia.
Defined.

(** X3. After [take_damage] of an amount that is not negative the
    creature is alive exactly when the amount was below its hp. *)
Theorem alive_after_damage (σ : store) (self : ref) (s : Stats) (amount : Z) :
  σ !! self = Some s ->
  0 <= amount ->
  exists σ',
    (take_damage self amount;; is_alive self) σ
      = (Ok (amount <? hp s), σ') /\
    σ' !! self = Some (set_hp (Z.max 0 (hp s - amount)) s).
Proof.
  intros H Hamount.
  unfold mbind at 1, M_bind at 1. rewrite (take_damage_run _ _ _ _ H).
  unfold is_alive.
  erewrite run_getattr by apply lookup_insert_eq. cbn [hp set_hp].
  eexists. split; [|apply lookup_insert_eq].
  unfold mret, M_ret. do 2 f_equal.
  destruct (Z.ltb_spec 0 (Z.max 0 (hp s - amount))),
    (Z.ltb_spec amount (hp s)); try reflexivity; lia.
Qed.

Lemma alive_after_damage_witness :
  exists σ',
    (take_damage 0%nat 80;; is_alive 0%nat) wounded_store
      = (Ok (80 <? hp wounded), σ') /\
    σ' !! 0%nat = Some (set_hp (Z.max 0 (hp wounded - 80)) wounded).
Proof.
  apply (alive_after_damage wounded_store 0%nat wounded 80).
  - reflexivity.
  - lia.
Defined.

(** X4. [heal] and [take_damage] with an amount that is not negative
    each keep [0 <= hp <= max_hp] and leave max hp as it was; what they
    return lies between 0 and the amount. *)
Theorem hp_stays_in_range (σ : store) (self : ref) (s : Stats)
        (amount : Z) (damage : bool) :
  σ !! self = Some s ->
  hp_in_range s ->
  0 <= amount ->
  exists n σ' s',
    (if damage then take_damage self amount else heal self amount) σ
      = (Ok n, σ') /\
    σ' !! self = Some s' /\
    hp_in_range s' /\ max_hp s' = max_hp s /\ 0 <= n <= amount.
Proof.
  intros H [Hlo Hhi] Hamount. destruct damage.
  - rewrite (take_damage_run _ _ _ _ H). eexists _, _, _.
    split; [reflexivity|]. split; [apply lookup_insert_eq|].
    unfold hp_in_range. cbn [hp max_hp set_hp]. lia.
  - rewrite (heal_run _ _ _ _ H). eexists _, _, _.
    split; [reflexivity|]. split; [apply lookup_insert_eq|].
    unfold hp_in_range. cbn [hp max_hp set_hp]. lia.
Qed.

Lemma hp_stays_in_range_witness :
  exists n σ' s',
    take_damage 0%nat 130 wounded_store = (Ok n, σ') /\
    σ' !! 0%nat = Some s' /\
    hp_in_range s' /\ max_hp s' = max_hp wounded /\ 0 <= n <= 130.
Proof.
  apply (hp_stays_in_range wounded_store 0%nat wounded 130 true).
  - reflexivity.
  - unfold hp_in_range. simpl. lia.
  - lia.
Defined.

Lemma Stats_init_caps (s : Stats) :
  Stats_init (hp s) (max_hp s) (attack s) (defense s) (speed s)
             (special_attack s) (special_defense s)
  = set_hp (Z.min (hp s) (max_hp s)) s.
Proof.
  unfold Stats_init, set_hp.
  destruct (Z.ltb_spec (max_hp s) (hp s)); f_equal; lia.
Qed.

Lemma copy_run (σ : store) self s :
  σ !! self = Some s ->
  copy self σ =
  (Ok (fresh (dom σ)), <[fresh (dom σ) := set_hp (Z.min (hp s) (max_hp s)) s]> σ).
Proof.
  intros H. unfold copy.
  repeat (rewrite (run_getattr _ _ _ _ _ H)).
  by rewrite Stats_init_caps.
Qed.

(** X5. [copy] returns a reference that was not in use, to an object
    with the fields of the receiver (hp capped at max hp, as the
    constructor does); every existing object is left as it was, and an
    assignment to the copy's hp afterwards does not reach the
    original. *)
Theorem copy_is_independent (σ : store) (self : ref) (s : Stats) (v : Z) :
  σ !! self = Some s ->
  exists r σ',
    copy self σ = (Ok r, σ') /\
    σ !! r = None /\ r ≠ self /\
    σ' !! r = Some (set_hp (Z.min (hp s) (max_hp s)) s) /\
    (hp s <= max_hp s -> σ' !! r = Some s) /\
    (forall q, q ≠ r -> σ' !! q = σ !! q) /\
    (setattr r set_hp v σ').2 !! self = Some s.
Proof.
  intros H. rewrite (copy_run _ _ _ H).
  pose proof (fresh_differs _ _ _ H) as Hne.
  eexists _, _. split; [reflexivity|].
  split; [apply fresh_unused|]. split; [assumption|].
  split; [apply lookup_insert_eq|].
  split.
  { intros Hle. rewrite lookup_insert_eq. f_equal.
    destruct s; unfold set_hp; cbn in *; f_equal; lia. }
  split; [intros q Hq; by apply lookup_insert_ne|].
  unfold setattr. rewrite lookup_insert_eq. cbn [snd].
  by rewrite insert_insert_eq, lookup_insert_ne.
Qed.

Lemma copy_is_independent_witness :
  exists r σ',
    copy 0%nat wounded_store = (Ok r, σ') /\
    wounded_store !! r = None /\ r ≠ 0%nat /\
    σ' !! r = Some (set_hp (Z.min (hp wounded) (max_hp wounded)) wounded) /\
    (hp wounded <= max_hp wounded -> σ' !! r = Some wounded) /\
    (forall q, q ≠ r -> σ' !! q = wounded_store !! q) /\
    (setattr r set_hp 50 σ').2 !! 0%nat = Some wounded.
Proof.
  apply (copy_is_independent wounded_store 0%nat wounded 50).
  reflexivity.
Defined.

(* ===================================================================== *)
(** * StatModifier: duration *)
(* ===================================================================== *)

Lemma tick_duration (m : StatModifier) :
  duration (tick m)
  = if 0 <? duration m then duration m - 1 else duration m.
Proof. unfold tick. by destruct (0 <? duration m). Qed.

Lemma tick_keeps_fields (m : StatModifier) :
  tick m = set_duration (duration (tick m)) m.
Proof.
  unfold tick. destruct (0 <? duration m); [reflexivity|]. by destruct m.
Qed.

(** X6. After [n] calls of [tick] a modifier of positive duration [d]
    has duration [max 0 (d - n)], and a modifier whose duration is 0 or
    negative (-1 is permanent) keeps it; no other field changes.  So the
    modifier is expired after [n] ticks exactly when its duration was
    between 0 and [n]: a positive duration runs out after exactly that
    many ticks and a permanent modifier never does. *)
Theorem tick_counts_down_to_expiry (m : StatModifier) (n : nat) :
  Nat.iter n tick m
  = set_duration (if 0 <? duration m
                  then Z.max 0 (duration m - Z.of_nat n)
                  else duration m) m /\
  (is_expired (Nat.iter n tick m) = true <-> 0 <= duration m <= Z.of_nat n).
Proof.
  assert (H : Nat.iter n tick m
              = set_duration (if 0 <? duration m
                              then Z.max 0 (duration m - Z.of_nat n)
                              else duration m) m).
  { induction n as [|n IH].
    - cbn [Nat.iter nat_rect]. destruct (Z.ltb_spec 0 (duration m)).
      + replace (Z.max 0 (duration m - Z.of_nat 0)) with (duration m) by lia.
        by destruct m.
      + by destruct m.
    - rewrite Nat.iter_succ, IH. unfold tick at 1. cbn [duration set_duration].
      destruct (Z.ltb_spec 0 (duration m)) as [Hpos|Hneg].
      + destruct (Z.ltb_spec 0 (Z.max 0 (duration m - Z.of_nat n))).
        * unfold set_duration. cbn. f_equal. lia.
        * f_equal. lia.
      + destruct (Z.ltb_spec 0 (duration m)); [lia|reflexivity]. }
  split; [exact H|].
  rewrite H. unfold is_expired. cbn [duration set_duration].
  rewrite Z.eqb_eq. destruct (Z.ltb_spec 0 (duration m)); lia.
Qed.

(* ===================================================================== *)
(** * Stats.apply_modifier with the default modifier *)
(* ===================================================================== *)

(** Adding 0.0 changes nothing. *)
Lemma fadd_zero (x : float) : finite_nonneg x -> fadd x (S754_zero false) = x.
Proof.
  intros F. rewrite fadd_round by (assumption || by split).
  cbn [value]. rewrite Z.add_0_r. by apply round_val_value.
Qed.

Lemma float_of_small (n : Z) :
  small_nonneg n = true ->
  exists x, float_of_int n = Ok x /\ finite_nonneg x /\ int_of_float x = Ok n.
Proof.
  unfold small_nonneg. rewrite andb_true_iff, Z.leb_le, Z.ltb_lt.
  intros [Hlo Hhi].
  destruct (int_float_roundtrip n false ltac:(lia)) as (x & Hx & Hint).
  pose proof (float_of_int_nonneg n x Hlo Hx) as F.
  rewrite (fadd_zero x F) in Hint. by exists x.
Qed.

Lemma scaled_identity (n : Z) :
  small_nonneg n = true -> scaled n f1_0 0 = Ok n.
Proof.
  intros Hn. destruct (float_of_small n Hn) as (x & Hx & F & Hint).
  unfold scaled, int_mul_float, float_add_int. rewrite Hx, result_bind_Ok.
  rewrite (fmul_one x F), result_bind_Ok.
  change (float_of_int 0) with (Ok (S754_zero false)).
  rewrite result_bind_Ok. by rewrite (fadd_zero x F).
Qed.

(** [n / n] is exactly 1.0. *)
Lemma truediv_self (n : Z) : 0 < n -> int_truediv n n = Ok f1_0.
Proof.
  intros Hn. destruct n as [|p|p]; try lia.
  unfold int_truediv. cbn [Z.eqb exact_of_Z].
  unfold fdiv, SFdiv, SFdiv_core_binary.
  replace (Zdigits2 (Zpos p) + 0 - (Zdigits2 (Zpos p) + 0)) with 0 by lia.
  change (Z.min (fexp prec emax 0) (0 - 0)) with (-53).
  change (0 - 0 - -53) with 53.
cbv iota.
  assert (E : Z.div_eucl (Z.shiftl (Zpos p) 53) (Zpos p) = (2 ^ 53, 0)).
  { rewrite Z.shiftl_mul_pow2 by lia.
    transitivity ((Zpos p * 2 ^ 53) / Zpos p, (Zpos p * 2 ^ 53) mod Zpos p).
    - unfold Z.div, Z.modulo. by destruct (Z.div_eucl _ _).
    - f_equal.
      + rewrite Z.mul_comm. apply Z.div_mul. lia.
      + rewrite Z.mul_comm. apply Z_mod_mult. }
  change (IntDef.Z.div_eucl (Z.shiftl (Zpos p) 53) (Zpos p))
    with (Z.div_eucl (Z.shiftl (Zpos p) 53) (Zpos p)).
  rewrite E.
  assert (L : new_location (Zpos p) 0 = loc_Exact).
  { unfold new_location, new_location_even, new_location_odd.
    by destruct (Z.even (Zpos p)). }
  rewrite L. reflexivity.
Qed.

Lemma truediv_zero (n : Z) : 0 < n -> int_truediv 0 n = Ok (S754_zero false).
Proof. intros Hn. destruct n as [|p|p]; try lia. reflexivity. Qed.

Lemma modified_value_default (s : Stats) (d : Z) :
  small_nonneg_stats s = true ->
  hp s = max_hp s \/ hp s = 0 ->
  modified_value s (default_modifier d) = Ok s.
Proof.
  unfold small_nonneg_stats. rewrite !andb_true_iff.
  intros [[[[[E1 E2] E3] E4] E5] E6] Hhp.
  unfold modified_value, default_modifier.
  cbn [attack_multiplier attack_bonus defense_multiplier defense_bonus
       speed_multiplier speed_bonus special_attack_multiplier
       special_attack_bonus special_defense_multiplier special_defense_bonus
       max_hp_multiplier max_hp_bonus].
  rewrite !scaled_identity by assumption. rewrite !result_bind_Ok.
  destruct (float_of_small _ E1) as (x & Hx & F & Hint).
  assert (Hh : (ratio ← hp_ratio_of s;
                p ← int_mul_float (max_hp s) ratio; int_of_float p)
               = Ok (hp s)).
  { unfold hp_ratio_of, int_mul_float. rewrite Hx.
    destruct (Z.ltb_spec 0 (max_hp s)) as [Hpos|Hzero].
    - destruct Hhp as [Hfull|Hdead].
      + rewrite Hfull, (truediv_self _ Hpos), !result_bind_Ok.
        by rewrite (fmul_one x F).
      + rewrite Hdead, (truediv_zero _ Hpos), !result_bind_Ok.
        destruct (fmul_zero_r x false (proj2 F)) as [z ->]. reflexivity.
    - rewrite !result_bind_Ok, (fmul_one x F).
      unfold small_nonneg in E1. apply andb_true_iff in E1 as [Hlo _].
      apply Z.leb_le in Hlo.
      destruct Hhp as [->| ->]; [assumption|]. rewrite Hint. f_equal. lia. }
  destruct (hp_ratio_of s) as [ratio|e]; [|discriminate Hh].
  rewrite result_bind_Ok in Hh. rewrite result_bind_Ok, Hh, result_bind_Ok.
  by destruct s.
Qed.

(** X7. For stats that are not negative and below 2^53, at full hp or at
    0 hp, [apply_modifier] with the default modifier (every multiplier
    1.0, every bonus 0) returns a new object equal to the receiver, and
    leaves the receiver as it was. *)
Theorem default_modifier_changes_nothing (σ : store) (self : ref) (s : Stats)
        (d : Z) :
  σ !! self = Some s ->
  small_nonneg_stats s = true ->
  hp s = max_hp s \/ hp s = 0 ->
  exists r σ',
    apply_modifier self (default_modifier d) σ = (Ok r, σ') /\
    σ !! r = None /\ r ≠ self /\
    σ' !! r = Some s /\ σ' !! self = Some s.
Proof.
  intros H Hsmall Hhp.
  destruct (apply_modifier_run σ self s (default_modifier d) H)
    as (t' & Hrun & Ht').
  pose proof (modified_value_default s d Hsmall Hhp) as Hval.
  rewrite Hval in Hrun. rewrite (Ht' s Hval) in Hrun.
  pose proof (fresh_differs _ _ _ H) as Hne.
  eexists _, _. split; [exact Hrun|].
  split; [apply fresh_unused|]. split; [assumption|].
  split; [apply lookup_insert_eq|by rewrite lookup_insert_ne].
Qed.

Lemma default_modifier_changes_nothing_witness :
  exists r σ',
    apply_modifier 0%nat (default_modifier 3)
                   ({[ 0%nat := default_stats ]} : store) = (Ok r, σ') /\
    ({[ 0%nat := default_stats ]} : store) !! r = None /\ r ≠ 0%nat /\
    σ' !! r = Some default_stats /\ σ' !! 0%nat = Some default_stats.
Proof.
  apply (default_modifier_changes_nothing
           {[ 0%nat := default_stats ]} 0%nat default_stats 3).
  - reflexivity.
  - reflexivity.
  - left. reflexivity.
Defined.

(* ===================================================================== *)
(** * Growth with the level *)
(* ===================================================================== *)

Lemma fmul_comm (x y : float) :
  finite_nonneg x -> finite_nonneg y -> fmul x y = fmul y x.
Proof.
  intros Fx Fy. rewrite !fmul_round by assumption.
  by rewrite product_value_comm.
Qed.

(** The product with a positive finite factor keeps the order of the
    other factor, infinity included. *)
Lemma fmul_mono_first (g1 g2 c : float) :
  canonical_nonneg g1 -> canonical_nonneg g2 -> ford g1 <= ford g2 ->
  finite_nonneg c -> 0 < value c ->
  canonical_nonneg (fmul g1 c) /\ canonical_nonneg (fmul g2 c) /\
  ford (fmul g1 c) <= ford (fmul g2 c).
Proof.
  intros H1 H2 Hord Fc Hpos.
  destruct (fmul_mono_r g1 c c H1 Fc Fc Hpos (Z.le_refl _)) as (C1 & _ & _).
  destruct (fmul_mono_r g2 c c H2 Fc Fc Hpos (Z.le_refl _)) as (C2 & _ & _).
  split; [assumption|]. split; [assumption|].
  destruct (canonical_cases g2 H2) as [F2| ->].
  - pose proof (ford_le_finite _ _ H1 F2 Hord) as F1.
    rewrite (fmul_comm g1 c), (fmul_comm g2 c) by assumption.
    apply fmul_mono_l; try assumption. by apply ford_le_value.
  - destruct Fc as [Hc Fc].
    destruct c as [s|s| |s m e]; try discriminate Fc;
      [cbn [value] in Hpos; lia|].
    destruct Hc as (-> & _).
    change (fmul (S754_infinity false) (S754_finite false m e))
      with (S754_infinity false).
    apply (ford_le_top _ C1).
Qed.

(** A stat grown from a non-negative base at a non-negative rate does
    not shrink with the level, and is computed at every level below one
    at which it is computed. *)
Lemma grown_mono_level (a l1 l2 b2 : Z) (r c : float) :
  0 <= a -> 1 <= l1 <= l2 ->
  finite_nonneg r -> finite_nonneg c -> 0 < value c ->
  grown a r l2 c = Ok b2 ->
  exists b1, grown a r l1 c = Ok b1 /\ b1 <= b2.
Proof.
  intros Ha Hl Fr Fc Hpos. unfold grown, float_mul_int, int_add_float.
  destruct (float_of_int (l2 - 1)) as [K2|] eqn:E2; [|discriminate].
  destruct (float_of_int_mono (l1 - 1) (l2 - 1) K2 ltac:(lia) E2)
    as (K1 & -> & F1 & F2 & HK).
  destruct (float_of_int a) as [A|] eqn:EA; [|discriminate].
  rewrite !result_bind_Ok. intros H2.
  pose proof (float_of_int_nonneg _ _ Ha EA) as FA.
  destruct (fmul_mono_l r K1 K2 Fr F1 F2 HK) as (G1 & G2 & HG).
  destruct (fmul_mono_first _ _ c G1 G2 HG Fc Hpos) as (Y1 & Y2 & HY).
  destruct (fadd_mono_r A _ _ FA Y1 Y2 HY) as (X1 & X2 & HX).
  assert (FX2 : finite_nonneg (fadd A (fmul (fmul r K2) c))).
  { split; [assumption|].
    destruct (fadd A (fmul (fmul r K2) c)); try reflexivity; discriminate H2. }
  pose proof (ford_le_finite _ _ X1 FX2 HX) as FX1.
  rewrite (int_of_float_value _ FX1). eexists. split; [reflexivity|].
  rewrite (int_of_float_value _ FX2) in H2. injection H2 as <-.
  apply Z.div_le_mono; [apply pow2_pos; unfold base; lia|].
  by apply ford_le_value.
Qed.

(** The multiplier is one of the four table entries or the default. *)
Lemma growth_multiplier_positive (g : StatGrowth) (level : Z) :
  finite_nonneg (_get_growth_multiplier g level) /\
  0 < value (_get_growth_multiplier g level).
Proof.
  assert (H : _get_growth_multiplier g level = f0_8 \/
              _get_growth_multiplier g level = f0_9 \/
              _get_growth_multiplier g level = f1_0 \/
              _get_growth_multiplier g level = f1_2).
  { unfold _get_growth_multiplier.
    repeat (rewrite lookup_insert; case_decide; [cbn [default]; tauto|]).
    rewrite lookup_empty. cbn [default]. tauto. }
  destruct H as [->|[->|[->| ->]]];
    (split; [canonical_constant|apply value_pos; unfold base; lia]).
Qed.

Lemma growth_multiplier_any_level (g : StatGrowth) (l1 l2 : Z) :
  _get_growth_multiplier g l1 = _get_growth_multiplier g l2.
Proof. reflexivity. Qed.

(** X8. With growth rates that are finite and not negative and base
    stats that are not negative, no stat computed by
    [calculate_stats_at_level] shrinks when the level rises: if the
    stats at a level [l2] are computed, so are the stats at every level
    [l1] from 1 to [l2], and each of them is at most the stat at [l2].
    Both results are at full hp. *)
Theorem stats_never_shrink_with_level (g : StatGrowth) (base : Stats)
        (l1 l2 : Z) (t2 : Stats) :
  nonneg_rates g = true ->
  nonneg_stats base = true ->
  1 <= l1 <= l2 ->
  calculate_stats_at_level g base l2 = Ok t2 ->
  exists t1,
    calculate_stats_at_level g base l1 = Ok t1 /\
    stats_le t1 t2 /\ hp t1 = max_hp t1 /\ hp t2 = max_hp t2.
Proof.
  unfold nonneg_rates, nonneg_stats. rewrite !andb_true_iff, !Z.leb_le.
  intros [[[[[R1 R2] R3] R4] R5] R6] [[[[[B1 B2] B3] B4] B5] B6] Hl.
  apply is_nonneg_finite_spec in R1, R2, R3, R4, R5, R6.
  destruct (growth_multiplier_positive g l2) as [Fc Hpos].
  unfold calculate_stats_at_level.
  rewrite (growth_multiplier_any_level g l1 l2).
  set (c := _get_growth_multiplier g l2) in *.
  destruct (grown (max_hp base) _ l2 c) as [m2|] eqn:E1; [|discriminate].
  destruct (grown (attack base) _ l2 c) as [a2|] eqn:E2; [|discriminate].
  destruct (grown (defense base) _ l2 c) as [d2|] eqn:E3; [|discriminate].
  destruct (grown (speed base) _ l2 c) as [s2|] eqn:E4; [|discriminate].
  destruct (grown (special_attack base) _ l2 c) as [sa2|] eqn:E5;
    [|discriminate].
  destruct (grown (special_defense base) _ l2 c) as [sd2|] eqn:E6;
    [|discriminate].
  rewrite !result_bind_Ok. intros [= <-].
  destruct (grown_mono_level _ l1 l2 _ _ c B1 Hl R1 Fc Hpos E1) as (m1 & -> & ?).
  destruct (grown_mono_level _ l1 l2 _ _ c B2 Hl R2 Fc Hpos E2) as (a1 & -> & ?).
  destruct (grown_mono_level _ l1 l2 _ _ c B3 Hl R3 Fc Hpos E3) as (d1 & -> & ?).
  destruct (grown_mono_level _ l1 l2 _ _ c B4 Hl R4 Fc Hpos E4) as (s1 & -> & ?).
  destruct (grown_mono_level _ l1 l2 _ _ c B5 Hl R5 Fc Hpos E5) as (sa1 & -> & ?).
  destruct (grown_mono_level _ l1 l2 _ _ c B6 Hl R6 Fc Hpos E6) as (sd1 & -> & ?).
  rewrite !result_bind_Ok. eexists. split; [reflexivity|].
  unfold stats_le, Stats_init. rewrite !Z.ltb_irrefl.
  cbn [hp max_hp attack defense speed special_attack special_defense].
  repeat split; assumption.
Qed.

Lemma stats_never_shrink_with_level_witness :
  exists t1,
    calculate_stats_at_level (default_growth "slow") default_stats 4 = Ok t1 /\
    stats_le t1 (mkStats 172 172 24 24 20 24 24) /\
    hp t1 = max_hp t1 /\
    hp (mkStats 172 172 24 24 20 24 24) = max_hp (mkStats 172 172 24 24 20 24 24).
Proof.
  apply (stats_never_shrink_with_level (default_growth "slow") default_stats
           4 10 (mkStats 172 172 24 24 20 24 24)).
  - reflexivity.
  - reflexivity.
  - lia.
  - vm_compute. reflexivity.
Defined.

(* ===================================================================== *)
(** * Stats.to_dict and Stats.from_dict *)
(* ===================================================================== *)

Lemma keys_accepted (data : gmap string Z) :
  forallb (fun k => bool_decide (k ∈ Stats_fields)) (map fst (map_to_list data))
  = true <-> forall k, is_Some (data !! k) -> k ∈ Stats_fields.
Proof.
  rewrite forallb_forall. split.
  - intros H k [v Hk]. eapply bool_decide_eq_true_1, H.
    apply in_map_iff. exists (k, v). split; [reflexivity|].
    apply list_elem_of_In. by apply elem_of_map_to_list.
  - intros H k Hin. apply bool_decide_eq_true_2.
    apply in_map_iff in Hin as ([k' v] & <- & Hin).
    apply list_elem_of_In, elem_of_map_to_list in Hin. apply H. by exists v.
Qed.

Lemma to_dict_lookup (s : Stats) (k : string) (v : Z) :
  Stats_to_dict s !! k = Some v -> k ∈ Stats_fields.
Proof.
  unfold Stats_to_dict, Stats_fields.
  repeat (rewrite lookup_insert; case_decide;
          [subst k; intros _; set_solver|]).
  by rewrite lookup_empty.
Qed.

Lemma to_dict_keys (s : Stats) (k : string) :
  is_Some (Stats_to_dict s !! k) <-> k ∈ Stats_fields.
Proof.
  split.
  - intros [v Hk]. by apply (to_dict_lookup s k v).
  - unfold Stats_fields. intros Hk.
    repeat (apply elem_of_cons in Hk as [->|Hk]; [by eexists|]).
    by apply elem_of_nil in Hk.
Qed.

(** X9. [from_dict (to_dict s)] gives back [s] whenever [hp <= max_hp],
    which the constructor ensures; in general it gives [s] with hp
    capped at max hp.  [to_dict] has exactly the seven field names as
    keys and is injective. *)
Theorem stats_dict_round_trip (s : Stats) :
  Stats_from_dict (Stats_to_dict s)
    = Built (set_hp (Z.min (hp s) (max_hp s)) s) /\
  (hp s <= max_hp s -> Stats_from_dict (Stats_to_dict s) = Built s) /\
  (forall k, is_Some (Stats_to_dict s !! k) <-> k ∈ Stats_fields) /\
  (forall s', Stats_to_dict s' = Stats_to_dict s -> s' = s).
Proof.
  assert (R : Stats_from_dict (Stats_to_dict s)
              = Built (set_hp (Z.min (hp s) (max_hp s)) s)).
  { unfold Stats_from_dict.
    replace (forallb _ _) with true.
    - rewrite <- Stats_init_caps. reflexivity.
    - symmetry. apply keys_accepted. intros k [v Hk].
      by apply (to_dict_lookup s k v). }
  split; [exact R|]. split; [|split].
  - intros Hle. rewrite R. do 2 f_equal.
    destruct s; unfold set_hp; cbn in *; f_equal; lia.
  - apply to_dict_keys.
  - intros s' E.
    assert (L : forall k, Stats_to_dict s' !! k = Stats_to_dict s !! k)
      by (intros k; by rewrite E).
    pose proof (L "hp") as L1. pose proof (L "max_hp") as L2.
    pose proof (L "attack") as L3. pose proof (L "defense") as L4.
    pose proof (L "speed") as L5. pose proof (L "special_attack") as L6.
    pose proof (L "special_defense") as L7.
    destruct s, s'. vm_compute in L1, L2, L3, L4, L5, L6, L7. congruence.
Qed.

(** X10. [from_dict] on a dict of ints: a key that is no field of
    [Stats] raises [TypeError]; otherwise a missing field takes its
    default (100 for hp and max hp, 10 for the others, so the empty dict
    gives [Stats()]), and hp above max hp is capped.  A dict with the
    seven keys and [hp <= max_hp] is what [to_dict] of the result
    returns. *)
Theorem stats_from_dict_edges (data : gmap string Z) :
  (forall k v, k ∉ Stats_fields ->
     Stats_from_dict (<[k := v]> data) = TypeError) /\
  Stats_from_dict ∅ = Built default_stats /\
  (forall s, Stats_from_dict data = Built s ->
     hp s <= max_hp s /\
     (forall k, is_Some (data !! k) -> k ∈ Stats_fields) /\
     hp s = Z.min (default 100 (data !! "hp")) (default 100 (data !! "max_hp")) /\
     max_hp s = default 100 (data !! "max_hp") /\
     attack s = default 10 (data !! "attack") /\
     defense s = default 10 (data !! "defense") /\
     speed s = default 10 (data !! "speed") /\
     special_attack s = default 10 (data !! "special_attack") /\
     special_defense s = default 10 (data !! "special_defense")) /\
  ((forall k, is_Some (data !! k) <-> k ∈ Stats_fields) ->
   default 100 (data !! "hp") <= default 100 (data !! "max_hp") ->
   exists s, Stats_from_dict data = Built s /\ Stats_to_dict s = data).
Proof.
  split; [|split; [|split]].
  - intros k v Hk. unfold Stats_from_dict.
    destruct (forallb _ _) eqn:E; [|reflexivity].
    exfalso. apply Hk. apply (proj1 (keys_accepted _) E k).
    rewrite lookup_insert_eq. by eexists.
  - reflexivity.
  - unfold Stats_from_dict. intros s.
    destruct (forallb _ _) eqn:E; [|discriminate].
    intros [= <-]. unfold Stats_init.
    cbn [hp max_hp attack defense speed special_attack special_defense].
    split; [destruct (Z.ltb_spec (default 100 (data !! "max_hp"))
                                 (default 100 (data !! "hp"))); lia|].
    split; [apply keys_accepted, E|].
    split; [destruct (Z.ltb_spec (default 100 (data !! "max_hp"))
                                 (default 100 (data !! "hp"))); lia|].
    repeat split.
  - intros Hkeys Hle. unfold Stats_from_dict.
    replace (forallb _ _) with true
      by (symmetry; apply keys_accepted; intros k; apply Hkeys).
    eexists. split; [reflexivity|].
    apply map_eq. intros k.
    unfold Stats_to_dict, Stats_init.
    replace (default 100 (data !! "max_hp") <? default 100 (data !! "hp"))
      with false by (symmetry; apply Z.ltb_ge; lia).
    cbn [hp max_hp attack defense speed special_attack special_defense].
    repeat (rewrite lookup_insert; case_decide;
            [subst k;
             match goal with
             | |- _ = data !! ?f =>
                 destruct (proj2 (Hkeys f)) as [v ->];
                 [unfold Stats_fields; repeat constructor|reflexivity]
             end|]).
    rewrite lookup_empty. symmetry. apply eq_None_not_Some.
    intros Hk. apply Hkeys in Hk. unfold Stats_fields in Hk.
    repeat (apply elem_of_cons in Hk as [->|Hk]; [congruence|]).
    by apply elem_of_nil in Hk.
Qed.

Lemma stats_from_dict_edges_witness :
  exists s, Stats_from_dict (Stats_to_dict wounded) = Built s /\
            Stats_to_dict s = Stats_to_dict wounded.
Proof.
  apply (stats_from_dict_edges (Stats_to_dict wounded)).
  - apply (to_dict_keys wounded).
  - vm_compute. discriminate.
Defined.

(* ===================================================================== *)
(** * EvolutionPath.can_evolve and the registry *)
(* ===================================================================== *)

(** X11. A path accepts a creature exactly when the creature's species
    name is the path's [from_type], its level is at least [min_level],
    and every required trait name is the name of one of its traits. *)
Theorem path_can_evolve_iff (path : EvolutionPath.t) (creature : Creature.t) :
  EvolutionPath.can_evolve path creature = true <->
  CreatureType.name (Creature.creature_type creature)
    = EvolutionPath.from_type path /\
  EvolutionPath.min_level path <= Creature.level creature /\
  (forall trait_name,
     In trait_name (EvolutionPath.required_traits path) ->
     exists trait, In trait (Creature.traits creature) /\
                   Trait.name trait = trait_name).
Proof.
  unfold EvolutionPath.can_evolve.
  destruct (String.eqb_spec
              (CreatureType.name (Creature.creature_type creature))
              (EvolutionPath.from_type path)) as [Hname|Hname]; cbn [negb].
  - destruct (Z.ltb_spec (Creature.level creature)
                         (EvolutionPath.min_level path)) as [Hlow|Hlevel].
    + split; [discriminate|]. intros (_ & H & _). lia.
    + rewrite forallb_forall. unfold Creature.has_trait. split.
      * intros H. split; [assumption|]. split; [assumption|].
        intros trait_name Hin. apply H, existsb_exists in Hin
          as (trait & Hin & Heq).
        exists trait. split; [assumption|]. by apply String.eqb_eq.
      * intros (_ & _ & H) trait_name Hin.
        destruct (H trait_name Hin) as (trait & Htrait & Heq).
        apply existsb_exists. exists trait. split; [assumption|].
        by apply String.eqb_eq.
  - split; [discriminate|]. intros (H & _). contradiction.
Qed.

Lemma filter_sublist {A : Type} (f : A -> bool) (l : list A) :
  sublist (List.filter f l) l.
Proof.
  induction l as [|x l IH]; cbn [List.filter]; [constructor|].
  destruct (f x); by constructor.
Qed.

(** X12. [get_available_evolutions] returns the registered paths the
    creature qualifies for, each as often as it is registered and in
    the order of registration; [can_evolve] of the system holds exactly
    when there is one.  Adding a path appends it to the available ones
    if the creature qualifies for it and changes nothing otherwise;
    registering a species changes nothing. *)
Theorem available_evolutions_in_order (self : EvolutionSystem.t)
        (creature : Creature.t) :
  sublist (EvolutionSystem.get_available_evolutions self creature)
          (EvolutionSystem.evolution_paths self) /\
  (forall path,
     In path (EvolutionSystem.get_available_evolutions self creature) <->
     In path (EvolutionSystem.evolution_paths self) /\
     EvolutionPath.can_evolve path creature = true) /\
  (EvolutionSystem.can_evolve self creature = true <->
   exists path, In path (EvolutionSystem.evolution_paths self) /\
                EvolutionPath.can_evolve path creature = true) /\
  (forall path,
     EvolutionSystem.get_available_evolutions
       (EvolutionSystem.add_evolution_path self path) creature
     = EvolutionSystem.get_available_evolutions self creature
       ++ (if EvolutionPath.can_evolve path creature then [path] else [])) /\
  (forall creature_type,
     EvolutionSystem.get_available_evolutions
       (EvolutionSystem.register_creature_type self creature_type) creature
     = EvolutionSystem.get_available_evolutions self creature).
Proof.
  unfold EvolutionSystem.get_available_evolutions.
  split; [apply filter_sublist|].
  split; [intros path; apply filter_In|].
  split; [|split].
  - unfold EvolutionSystem.can_evolve,
      EvolutionSystem.get_available_evolutions.
    rewrite Nat.ltb_lt. split.
    + destruct (List.filter _ _) as [|path rest] eqn:E; cbn [length]; [lia|].
      intros _. exists path.
      assert (Hin : In path (path :: rest)) by (by left).
      rewrite <- E in Hin. by apply filter_In in Hin.
    + intros (path & Hpath).
      apply (filter_In (fun p => EvolutionPath.can_evolve p creature)) in Hpath.
      destruct (List.filter _ _); [contradiction|cbn [length]; lia].
  - intros path. cbn [EvolutionSystem.add_evolution_path
                      EvolutionSystem.evolution_paths].
    rewrite List.filter_app. cbn [List.filter].
    by destruct (EvolutionPath.can_evolve path creature).
  - reflexivity.
Qed.

Lemma first_qualifying_available self creature path :
  first_qualifying self creature path ->
  exists rest, EvolutionSystem.get_available_evolutions self creature
               = path :: rest.
Proof.
  intros (before & after & Hpaths & Hbefore & Hpath).
  unfold EvolutionSystem.get_available_evolutions. rewrite Hpaths.
  rewrite List.filter_app. cbn [List.filter]. rewrite Hpath.
  replace (List.filter _ before) with (@nil EvolutionPath.t);
    [by eexists|].
  symmetry. clear Hpaths. induction Hbefore as [|p l Hp _ IH]; [reflexivity|].
  cbn [List.filter]. by rewrite Hp.
Qed.

Section AutomaticPath.
Variable get_effective_stats : Creature.t -> result Stats.

(** X13. Called without a path, [evolve] works with the earliest
    registered path the creature qualifies for, exactly as if that path
    had been passed in; and it returns "No evolution paths available",
    leaving the creature alone, exactly when [can_evolve] of the system
    is false. *)
Theorem evolve_picks_first_registered (self : EvolutionSystem.t)
        (creature : Creature.t) :
  (forall path,
     first_qualifying self creature path ->
     EvolutionSystem.evolve get_effective_stats self creature None
     = EvolutionSystem.evolve get_effective_stats self creature (Some path)) /\
  (EvolutionSystem.can_evolve self creature = true ->
   exists path, first_qualifying self creature path) /\
  (EvolutionSystem.can_evolve self creature = false <->
   EvolutionSystem.evolve get_effective_stats self creature None
   = (creature, Ok (false, "No evolution paths available"))).
Proof.
  split; [|split].
  - intros path Hfirst.
    destruct (first_qualifying_available _ _ _ Hfirst) as [rest Hrest].
    apply evolve_with_path. right. split; [reflexivity|]. by exists rest.
  - unfold EvolutionSystem.can_evolve,
      EvolutionSystem.get_available_evolutions, first_qualifying.
    induction (EvolutionSystem.evolution_paths self) as [|p l IH];
      cbn [List.filter length]; [discriminate|].
    destruct (EvolutionPath.can_evolve p creature) eqn:Hp.
    + intros _. exists p, [], l. by split.
    + intros H. destruct (IH H) as (path & before & after & -> & Hb & Hq).
      exists path, (p :: before), after.
      split; [reflexivity|]. split; [by constructor|assumption].
  - unfold EvolutionSystem.can_evolve, EvolutionSystem.evolve.
    destruct (EvolutionSystem.get_available_evolutions self creature)
      as [|path rest] eqn:Havail; cbn [length].
    + split; reflexivity.
    + split; [discriminate|]. intros H. exfalso.
      assert (Hcan : EvolutionPath.can_evolve path creature = true).
      { apply (uses_path_available get_effective_stats self creature path).
        right. split; [reflexivity|]. by exists rest. }
      rewrite Hcan in H. cbn [negb] in H.
      destruct (EvolutionSystem.creature_types self
                  !! EvolutionPath.to_type path); [|discriminate H].
      destruct (calculate_stats_at_level _ _ _); [|discriminate H].
      destruct (get_effective_stats _); discriminate H.
Qed.

(** X14. In a registry whose species are registered under their own
    names, a creature that has evolved along a path between two
    different species no longer qualifies for that path: its species
    name is now the path's [to_type], at the same level and with the
    same traits. *)
Theorem evolved_creature_left_the_path (self : EvolutionSystem.t)
        (creature creature' : Creature.t) (path : EvolutionPath.t)
        (message : string) :
  names_agree self ->
  EvolutionPath.from_type path <> EvolutionPath.to_type path ->
  EvolutionSystem.evolve get_effective_stats self creature (Some path)
    = (creature', Ok (true, message)) ->
  CreatureType.name (Creature.creature_type creature')
    = EvolutionPath.to_type path /\
  Creature.level creature' = Creature.level creature /\
  Creature.traits creature' = Creature.traits creature /\
  EvolutionPath.can_evolve path creature = true /\
  EvolutionPath.can_evolve path creature' = false.
Proof.
  intros Hnames Hdiff. unfold EvolutionSystem.evolve.
  destruct (EvolutionPath.can_evolve path creature) eqn:Hcan; cbn [negb];
    [|discriminate].
  destruct (EvolutionSystem.creature_types self !! EvolutionPath.to_type path)
    as [target|] eqn:Htarget; [|discriminate].
  destruct (calculate_stats_at_level _ _ _); [|discriminate].
  destruct (get_effective_stats _); [|discriminate].
  intros [= <- _]. cbn.
  pose proof (Hnames _ _ Htarget) as Hname.
  split; [assumption|]. split; [reflexivity|]. split; [reflexivity|].
  split; [reflexivity|].
  unfold EvolutionPath.can_evolve. cbn. rewrite Hname.
  destruct (String.eqb_spec (EvolutionPath.to_type path)
                            (EvolutionPath.from_type path)); [congruence|].
  reflexivity.
Qed.

End AutomaticPath.

(** X15. The registry keeps every species under its own name: the empty
    system does, and [register_creature_type] and [add_evolution_path]
    preserve it.  After registering a species its name looks up that
    species and every other name is as before, so a second registration
    under the same name replaces the first; the paths are untouched.
    [add_evolution_path] puts the path last and leaves the species. *)
Theorem registry_invariant (self : EvolutionSystem.t)
        (creature_type : CreatureType.t) (path : EvolutionPath.t) :
  names_agree EvolutionSystem.init /\
  (names_agree self ->
   names_agree (EvolutionSystem.register_creature_type self creature_type) /\
   names_agree (EvolutionSystem.add_evolution_path self path)) /\
  EvolutionSystem.creature_types
    (EvolutionSystem.register_creature_type self creature_type)
    !! CreatureType.name creature_type = Some creature_type /\
  (forall key, key <> CreatureType.name creature_type ->
     EvolutionSystem.creature_types
       (EvolutionSystem.register_creature_type self creature_type) !! key
     = EvolutionSystem.creature_types self !! key) /\
  (forall other,
     CreatureType.name other = CreatureType.name creature_type ->
     EvolutionSystem.register_creature_type
       (EvolutionSystem.register_creature_type self other) creature_type
     = EvolutionSystem.register_creature_type self creature_type) /\
  EvolutionSystem.evolution_paths
    (EvolutionSystem.register_creature_type self creature_type)
    = EvolutionSystem.evolution_paths self /\
  EvolutionSystem.evolution_paths
    (EvolutionSystem.add_evolution_path self path)
    = EvolutionSystem.evolution_paths self ++ [path] /\
  EvolutionSystem.creature_types
    (EvolutionSystem.add_evolution_path self path)
    = EvolutionSystem.creature_types self.
Proof.
  split; [|split; [|split; [|split; [|split; [|repeat split]]]]].
  - intros key ct H. cbn in H. by rewrite lookup_empty in H.
  - intros Hnames. split; [|exact Hnames].
    intros key ct. cbn [EvolutionSystem.register_creature_type
                        EvolutionSystem.creature_types].
    rewrite lookup_insert. case_decide as E.
    + by intros [= <-].
    + apply Hnames.
  - apply lookup_insert_eq.
  - intros key Hkey. by apply lookup_insert_ne.
  - intros other Hname. unfold EvolutionSystem.register_creature_type.
    cbn [EvolutionSystem.evolution_paths EvolutionSystem.creature_types].
    by rewrite Hname, insert_insert_eq.
Qed.

Lemma example_names_agree : names_agree create_example_evolution_system.
Proof.
  intros key ct. unfold create_example_evolution_system.
  cbn [EvolutionSystem.add_evolution_path EvolutionSystem.creature_types
       EvolutionSystem.register_creature_type EvolutionSystem.init
       EvolutionSystem.evolution_paths].
  repeat (rewrite lookup_insert; case_decide; [subst key; by intros [= <-]|]).
  by rewrite lookup_empty.
Qed.

Lemma registry_invariant_witness :
  names_agree
    (EvolutionSystem.register_creature_type create_example_evolution_system
                                            warrior_type) /\
  names_agree
    (EvolutionSystem.add_evolution_path create_example_evolution_system
                                        to_nowhere).
Proof.
  apply (registry_invariant create_example_evolution_system warrior_type
                            to_nowhere).
  apply example_names_agree.
Defined.

Lemma evolved_creature_left_the_path_witness :
  exists creature',
    CreatureType.name (Creature.creature_type creature')
      = EvolutionPath.to_type to_warrior /\
    Creature.level creature' = Creature.level (creature_of base_type 10) /\
    Creature.traits creature' = Creature.traits (creature_of base_type 10) /\
    EvolutionPath.can_evolve to_warrior (creature_of base_type 10) = true /\
    EvolutionPath.can_evolve to_warrior creature' = false.
Proof.
  eexists.
  apply (evolved_creature_left_the_path effective_is_base
           create_example_evolution_system (creature_of base_type 10) _
           to_warrior "Evolved from Newborn to Warrior!").
  - apply example_names_agree.
  - discriminate.
  - vm_compute. reflexivity.
Defined.

Lemma evolve_picks_first_registered_witness :
  EvolutionSystem.evolve effective_is_base create_example_evolution_system
    (creature_of base_type 10) None
  = EvolutionSystem.evolve effective_is_base create_example_evolution_system
      (creature_of base_type 10) (Some to_warrior).
Proof.
  apply (evolve_picks_first_registered effective_is_base
           create_example_evolution_system (creature_of base_type 10)).
  exists [], [to_speedster]. repeat split. constructor.
Defined.

(* ===================================================================== *)
(** * GeneticsSystem: what breeding hands down *)
(* ===================================================================== *)

Import Random.

Lemma gen_bind_run {A B : Type} (m : Gen A) (k : A -> Gen B) (g : source)
      (a : A) (g' : source) :
  m g = (Ok a, g') -> (m ≫= k) g = k a g'.
Proof. intros H. unfold mbind, Gen_bind. by rewrite H. Qed.

Lemma gen_bind_raise {A B : Type} (m : Gen A) (k : A -> Gen B) (g : source)
      e (g' : source) :
  m g = (Raise e, g') -> (m ≫= k) g = (Raise e, g').
Proof. intros H. unfold mbind, Gen_bind. by rewrite H. Qed.

Lemma average_stat_step (stat1 stat2 : Z) (g : source) :
  0 <= (stat1 + stat2) / 2 ->
  exists v,
    GeneticsSystem.average_stat stat1 stat2 g = (Ok v, advanced 1 g) /\
    in_variation ((stat1 + stat2) / 2) v /\ 1 <= v.
Proof.
  intros Havg.
  destruct (average_stat_run stat1 stat2 g Havg) as (variation & Hv & Hrun).
  eexists. split; [exact Hrun|]. split; [by exists variation|lia].
Qed.

(** X16. [average_stat] on two stats whose average [avg] (rounded down)
    is not negative takes one draw and returns [max 1 (avg + v)] for a
    [v] between [(-avg) // 10] and [avg // 10]; every such [v] is drawn
    from some source.  When the average is negative the range of the
    draw is empty and the call raises [ValueError]. *)
Theorem average_stat_range (stat1 stat2 : Z) (g : Random.source) :
  let avg := (stat1 + stat2) / 2 in
  (0 <= avg ->
   exists v,
     GeneticsSystem.average_stat stat1 stat2 g = (Ok v, advanced 1 g) /\
     in_variation avg v /\ 1 <= v) /\
  (0 <= avg ->
   forall variation, (- avg) / 10 <= variation <= avg / 10 ->
     fst (GeneticsSystem.average_stat stat1 stat2
            (constant_source (variation - (- avg) / 10)))
     = Ok (Z.max 1 (avg + variation))) /\
  (avg < 0 ->
   GeneticsSystem.average_stat stat1 stat2 g = (Raise ValueError, g)).
Proof.
  intros avg. split; [|split].
  - apply average_stat_step.
  - intros Havg variation Hv.
    unfold GeneticsSystem.average_stat, randint. fold avg.
    replace (avg / 10 <? - avg / 10) with false by (symmetry; apply Z.ltb_ge; lia).
    unfold mbind, Gen_bind, mret, Gen_ret, next_raw, constant_source.
    cbn [fst entropy position]. rewrite Z.mod_small by lia.
    do 2 f_equal. lia.
  - intros Hneg. unfold GeneticsSystem.average_stat, randint. fold avg.
    assert (H1 : avg / 10 < 0) by (apply Z.div_lt_upper_bound; lia).
    assert (H2 : 0 <= (- avg) / 10) by (apply Z.div_pos; lia).
    replace (avg / 10 <? - avg / 10) with true by (symmetry; apply Z.ltb_lt; lia).
    reflexivity.
Qed.

Lemma average_stat_range_witness :
  exists v,
    GeneticsSystem.average_stat 15 15 zeros = (Ok v, advanced 1 zeros) /\
    in_variation ((15 + 15) / 2) v /\ 1 <= v.
Proof.
  apply (average_stat_range 15 15 zeros). vm_compute. discriminate.
Defined.

Lemma average_nonneg (a b : Z) : 0 <= a -> 0 <= b -> 0 <= (a + b) / 2.
Proof. intros. apply Z.div_pos; lia. Qed.

Lemma inherit_stats_run (self : GeneticsSystem.t) (parent1 parent2 : Creature.t)
      (g : source) :
  nonneg_stats (Creature.base_stats parent1) = true ->
  nonneg_stats (Creature.base_stats parent2) = true ->
  let p1 := Creature.base_stats parent1 in
  let p2 := Creature.base_stats parent2 in
  exists s,
    GeneticsSystem._inherit_stats self parent1 parent2 g
      = (Ok s, advanced 7 g) /\
    1 <= hp s <= max_hp s /\
    in_variation ((max_hp p1 + max_hp p2) / 2) (max_hp s) /\
    in_variation ((max_hp p1 + max_hp p2) / 2) (hp s) /\
    in_variation ((attack p1 + attack p2) / 2) (attack s) /\
    in_variation ((defense p1 + defense p2) / 2) (defense s) /\
    in_variation ((speed p1 + speed p2) / 2) (speed s) /\
    in_variation ((special_attack p1 + special_attack p2) / 2)
                 (special_attack s) /\
    in_variation ((special_defense p1 + special_defense p2) / 2)
                 (special_defense s) /\
    1 <= attack s /\ 1 <= defense s /\ 1 <= speed s /\
    1 <= special_attack s /\ 1 <= special_defense s.
Proof.
  intros HA HB p1 p2. fold p1 in HA. fold p2 in HB.
  unfold nonneg_stats in HA, HB.
  rewrite !andb_true_iff, !Z.leb_le in HA, HB.
  destruct HA as [[[[[A1 A2] A3] A4] A5] A6], HB as [[[[[B1 B2] B3] B4] B5] B6].
  unfold GeneticsSystem._inherit_stats. fold p1 p2.
  destruct (average_stat_step (max_hp p1) (max_hp p2) g
              (average_nonneg _ _ A1 B1)) as (m & E1 & V1 & L1).
  rewrite (gen_bind_run _ _ _ _ _ E1).
  destruct (average_stat_step (max_hp p1) (max_hp p2) (advanced 1 g)
              (average_nonneg _ _ A1 B1)) as (h & E2 & V2 & L2).
  rewrite (gen_bind_run _ _ _ _ _ E2).
  destruct (average_stat_step (attack p1) (attack p2) (advanced 2 g)
              (average_nonneg _ _ A2 B2)) as (a & E3 & V3 & L3).
  rewrite (gen_bind_run _ _ _ _ _ E3).
  destruct (average_stat_step (defense p1) (defense p2) (advanced 3 g)
              (average_nonneg _ _ A3 B3)) as (d & E4 & V4 & L4).
  rewrite (gen_bind_run _ _ _ _ _ E4).
  destruct (average_stat_step (speed p1) (speed p2) (advanced 4 g)
              (average_nonneg _ _ A4 B4)) as (sp & E5 & V5 & L5).
  rewrite (gen_bind_run _ _ _ _ _ E5).
  destruct (average_stat_step (special_attack p1) (special_attack p2)
              (advanced 5 g) (average_nonneg _ _ A5 B5)) as (sa & E6 & V6 & L6).
  rewrite (gen_bind_run _ _ _ _ _ E6).
  destruct (average_stat_step (special_defense p1) (special_defense p2)
              (advanced 6 g) (average_nonneg _ _ A6 B6)) as (sd & E7 & V7 & L7).
  rewrite (gen_bind_run _ _ _ _ _ E7).
  eexists. split; [reflexivity|].
  unfold Stats_init.
  cbn [hp max_hp attack defense speed special_attack special_defense].
  destruct (Z.ltb_spec m h).
  - repeat split; try assumption; lia.
  - repeat split; try assumption; lia.
Qed.

(** X17. For parents whose base stats are not negative, [_inherit_stats]
    takes seven draws and returns stats in which every field is at
    least 1 and lies in the range [average_stat] has for the parents'
    average of that field (the parents' max hp for both hp and max hp),
    and hp is at most max hp. *)
Theorem inherited_stats_are_valid (self : GeneticsSystem.t)
        (parent1 parent2 : Creature.t) (g : Random.source) :
  nonneg_stats (Creature.base_stats parent1) = true ->
  nonneg_stats (Creature.base_stats parent2) = true ->
  let p1 := Creature.base_stats parent1 in
  let p2 := Creature.base_stats parent2 in
  exists s,
    GeneticsSystem._inherit_stats self parent1 parent2 g
      = (Ok s, advanced 7 g) /\
    1 <= hp s <= max_hp s /\
    in_variation ((max_hp p1 + max_hp p2) / 2) (max_hp s) /\
    in_variation ((max_hp p1 + max_hp p2) / 2) (hp s) /\
    in_variation ((attack p1 + attack p2) / 2) (attack s) /\
    in_variation ((defense p1 + defense p2) / 2) (defense s) /\
    in_variation ((speed p1 + speed p2) / 2) (speed s) /\
    in_variation ((special_attack p1 + special_attack p2) / 2)
                 (special_attack s) /\
    in_variation ((special_defense p1 + special_defense p2) / 2)
                 (special_defense s) /\
    1 <= attack s /\ 1 <= defense s /\ 1 <= speed s /\
    1 <= special_attack s /\ 1 <= special_defense s.
Proof. apply inherit_stats_run. Qed.

Lemma inherited_stats_are_valid_witness :
  let p1 := Creature.base_stats parent_a in
  let p2 := Creature.base_stats parent_b in
  exists s,
    GeneticsSystem._inherit_stats (GeneticsSystem.mk f0_0) parent_a parent_b zeros
      = (Ok s, advanced 7 zeros) /\
    1 <= hp s <= max_hp s /\
    in_variation ((max_hp p1 + max_hp p2) / 2) (max_hp s) /\
    in_variation ((max_hp p1 + max_hp p2) / 2) (hp s) /\
    in_variation ((attack p1 + attack p2) / 2) (attack s) /\
    in_variation ((defense p1 + defense p2) / 2) (defense s) /\
    in_variation ((speed p1 + speed p2) / 2) (speed s) /\
    in_variation ((special_attack p1 + special_attack p2) / 2)
                 (special_attack s) /\
    in_variation ((special_defense p1 + special_defense p2) / 2)
                 (special_defense s) /\
    1 <= attack s /\ 1 <= defense s /\ 1 <= speed s /\
    1 <= special_attack s /\ 1 <= special_defense s.
Proof.
  apply (inherited_stats_are_valid (GeneticsSystem.mk f0_0) parent_a parent_b
           zeros); reflexivity.
Defined.

(* ===================================================================== *)
(** * GeneticsSystem: trait inheritance *)
(* ===================================================================== *)

Lemma advanced_advanced (n m : nat) (g : source) :
  advanced n (advanced m g) = advanced (n + m) g.
Proof. unfold advanced. cbn [entropy position]. f_equal. lia. Qed.

Lemma random_run {B : Type} (k : float -> Gen B) (g : source) :
  (random ≫= k) g
  = k (binary_normalize prec emax (entropy g (position g) mod 2 ^ 53) (-53) false)
      (advanced 1 g).
Proof. reflexivity. Qed.

Lemma mutate_trait_run {B : Type} (self : GeneticsSystem.t) (trait : Trait.t)
      (k : Trait.t -> Gen B) (g : source) :
  exists mutated,
    (GeneticsSystem._mutate_trait self trait ≫= k) g = k mutated (advanced 1 g) /\
    inherited_from trait mutated /\
    Trait.name mutated = Trait.name trait +:+ " (Mutated)".
Proof.
  eexists. split; [reflexivity|]. split; [|reflexivity].
  right. repeat split.
Qed.

(** The first loop returns, having appended to [inherited] at most one
    trait per parent trait, in order, each a parent trait or its
    mutation. *)
Lemma inherit_each_run (self : GeneticsSystem.t) (l : list Trait.t) :
  forall (inherited : list Trait.t) (g : source),
  exists res n,
    GeneticsSystem.inherit_each self l inherited g
      = (Ok (inherited ++ res), advanced n g) /\
    (length l <= n <= 3 * length l)%nat /\
    (length res <= length l)%nat /\
    Forall (fun tr => exists t, In t l /\ inherited_from t tr) res.
Proof.
  induction l as [|trait rest IH]; intros inherited g.
  - exists [], 0%nat. cbn [GeneticsSystem.inherit_each].
    rewrite app_nil_r. destruct g. repeat split; cbn; (lia || constructor).
  - cbn [GeneticsSystem.inherit_each]. rewrite random_run.
    destruct (fltb _ f0_5).
    + rewrite random_run. destruct (fltb _ (GeneticsSystem.mutation_rate self)).
      * destruct (mutate_trait_run self trait
                    (fun mutated_trait =>
                       GeneticsSystem.inherit_each self rest
                         (inherited ++ [mutated_trait]))
                    (advanced 1 (advanced 1 g))) as (mutated & -> & Hfrom & _).
        destruct (IH (inherited ++ [mutated]) (advanced 1 (advanced 1 (advanced 1 g))))
          as (res & n & -> & Hn & Hlen & Hres).
        exists (mutated :: res), (n + 3)%nat.
        rewrite <- app_assoc, !advanced_advanced.
        split; [f_equal; unfold advanced; f_equal; lia|].
        cbn [length]. split; [lia|]. split; [lia|].
        constructor.
        -- exists trait. split; [by left|assumption].
        -- eapply Forall_impl; [exact Hres|].
           intros tr (t & Hin & Hfr). exists t. split; [by right|assumption].
      * destruct (IH (inherited ++ [trait]) (advanced 1 (advanced 1 g)))
          as (res & n & -> & Hn & Hlen & Hres).
        exists (trait :: res), (n + 2)%nat.
        rewrite <- app_assoc, !advanced_advanced.
        split; [f_equal; unfold advanced; f_equal; lia|].
        cbn [length]. split; [lia|]. split; [lia|].
        constructor.
        -- exists trait. split; [by left|by left].
        -- eapply Forall_impl; [exact Hres|].
           intros tr (t & Hin & Hfr). exists t. split; [by right|assumption].
    + destruct (IH inherited (advanced 1 g)) as (res & n & -> & Hn & Hlen & Hres).
      exists res, (n + 1)%nat. rewrite !advanced_advanced.
      split; [reflexivity|].
      cbn [length]. split; [lia|]. split; [lia|].
      eapply Forall_impl; [exact Hres|].
      intros tr (t & Hin & Hfr). exists t. split; [by right|assumption].
Qed.

(** The second loop keeps, in order, the first trait of every name that
    is not in [seen]. *)
Lemma unique_by_name_run (l : list Trait.t) :
  forall (seen : gset string) (unique_traits : list Trait.t),
  exists res,
    GeneticsSystem.unique_by_name l seen unique_traits = unique_traits ++ res /\
    sublist res l /\
    NoDup (map Trait.name res) /\
    (forall tr, In tr res -> Trait.name tr ∉ seen) /\
    (forall tr, In tr l ->
       Trait.name tr ∈ seen \/ In (Trait.name tr) (map Trait.name res)).
Proof.
  induction l as [|trait rest IH]; intros seen unique_traits.
  - exists []. cbn [GeneticsSystem.unique_by_name]. rewrite app_nil_r.
    split; [reflexivity|]. split; [constructor|]. split; [constructor|].
    split; intros tr [].
  - cbn [GeneticsSystem.unique_by_name]. case_bool_decide as Hseen.
    + destruct (IH seen unique_traits) as (res & -> & Hsub & Hnd & Hnew & Hall).
      exists res. split; [reflexivity|]. split; [by constructor|].
      split; [assumption|]. split; [assumption|].
      intros tr [<-|Hin]; [by left|by apply Hall].
    + destruct (IH ({[Trait.name trait]} ∪ seen) (unique_traits ++ [trait]))
        as (res & -> & Hsub & Hnd & Hnew & Hall).
      exists (trait :: res). rewrite <- app_assoc.
      split; [reflexivity|]. split; [by constructor|].
      split.
      { cbn [map]. apply NoDup_cons. split; [|assumption].
        intros Hin. apply list_elem_of_In, in_map_iff in Hin
          as (tr & Hname & Hin).
        apply (Hnew tr Hin). rewrite Hname. set_solver. }
      split.
      { intros tr [<-|Hin]; [assumption|].
        intros Hs. apply (Hnew tr Hin). set_solver. }
      intros tr [<-|Hin]; [right; by left|].
      destruct (Hall tr Hin) as [Hs|Hr]; [|right; by right].
      apply elem_of_union in Hs as [Hs|Hs]; [|by left].
      apply elem_of_singleton in Hs. right. left. by symmetry.
Qed.

Lemma inherit_traits_run (self : GeneticsSystem.t) (parent1 parent2 : Creature.t)
      (g : source) :
  let parents := Creature.traits parent1 ++ Creature.traits parent2 in
  exists inherited traits n,
    GeneticsSystem.inherit_each self parents [] g = (Ok inherited, advanced n g) /\
    GeneticsSystem._inherit_traits self parent1 parent2 g
      = (Ok traits, advanced n g) /\
    (length parents <= n <= 3 * length parents)%nat /\
    (length inherited <= length parents)%nat /\
    Forall (fun tr => exists t, In t parents /\ inherited_from t tr) inherited /\
    sublist traits inherited /\
    NoDup (map Trait.name traits) /\
    (forall tr, In tr inherited -> In (Trait.name tr) (map Trait.name traits)).
Proof.
  intros parents. unfold GeneticsSystem._inherit_traits. fold parents.
  destruct (inherit_each_run self parents [] g) as (res & n & E & Hn & Hlen & Hres).
  cbn [app] in E.
  destruct (unique_by_name_run res ∅ []) as (u & Eu & Hsub & Hnd & _ & Hall).
  cbn [app] in Eu.
  exists res, u, n. split; [exact E|].
  split; [rewrite (gen_bind_run _ _ _ _ _ E), Eu; reflexivity|].
  split; [assumption|]. split; [assumption|]. split; [assumption|].
  split; [assumption|]. split; [assumption|].
  intros tr Hin. destruct (Hall tr Hin) as [Hs|Hr]; [set_solver|assumption].
Qed.


(* ===================================================================== *)
(** * GeneticsSystem: the mutation rate at its ends *)
(* ===================================================================== *)

Lemma random_draw_nonneg (g : source) :
  finite_nonneg
    (binary_normalize prec emax (entropy g (position g) mod 2 ^ 53) (-53) false).
Proof. apply random_unit. Qed.

(** No draw of [random()] is below a rate of 0.0 or less. *)
Lemma fltb_nonpositive (u rate : float) :
  finite_nonneg u -> fleb rate f0_0 = true -> fltb u rate = false.
Proof.
  intros [Hc Hf] Hr.
  destruct u as [su|su| |su mu eu]; try discriminate Hf;
    cbn [canonical_nonneg] in Hc.
  - subst su. by destruct rate as [[]|[]| |[] m e].
  - destruct Hc as (-> & _). by destruct rate as [[]|[]| |[] m e].
Qed.

Lemma ford_lt_fltb (x y : float) :
  canonical_nonneg x -> canonical_nonneg y ->
  ford x < ford y -> fltb x y = true.
Proof.
  intros Hx Hy Hord.
  destruct x as [sx|sx| |sx mx ex], y as [sy|sy| |sy my ey];
    cbn [canonical_nonneg] in Hx, Hy; try contradiction;
    cbn [ford] in Hord; unfold top_ord, raw_ord in Hord;
    change (2 ^ 53) with 9007199254740992 in *;
    change (2 ^ 52) with 4503599627370496 in *;
    repeat match goal with H : _ /\ _ |- _ => destruct H end; subst;
    try reflexivity; try (exfalso; lia).
  unfold fltb, SFltb. cbn [SFcompare].
  destruct (Z.compare_spec ex ey) as [->|Hlt|Hgt].
  - change (Pos.compare_cont Eq mx my) with (Pos.compare mx my).
    destruct (Pos.compare_spec mx my); try reflexivity; exfalso; lia.
  - reflexivity.
  - exfalso. lia.
Qed.

(** Every draw of [random()] is at most [1 - 2^-53]. *)
Lemma random_at_most_largest (r : Z) :
  let u := binary_normalize prec emax (r mod 2 ^ 53) (-53) false in
  canonical_nonneg u /\ ford u <= ford largest_draw.
Proof.
  intros u. subst u.
  pose proof (Z.mod_pos_bound r (2 ^ 53) ltac:(lia)) as Hk.
  destruct (r mod 2 ^ 53) as [|k|k] eqn:Ek; [| |lia].
  { split; [reflexivity|]. cbn [binary_normalize ford]. vm_compute. discriminate. }
  cbn [binary_normalize].
  pose proof (pow2_pos (-53 - base) ltac:(unfold base; lia)) as Hp.
  destruct (Zpos k * 2 ^ (-53 - base)) as [|N|N] eqn:EN; [lia| |lia].
  rewrite (binary_round_at false k N (-53) base);
    [|unfold base; lia|unfold base; lia|by rewrite EN].
  destruct (9007199254740991 * 2 ^ (-53 - base)) as [|T|T] eqn:ET; [lia| |lia].
  assert (Htop : largest_draw = round_at false T base).
  { change largest_draw
      with (binary_round prec emax false 9007199254740991 (-53)).
    apply binary_round_at; [unfold base; lia..|by rewrite ET]. }
  rewrite Htop. split; [apply round_at_canonical; unfold base; lia|].
  apply round_at_mono; [unfold base; lia|].
  rewrite <- EN, <- ET. change (2 ^ 53) with 9007199254740992 in Hk. nia.
Qed.

Lemma random_below_rate (r : Z) (rate : float) :
  at_least_one rate ->
  fltb (binary_normalize prec emax (r mod 2 ^ 53) (-53) false) rate = true.
Proof.
  intros [Hc Hone]. destruct (random_at_most_largest r) as [Hu Hle].
  apply ford_lt_fltb; try assumption.
  assert (ford largest_draw < ford f1_0) by (vm_compute; reflexivity).
  lia.
Qed.

Lemma inherit_each_unmutated (self : GeneticsSystem.t) (l : list Trait.t) :
  fleb (GeneticsSystem.mutation_rate self) f0_0 = true ->
  forall (inherited : list Trait.t) (g : source),
  exists res n,
    GeneticsSystem.inherit_each self l inherited g
      = (Ok (inherited ++ res), advanced n g) /\
    (length l <= n <= 2 * length l)%nat /\
    sublist res l.
Proof.
  intros Hrate. induction l as [|trait rest IH]; intros inherited g.
  - exists [], 0%nat. cbn [GeneticsSystem.inherit_each].
    rewrite app_nil_r. destruct g. repeat split; cbn; (lia || constructor).
  - cbn [GeneticsSystem.inherit_each]. rewrite random_run.
    destruct (fltb _ f0_5).
    + rewrite random_run.
      rewrite (fltb_nonpositive _ _ (random_draw_nonneg (advanced 1 g)) Hrate).
      destruct (IH (inherited ++ [trait]) (advanced 1 (advanced 1 g)))
        as (res & n & -> & Hn & Hsub).
      exists (trait :: res), (n + 2)%nat.
      rewrite <- app_assoc, !advanced_advanced.
      split; [f_equal; unfold advanced; f_equal; lia|].
      cbn [length]. split; [lia|]. by constructor.
    + destruct (IH inherited (advanced 1 g)) as (res & n & -> & Hn & Hsub).
      exists res, (n + 1)%nat. rewrite !advanced_advanced.
      split; [reflexivity|].
      cbn [length]. split; [lia|]. by constructor.
Qed.

Lemma inherit_each_all_mutated (self : GeneticsSystem.t) (l : list Trait.t) :
  at_least_one (GeneticsSystem.mutation_rate self) ->
  forall (inherited : list Trait.t) (g : source),
  exists res n,
    GeneticsSystem.inherit_each self l inherited g
      = (Ok (inherited ++ res), advanced n g) /\
    Forall (fun tr => exists t, In t l /\
                      Trait.name tr = Trait.name t +:+ " (Mutated)") res.
Proof.
  intros Hrate. induction l as [|trait rest IH]; intros inherited g.
  - exists [], 0%nat. cbn [GeneticsSystem.inherit_each].
    rewrite app_nil_r. destruct g. split; [reflexivity|constructor].
  - cbn [GeneticsSystem.inherit_each]. rewrite random_run.
    destruct (fltb _ f0_5).
    + rewrite random_run. rewrite (random_below_rate _ _ Hrate).
      destruct (mutate_trait_run self trait
                  (fun mutated_trait =>
                     GeneticsSystem.inherit_each self rest
                       (inherited ++ [mutated_trait]))
                  (advanced 1 (advanced 1 g))) as (mutated & -> & _ & Hname).
      destruct (IH (inherited ++ [mutated]) (advanced 1 (advanced 1 (advanced 1 g))))
        as (res & n & -> & Hres).
      exists (mutated :: res), (n + 3)%nat.
      rewrite <- app_assoc, !advanced_advanced.
      split; [f_equal; unfold advanced; f_equal; lia|].
      constructor.
      * exists trait. split; [by left|assumption].
      * eapply Forall_impl; [exact Hres|].
        intros tr (t & Hin & Hfr). exists t. split; [by right|assumption].
    + destruct (IH inherited (advanced 1 g)) as (res & n & -> & Hres).
      exists res, (n + 1)%nat. rewrite !advanced_advanced.
      split; [reflexivity|].
      eapply Forall_impl; [exact Hres|].
      intros tr (t & Hin & Hfr). exists t. split; [by right|assumption].
Qed.

(** X19. With a mutation rate of 0.0 or less no trait is mutated: the
    traits [_inherit_traits] returns are traits of the parents, in the
    parents' order (first parent first), with pairwise different names,
    and the call takes at most two draws per parent trait. *)
Theorem no_mutation_at_rate_zero
        (self : GeneticsSystem.t) (parent1 parent2 : Creature.t)
        (g : Random.source) :
  fleb (GeneticsSystem.mutation_rate self) f0_0 = true ->
  let parents := Creature.traits parent1 ++ Creature.traits parent2 in
  exists traits n,
    GeneticsSystem._inherit_traits self parent1 parent2 g
      = (Ok traits, advanced n g) /\
    (length parents <= n <= 2 * length parents)%nat /\
    sublist traits parents /\
    NoDup (map Trait.name traits).
Proof.
  intros Hrate parents. unfold GeneticsSystem._inherit_traits. fold parents.
  destruct (inherit_each_unmutated self parents Hrate [] g)
    as (res & n & E & Hn & Hsub).
  cbn [app] in E.
  destruct (unique_by_name_run res ∅ []) as (u & Eu & Hu & Hnd & _).
  cbn [app] in Eu.
  exists u, n. split; [rewrite (gen_bind_run _ _ _ _ _ E), Eu; reflexivity|].
  split; [assumption|]. split; [by etrans|assumption].
Qed.

Lemma no_mutation_at_rate_zero_witness :
  let parents := Creature.traits mother ++ Creature.traits father in
  exists traits n,
    GeneticsSystem._inherit_traits (GeneticsSystem.mk f0_0) mother father zeros
      = (Ok traits, advanced n zeros) /\
    (length parents <= n <= 2 * length parents)%nat /\
    sublist traits parents /\
    NoDup (map Trait.name traits).
Proof.
  apply (no_mutation_at_rate_zero (GeneticsSystem.mk f0_0) mother father zeros).
  reflexivity.
Defined.

(** X20. With a mutation rate of 1.0 or more every inherited trait is
    mutated: each trait [_inherit_traits] returns has the name of a
    parent trait followed by " (Mutated)". *)
Theorem all_mutated_at_rate_one
        (self : GeneticsSystem.t) (parent1 parent2 : Creature.t)
        (g : Random.source) :
  at_least_one (GeneticsSystem.mutation_rate self) ->
  let parents := Creature.traits parent1 ++ Creature.traits parent2 in
  exists traits g',
    GeneticsSystem._inherit_traits self parent1 parent2 g = (Ok traits, g') /\
    Forall (fun tr => exists t, In t parents /\
                      Trait.name tr = Trait.name t +:+ " (Mutated)") traits.
Proof.
  intros Hrate parents. unfold GeneticsSystem._inherit_traits. fold parents.
  destruct (inherit_each_all_mutated self parents Hrate [] g)
    as (res & n & E & Hres).
  cbn [app] in E.
  destruct (unique_by_name_run res ∅ []) as (u & Eu & Hu & _).
  cbn [app] in Eu.
  exists u, (advanced n g).
  split; [rewrite (gen_bind_run _ _ _ _ _ E), Eu; reflexivity|].
  rewrite Forall_forall in Hres |- *. intros tr Hin. apply Hres.
  eapply elem_of_sublist; [exact Hin|exact Hu].
Qed.

Lemma all_mutated_at_rate_one_witness :
  let parents := Creature.traits mother ++ Creature.traits father in
  exists traits g',
    GeneticsSystem._inherit_traits (GeneticsSystem.mk f1_0) mother father zeros
      = (Ok traits, g') /\
    Forall (fun tr => exists t, In t parents /\
                      Trait.name tr = Trait.name t +:+ " (Mutated)") traits.
Proof.
  apply (all_mutated_at_rate_one (GeneticsSystem.mk f1_0) mother father zeros).
  split; [apply canonical_f1_0|simpl; lia].
Defined.

(* ===================================================================== *)
(** * GeneticsSystem.breed *)
(* ===================================================================== *)

Lemma choice_pair_run {A B : Type} (a b : A) (k : A -> Gen B) (g : source) :
  exists x, (choice [a; b] ≫= k) g = k x (advanced 1 g) /\ (x = a \/ x = b).
Proof.
  eexists. split; [reflexivity|].
  cbn [length]. change (Z.of_nat 2) with 2.
  pose proof (Z.mod_pos_bound (entropy g (position g)) 2 ltac:(lia)) as Hr.
  destruct (Z.to_nat (entropy g (position g) mod 2)) as [|[|n]] eqn:E;
    cbn [nth]; [by left|by right|lia].
Qed.

Section BreedFacts.
Variable Creature_init :
  string -> CreatureType.t -> Z -> Stats -> list Trait.t -> Creature.t.

(** X21. For parents whose base stats are not negative [breed] raises
    nothing: it calls the constructor with the given name, the species
    of one of the two parents, level 1, inherited stats with
    [1 <= hp <= max_hp], and traits with pairwise different names, after
    one draw for the species, seven for the stats and one to three per
    parent trait.  For parents whose max hp average is negative it
    raises [ValueError]. *)
Theorem breed_offspring (self : GeneticsSystem.t)
        (parent1 parent2 : Creature.t) (offspring_name : string)
        (g : Random.source) :
  let parents := Creature.traits parent1 ++ Creature.traits parent2 in
  (nonneg_stats (Creature.base_stats parent1) = true ->
   nonneg_stats (Creature.base_stats parent2) = true ->
   exists offspring_type inherited_stats inherited_traits n,
     GeneticsSystem.breed Creature_init self parent1 parent2 offspring_name g
     = (Ok (Creature_init offspring_name offspring_type 1 inherited_stats
                          inherited_traits), advanced n g) /\
     (offspring_type = Creature.creature_type parent1 \/
      offspring_type = Creature.creature_type parent2) /\
     1 <= hp inherited_stats <= max_hp inherited_stats /\
     NoDup (map Trait.name inherited_traits) /\
     (length inherited_traits <= length parents)%nat /\
     (8 + length parents <= n <= 8 + 3 * length parents)%nat) /\
  ((max_hp (Creature.base_stats parent1)
    + max_hp (Creature.base_stats parent2)) / 2 < 0 ->
   GeneticsSystem.breed Creature_init self parent1 parent2 offspring_name g
   = (Raise ValueError, advanced 1 g)).
Proof.
  intros parents. split.
  - intros H1 H2. unfold GeneticsSystem.breed.
    destruct (choice_pair_run (Creature.creature_type parent1)
                (Creature.creature_type parent2)
                (fun offspring_type =>
                   inherited_stats ← GeneticsSystem._inherit_stats self parent1 parent2;
                   inherited_traits ← GeneticsSystem._inherit_traits self parent1 parent2;
                   mret (Creature_init offspring_name offspring_type 1
                                       inherited_stats inherited_traits)) g)
      as (ty & -> & Hty).
    destruct (inherit_stats_run self parent1 parent2 (advanced 1 g) H1 H2)
      as (s & Es & Hhp & _).
    rewrite (gen_bind_run _ _ _ _ _ Es).
    destruct (inherit_traits_run self parent1 parent2 (advanced 7 (advanced 1 g)))
      as (inherited & traits & n & _ & Et & Hn & Hlen & _ & Hsub & Hnd & _).
    rewrite (gen_bind_run _ _ _ _ _ Et).
    exists ty, s, traits, (n + 8)%nat. rewrite !advanced_advanced.
    split; [unfold mret, Gen_ret; f_equal; unfold advanced; f_equal; lia|].
    split; [assumption|]. split; [assumption|]. split; [assumption|].
    apply sublist_length in Hsub. fold parents in Hn, Hlen. lia.
  - intros Hneg. unfold GeneticsSystem.breed.
    destruct (choice_pair_run (Creature.creature_type parent1)
                (Creature.creature_type parent2)
                (fun offspring_type =>
                   inherited_stats ← GeneticsSystem._inherit_stats self parent1 parent2;
                   inherited_traits ← GeneticsSystem._inherit_traits self parent1 parent2;
                   mret (Creature_init offspring_name offspring_type 1
                                       inherited_stats inherited_traits)) g)
      as (ty & -> & _).
    apply gen_bind_raise. unfold GeneticsSystem._inherit_stats.
    apply gen_bind_raise.
    unfold GeneticsSystem.average_stat, randint.
    set (avg := (max_hp (Creature.base_stats parent1)
                 + max_hp (Creature.base_stats parent2)) / 2) in *.
    assert (H1 : avg / 10 < 0) by (apply Z.div_lt_upper_bound; lia).
    assert (H2 : 0 <= (- avg) / 10) by (apply Z.div_pos; lia).
    replace (avg / 10 <? - avg / 10) with true by (symmetry; apply Z.ltb_lt; lia).
    reflexivity.
Qed.

End BreedFacts.

Lemma breed_offspring_witness :
  exists offspring_type inherited_stats inherited_traits n,
    GeneticsSystem.breed
      (fun name ty level stats traits =>
         Creature.mk name ty level stats stats traits [] 100 100)
      (GeneticsSystem.mk f0_0) mother father "Offspring" zeros
    = (Ok (Creature.mk "Offspring" offspring_type 1 inherited_stats
                       inherited_stats inherited_traits [] 100 100),
       advanced n zeros) /\
    (offspring_type = Creature.creature_type mother \/
     offspring_type = Creature.creature_type father) /\
    1 <= hp inherited_stats <= max_hp inherited_stats /\
    NoDup (map Trait.name inherited_traits) /\
    (length inherited_traits
     <= length (Creature.traits mother ++ Creature.traits father))%nat /\
    (8 + length (Creature.traits mother ++ Creature.traits father) <= n
     <= 8 + 3 * length (Creature.traits mother ++ Creature.traits father))%nat.
Proof.
  apply (breed_offspring
           (fun name ty level stats traits =>
              Creature.mk name ty level stats stats traits [] 100 100)
           (GeneticsSystem.mk f0_0) mother father "Offspring" zeros);
    reflexivity.
Defined.

(* ===================================================================== *)
(** * Buffs, unknown curves and negative amounts *)
(* ===================================================================== *)

Lemma float_of_int_raises (n : Z) :
  (exists x, float_of_int n = Ok x) \/ float_of_int n = Raise OverflowError.
Proof.
  unfold float_of_int. destruct (is_finite _); [left; by eexists|by right].
Qed.

Lemma int_of_canonical (x : float) :
  canonical_nonneg x ->
  (exists v, int_of_float x = Ok v) \/ int_of_float x = Raise OverflowError.
Proof.
  destruct x as [s|s| |s m e]; cbn [canonical_nonneg int_of_float];
    try contradiction; intros _; [left|right|left]; by eexists.
Qed.

(** [int(old * multiplier + bonus)] with a multiplier of at least 1.0
    and a bonus that is not negative is at least [old], unless the
    float arithmetic overflows. *)
Lemma scaled_raises (old bonus : Z) (multiplier : float) :
  small_nonneg old = true -> raising multiplier -> 0 <= bonus ->
  (exists v, scaled old multiplier bonus = Ok v /\ old <= v) \/
  scaled old multiplier bonus = Raise OverflowError.
Proof.
  intros Hold [Fm Hm] Hbonus.
  destruct (float_of_small old Hold) as (X & EX & FX & Hint).
  unfold scaled, int_mul_float, float_add_int. rewrite EX, !result_bind_Ok.
  destruct (float_of_int_raises bonus) as [[B EB]| ->]; [|by right].
  rewrite EB, result_bind_Ok.
  pose proof (float_of_int_nonneg bonus B Hbonus EB) as FB.
  assert (F1 : finite_nonneg f1_0) by (split; [apply canonical_f1_0|reflexivity]).
  assert (Hone : 0 < value f1_0) by (apply value_pos; unfold base; lia).
  destruct (fmul_mono_r X f1_0 multiplier (proj1 FX) F1 Fm Hone Hm)
    as (_ & HP & HXP).
  rewrite (fmul_one X FX) in HXP.
  set (P := fmul X multiplier) in *.
  destruct (canonical_cases P HP) as [FP|EP].
  - assert (HQ : canonical_nonneg (fadd P B) /\ ford P <= ford (fadd P B)).
    { rewrite fadd_round by assumption. split; [apply round_val_canonical|].
      rewrite <- (round_val_value P FP) at 1. apply round_val_mono.
      destruct B as [s|s| |s m e]; cbn [value]; lia. }
    destruct HQ as [HQ HPQ].
    destruct (int_of_canonical _ HQ) as [[v Ev]|Eo]; [left|by right].
    exists v. split; [assumption|].
    apply (int_of_float_mono X (fadd P B) old v (proj1 FX) HQ); [lia|assumption..].
  - right. rewrite EP.
    destruct FB as [HB FB].
    destruct B as [s|s| |s m e]; try discriminate FB; cbn [canonical_nonneg] in HB.
    + subst s. reflexivity.
    + destruct HB as (-> & _). reflexivity.
Qed.

(** X22. A modifier whose multipliers are finite and at least 1.0 and
    whose bonuses are not negative lowers none of the five scalable
    stats and not max hp, for stats that are not negative and below
    2^53: whenever [apply_modifier] returns, each of them is at least
    what it was; and every one of the scalings either returns such a
    value or raises [OverflowError]. *)
Theorem buff_never_lowers_a_stat (s t : Stats) (m : StatModifier) :
  small_nonneg_stats s = true ->
  raising (attack_multiplier m) /\ raising (defense_multiplier m) /\
  raising (speed_multiplier m) /\ raising (special_attack_multiplier m) /\
  raising (special_defense_multiplier m) /\ raising (max_hp_multiplier m) ->
  0 <= attack_bonus m /\ 0 <= defense_bonus m /\ 0 <= speed_bonus m /\
  0 <= special_attack_bonus m /\ 0 <= special_defense_bonus m /\
  0 <= max_hp_bonus m ->
  ((exists v, scaled (attack s) (attack_multiplier m) (attack_bonus m) = Ok v /\
              attack s <= v) \/
   scaled (attack s) (attack_multiplier m) (attack_bonus m)
   = Raise OverflowError) /\
  (modified_value s m = Ok t ->
   attack s <= attack t /\ defense s <= defense t /\ speed s <= speed t /\
   special_attack s <= special_attack t /\
   special_defense s <= special_defense t /\ max_hp s <= max_hp t).
Proof.
  unfold small_nonneg_stats. rewrite !andb_true_iff.
  intros [[[[[E1 E2] E3] E4] E5] E6] (M1 & M2 & M3 & M4 & M5 & M6)
         (B1 & B2 & B3 & B4 & B5 & B6).
  split; [by apply scaled_raises|].
  unfold modified_value.
  destruct (scaled_raises _ _ _ E2 M1 B1) as [(a & -> & Ha)| ->]; [|discriminate].
  destruct (scaled_raises _ _ _ E3 M2 B2) as [(d & -> & Hd)| ->]; [|discriminate].
  destruct (scaled_raises _ _ _ E4 M3 B3) as [(sp & -> & Hsp)| ->]; [|discriminate].
  destruct (scaled_raises _ _ _ E5 M4 B4) as [(sa & -> & Hsa)| ->]; [|discriminate].
  destruct (scaled_raises _ _ _ E6 M5 B5) as [(sd & -> & Hsd)| ->]; [|discriminate].
  destruct (scaled_raises _ _ _ E1 M6 B6) as [(mh & -> & Hmh)| ->]; [|discriminate].
  rewrite !result_bind_Ok.
  destruct (hp_ratio_of s) as [ratio|]; [|discriminate].
  rewrite result_bind_Ok.
  destruct (int_mul_float mh ratio) as [p|]; [|discriminate].
  rewrite result_bind_Ok.
  destruct (int_of_float p) as [h|]; [|discriminate].
  rewrite !result_bind_Ok. intros [= <-].
  cbn [attack defense speed special_attack special_defense max_hp].
  repeat split; assumption.
Qed.

Lemma raising_f1_0 : raising f1_0.
Proof. split; [split; [apply canonical_f1_0|reflexivity]|lia]. Qed.

Lemma raising_f2_0 : raising f2_0.
Proof.
  split; [canonical_constant|].
  unfold f1_0, f2_0. cbn [value].
  replace (-51 - base) with ((-52 - base) + 1) by lia.
  rewrite pow2_split by (unfold base; lia).
  pose proof (pow2_pos (-52 - base) ltac:(unfold base; lia)).
  change (2 ^ 1) with 2. lia.
Qed.

Lemma buff_never_lowers_a_stat_witness :
  ((exists v, scaled (attack default_stats) (attack_multiplier buff)
                     (attack_bonus buff) = Ok v /\
              attack default_stats <= v) \/
   scaled (attack default_stats) (attack_multiplier buff) (attack_bonus buff)
   = Raise OverflowError) /\
  (modified_value default_stats buff = Ok (mkStats 100 100 23 10 10 10 10) ->
   attack default_stats <= attack (mkStats 100 100 23 10 10 10 10) /\
   defense default_stats <= defense (mkStats 100 100 23 10 10 10 10) /\
   speed default_stats <= speed (mkStats 100 100 23 10 10 10 10) /\
   special_attack default_stats
     <= special_attack (mkStats 100 100 23 10 10 10 10) /\
   special_defense default_stats
     <= special_defense (mkStats 100 100 23 10 10 10 10) /\
   max_hp default_stats <= max_hp (mkStats 100 100 23 10 10 10 10)).
Proof.
  apply (buff_never_lowers_a_stat default_stats
           (mkStats 100 100 23 10 10 10 10) buff).
  - reflexivity.
  - repeat split; try apply raising_f1_0; apply raising_f2_0.
  - simpl. lia.
Defined.

(** X23. A growth profile whose curve tag is none of "slow",
    "medium_slow", "medium_fast" and "fast" computes the stats of the
    same profile with the tag "medium_fast", for every base and level:
    an unknown tag raises nothing and means a multiplier of 1.0. *)
Theorem unknown_curve_is_medium_fast (g : StatGrowth) (base : Stats)
        (level : Z) :
  growth_curve g <> "slow" -> growth_curve g <> "medium_slow" ->
  growth_curve g <> "fast" ->
  _get_growth_multiplier g level = f1_0 /\
  calculate_stats_at_level g base level
  = calculate_stats_at_level (with_curve "medium_fast" g) base level.
Proof.
  intros H1 H2 H3.
  assert (E : _get_growth_multiplier g level = f1_0).
  { unfold _get_growth_multiplier.
    rewrite lookup_insert. case_decide; [congruence|].
    rewrite lookup_insert. case_decide; [congruence|].
    rewrite lookup_insert. case_decide; [reflexivity|].
    rewrite lookup_insert. case_decide; [congruence|].
    by rewrite lookup_empty. }
  split; [exact E|].
  unfold calculate_stats_at_level. rewrite E. reflexivity.
Qed.

Lemma unknown_curve_is_medium_fast_witness :
  _get_growth_multiplier (default_growth "erratic") 7 = f1_0 /\
  calculate_stats_at_level (default_growth "erratic") wounded 7
  = calculate_stats_at_level
      (with_curve "medium_fast" (default_growth "erratic")) wounded 7.
Proof.
  apply (unknown_curve_is_medium_fast (default_growth "erratic") wounded 7);
    discriminate.
Defined.

(** X24. Negative amounts are not rejected and not clamped the other
    way: on stats with [0 <= hp], [take_damage] of a negative amount
    raises hp by its magnitude, past max hp if it is large enough, and
    on stats with [hp <= max_hp], [heal] of a negative amount lowers hp
    by its magnitude, below 0 if it is large enough; both return the
    negative amount. *)
Theorem negative_amounts_are_not_clamped (σ : store) (self : ref) (s : Stats)
        (amount : Z) :
  σ !! self = Some s ->
  amount < 0 ->
  (0 <= hp s ->
   take_damage self amount σ
   = (Ok amount, <[self := set_hp (hp s - amount) s]> σ)) /\
  (hp s <= max_hp s ->
   heal self amount σ
   = (Ok amount, <[self := set_hp (hp s + amount) s]> σ)).
Proof.
  intros H Hneg. split; intros Hhp.
  - rewrite (take_damage_run _ _ _ _ H).
    replace (Z.max 0 (hp s - amount)) with (hp s - amount) by lia.
    do 2 f_equal. lia.
  - rewrite (heal_run _ _ _ _ H).
    replace (Z.min (hp s + amount) (max_hp s)) with (hp s + amount) by lia.
    do 2 f_equal. lia.
Qed.

Lemma negative_amounts_are_not_clamped_witness :
  (0 <= hp wounded ->
   take_damage 0%nat (-50) wounded_store
   = (Ok (-50), <[0%nat := set_hp (hp wounded - -50) wounded]> wounded_store)) /\
  (hp wounded <= max_hp wounded ->
   heal 0%nat (-50) wounded_store
   = (Ok (-50), <[0%nat := set_hp (hp wounded + -50) wounded]> wounded_store)).
Proof.
  apply (negative_amounts_are_not_clamped wounded_store 0%nat wounded (-50)).
  - reflexivity.
  - lia.
Defined.

(* ===================================================================== *)
(** * Evolution paths as the creature develops *)
(* ===================================================================== *)

(** X25. In the system [create_example_evolution_system] builds, the
    paths available to a creature are the one to "Warrior" and then the
    one to "Speedster" when its species is named "Newborn" and its level
    is at least 10, and none otherwise. *)
Theorem example_system_paths (creature : Creature.t) :
  EvolutionSystem.get_available_evolutions create_example_evolution_system
                                           creature
  = if String.eqb (CreatureType.name (Creature.creature_type creature))
                  "Newborn"
       && (10 <=? Creature.level creature)
    then [to_warrior; to_speedster] else [].
Proof.
  unfold EvolutionSystem.get_available_evolutions,
    create_example_evolution_system.
  cbn [EvolutionSystem.add_evolution_path EvolutionSystem.evolution_paths
       EvolutionSystem.register_creature_type EvolutionSystem.init app
       List.filter].
  unfold EvolutionPath.can_evolve.
  cbn [EvolutionPath.from_type EvolutionPath.min_level
       EvolutionPath.required_traits to_warrior to_speedster forallb].
  destruct (String.eqb _ "Newborn"); cbn [negb andb]; [|reflexivity].
  destruct (Z.ltb_spec (Creature.level creature) 10),
    (Z.leb_spec 10 (Creature.level creature)); try lia; reflexivity.
Qed.

(** X26. A path a creature qualifies for stays open as the creature
    develops: with the same species name, a level that is not lower and
    every earlier trait still present, the creature qualifies again. *)
Theorem path_stays_open (path : EvolutionPath.t) (before after : Creature.t) :
  EvolutionPath.can_evolve path before = true ->
  CreatureType.name (Creature.creature_type after)
    = CreatureType.name (Creature.creature_type before) ->
  Creature.level before <= Creature.level after ->
  (forall trait, In trait (Creature.traits before) ->
                 In trait (Creature.traits after)) ->
  EvolutionPath.can_evolve path after = true.
Proof.
  unfold EvolutionPath.can_evolve. intros H Hname Hlevel Htraits.
  rewrite Hname.
  destruct (negb _); [discriminate|].
  destruct (Z.ltb_spec (Creature.level before) (EvolutionPath.min_level path));
    [discriminate|].
  destruct (Z.ltb_spec (Creature.level after) (EvolutionPath.min_level path));
    [lia|].
  rewrite forallb_forall in H |- *. intros trait_name Hin.
  specialize (H trait_name Hin). unfold Creature.has_trait in *.
  apply existsb_exists in H as (trait & Htrait & Heq).
  apply existsb_exists. exists trait. split; [by apply Htraits|assumption].
Qed.

Lemma path_stays_open_witness :
  EvolutionPath.can_evolve to_warrior (creature_of base_type 12) = true.
Proof.
  apply (path_stays_open to_warrior (creature_of base_type 10)
                         (creature_of base_type 12)).
  - reflexivity.
  - reflexivity.
  - simpl. lia.
  - intros trait H. exact H.
Defined.

(* ===================================================================== *)
(** * What apply_modifier and evolve do at their edges *)
(* ===================================================================== *)

Lemma bind_no_zero_division {A B : Type} (r : result A) (k : A -> result B) :
  r <> Raise ZeroDivisionError ->
  (forall a, k a <> Raise ZeroDivisionError) ->
  (r ≫= k) <> Raise ZeroDivisionError.
Proof.
  intros Hr Hk. destruct r as [a|e]; [apply Hk|].
  rewrite result_bind_Raise. intros [= ->]. by apply Hr.
Qed.

Lemma float_of_int_no_zero_division (n : Z) :
  float_of_int n <> Raise ZeroDivisionError.
Proof. destruct (float_of_int_raises n) as [[x ->]| ->]; discriminate. Qed.

Lemma int_of_float_no_zero_division (x : float) :
  int_of_float x <> Raise ZeroDivisionError.
Proof. destruct x; discriminate. Qed.

Lemma scaled_no_zero_division (old bonus : Z) (multiplier : float) :
  scaled old multiplier bonus <> Raise ZeroDivisionError.
Proof.
  unfold scaled, int_mul_float, float_add_int.
  apply bind_no_zero_division.
  - apply bind_no_zero_division;
      [apply float_of_int_no_zero_division|intros; discriminate].
  - intros p. apply bind_no_zero_division.
    + apply bind_no_zero_division;
        [apply float_of_int_no_zero_division|intros; discriminate].
    + intros q. apply int_of_float_no_zero_division.
Qed.

Lemma hp_ratio_no_zero_division (s : Stats) :
  hp_ratio_of s <> Raise ZeroDivisionError.
Proof.
  unfold hp_ratio_of, int_truediv.
  destruct (Z.ltb_spec 0 (max_hp s)) as [Hpos|_]; [|discriminate].
  destruct (Z.eqb_spec (max_hp s) 0); [lia|].
  destruct (is_finite _); discriminate.
Qed.

Lemma modified_value_no_zero_division (s : Stats) (m : StatModifier) :
  modified_value s m <> Raise ZeroDivisionError.
Proof.
  unfold modified_value, int_mul_float.
  do 6 (apply bind_no_zero_division; [apply scaled_no_zero_division|intros ?]).
  apply bind_no_zero_division; [apply hp_ratio_no_zero_division|intros ?].
  apply bind_no_zero_division; [|intros; discriminate].
  apply bind_no_zero_division.
  - apply bind_no_zero_division;
      [apply float_of_int_no_zero_division|intros; discriminate].
  - intros. apply int_of_float_no_zero_division.
Qed.

(** X27. [apply_modifier] never raises [ZeroDivisionError]: the hp ratio
    is only computed when max hp is positive.  When the receiver's max
    hp is 0 or negative the ratio is taken as 1.0, so the new object is
    at full hp whenever its max hp is not negative and below 2^53. *)
Theorem apply_modifier_guards_division (σ : store) (self : ref) (s : Stats)
        (m : StatModifier) :
  σ !! self = Some s ->
  (apply_modifier self m σ).1 <> Raise ZeroDivisionError /\
  (max_hp s <= 0 ->
   forall r σ' t,
     apply_modifier self m σ = (Ok r, σ') -> σ' !! r = Some t ->
     small_nonneg (max_hp t) = true -> hp t = max_hp t).
Proof.
  intros H.
  destruct (apply_modifier_run σ self s m H) as (t' & Hrun & Ht').
  split.
  - rewrite Hrun. cbn [fst].
    pose proof (modified_value_no_zero_division s m) as Hno.
    destruct (modified_value s m) as [t|e]; [discriminate|].
    intros [= ->]. by apply Hno.
  - intros Hmax r σ' t Happ Hr Hsmall. rewrite Hrun in Happ.
    destruct (modified_value s m) as [t0|e] eqn:Hval; [|discriminate].
    injection Happ as <- <-. rewrite (Ht' t0 eq_refl), lookup_insert_eq in Hr.
    injection Hr as ->.
    unfold modified_value in Hval.
    destruct (scaled (attack s) _ _); [|discriminate].
    destruct (scaled (defense s) _ _); [|discriminate].
    destruct (scaled (speed s) _ _); [|discriminate].
    destruct (scaled (special_attack s) _ _); [|discriminate].
    destruct (scaled (special_defense s) _ _); [|discriminate].
    destruct (scaled (max_hp s) _ _) as [mh|]; [|discriminate].
    rewrite !result_bind_Ok in Hval. unfold hp_ratio_of in Hval.
    replace (0 <? max_hp s) with false in Hval
      by (symmetry; apply Z.ltb_ge; lia).
    rewrite result_bind_Ok in Hval. unfold int_mul_float in Hval.
    destruct (float_of_int mh) as [X|] eqn:EX; [|discriminate].
    rewrite !result_bind_Ok in Hval.
    destruct (int_of_float (fmul X f1_0)) as [h|] eqn:Eh; [|discriminate].
    rewrite result_bind_Ok in Hval. injection Hval as <-.
    cbn [max_hp hp] in *.
    destruct (float_of_small mh Hsmall) as (X' & EX' & FX & Hint).
    rewrite EX in EX'. injection EX' as <-.
    rewrite (fmul_one X FX), Hint in Eh. by injection Eh.
Qed.

Lemma apply_modifier_guards_division_witness :
  (apply_modifier 0%nat revive ({[ 0%nat := hollow ]} : store)).1
    <> Raise ZeroDivisionError /\
  (max_hp hollow <= 0 ->
   forall r σ' t,
     apply_modifier 0%nat revive ({[ 0%nat := hollow ]} : store) = (Ok r, σ') ->
     σ' !! r = Some t ->
     small_nonneg (max_hp t) = true -> hp t = max_hp t).
Proof.
  apply (apply_modifier_guards_division {[ 0%nat := hollow ]} 0%nat hollow
                                        revive).
  reflexivity.
Defined.

Section Raising.
Variable get_effective_stats : Creature.t -> result Stats.

(** X28. [evolve] is not all-or-nothing when it raises.  If the path in
    use is satisfied and its target registered, an exception from
    [calculate_stats_at_level] leaves the creature with the target
    species but its old base stats, and an exception from
    [get_effective_stats] leaves it with the target species and the new
    base stats; stats, energy, level and traits are as before.  These
    are the only ways [evolve] raises. *)
Theorem evolve_raises_half_way (self : EvolutionSystem.t)
        (creature : Creature.t) (arg : option EvolutionPath.t)
        (path : EvolutionPath.t) (target : CreatureType.t) :
  uses_path self creature arg path ->
  EvolutionPath.can_evolve path creature = true ->
  EvolutionSystem.creature_types self !! EvolutionPath.to_type path
    = Some target ->
  (forall e,
     calculate_stats_at_level (CreatureType.stat_growth target)
       (CreatureType.base_stats target) (Creature.level creature) = Raise e ->
     EvolutionSystem.evolve get_effective_stats self creature arg
     = (Creature.set_creature_type target creature, Raise e)) /\
  (forall new_base e,
     calculate_stats_at_level (CreatureType.stat_growth target)
       (CreatureType.base_stats target) (Creature.level creature)
       = Ok new_base ->
     get_effective_stats
       (Creature.set_base_stats new_base
          (Creature.set_creature_type target creature)) = Raise e ->
     EvolutionSystem.evolve get_effective_stats self creature arg
     = (Creature.set_base_stats new_base
          (Creature.set_creature_type target creature), Raise e)) /\
  (forall creature' e,
     EvolutionSystem.evolve get_effective_stats self creature arg
     = (creature', Raise e) ->
     Creature.creature_type creature' = target /\
     Creature.stats creature' = Creature.stats creature /\
     Creature.energy creature' = Creature.energy creature /\
     Creature.level creature' = Creature.level creature /\
     Creature.traits creature' = Creature.traits creature /\
     (calculate_stats_at_level (CreatureType.stat_growth target)
        (CreatureType.base_stats target) (Creature.level creature) = Raise e /\
      Creature.base_stats creature' = Creature.base_stats creature
      \/
      exists new_base,
        calculate_stats_at_level (CreatureType.stat_growth target)
          (CreatureType.base_stats target) (Creature.level creature)
          = Ok new_base /\
        Creature.base_stats creature' = new_base /\
        get_effective_stats
          (Creature.set_base_stats new_base
             (Creature.set_creature_type target creature)) = Raise e)).
Proof.
  intros Hpath Hcan Htarget.
  rewrite (evolve_with_path get_effective_stats _ _ _ _ Hpath).
  unfold EvolutionSystem.evolve. rewrite Hcan. cbn [negb]. rewrite Htarget.
  cbn [Creature.level Creature.set_creature_type].
  split; [|split].
  - intros e He. by rewrite He.
  - intros new_base e Hb He. by rewrite Hb, He.
  - intros creature' e.
    destruct (calculate_stats_at_level _ _ _) as [new_base|e1] eqn:Hb.
    + destruct (get_effective_stats _) as [effective|e2] eqn:He;
        [discriminate|].
      intros [= <- <-]. repeat split. right. by exists new_base.
    + intros [= <- <-]. repeat split. by left.
Qed.

End Raising.

Lemma evolve_raises_half_way_witness :
  EvolutionSystem.evolve effective_is_base system_with_giant
    (creature_of base_type 10) (Some to_giant)
  = (Creature.set_creature_type giant_type (creature_of base_type 10),
     Raise OverflowError).
Proof.
  apply (proj1 (evolve_raises_half_way effective_is_base system_with_giant
                  (creature_of base_type 10) (Some to_giant) to_giant
                  giant_type (or_introl eq_refl) eq_refl eq_refl)).
  vm_compute. reflexivity.
Defined.
